(** * DAO governance engine of MBTQUniverse: a shallow embedding

    The class [DAOGovernance] (the governance module that follows the
    example configuration in src/config/config.example.js, imported by
    src/index.js as ./dao/governance.js) keeps three JavaScript
    [Map]s, [proposals], [votes] and [members], and mutates the objects
    they hold in place.  The embedding below follows the methods statement
    by statement in a small state-and-exception monad in which a [throw]
    keeps whatever was written to the store before it.

    Conventions of the model
    - identifiers (member ids, proposal ids, vote choices) are strings;
    - voting weights and tallies are integers ([Z], any sign: the code
      validates nothing); the two quotients of [finalizeProposal] are
      JavaScript divisions, so a zero divisor yields [NaN] or an infinity;
    - an ISO-8601 timestamp is represented by the millisecond count it
      denotes; [toISOString] throws a [RangeError] outside the range of
      [Date], as the language prescribes;
    - a method call is synchronous: every clock read of one call sees the
      same reading [now];
    - [_generateId] draws from [Math.random]; the draw is an argument.

    After the governance engine come [StablecoinManager] (same source
    file), the rate limiter of [APIGateway] and [StakingManager], each
    with the properties its code shows. *)

From Stdlib Require Import ZArith QArith String Ascii.
From stdpp Require Import base decidable option list strings pretty gmap fin_maps.

Local Open Scope string_scope.
Local Open Scope Z_scope.

(** ** JavaScript numbers, as far as the engine uses them *)

Inductive number : Type :=
  | Fin (q : Q)
  | PosInfinity
  | NegInfinity
  | NaN.

(** [a / b] on two integer-valued numbers. *)
Definition js_div (a b : Z) : number :=
  if b =? 0 then
    (if a =? 0 then NaN else if 0 <? a then PosInfinity else NegInfinity)
  else Fin (inject_Z a / inject_Z b)%Q.

(** [x >= t] for a finite [t]; every comparison with [NaN] is false. *)
Definition js_ge (x : number) (t : Q) : bool :=
  match x with
  | Fin q => Qle_bool t q
  | PosInfinity => true
  | NegInfinity => false
  | NaN => false
  end.

(** ** Errors and outcomes *)

(** One constructor per [throw] of the class, with the message it carries;
    [RangeError_InvalidTime] is the exception of [Date.prototype.toISOString]
    on an invalid date. *)
Inductive error : Type :=
  | ProposerNotFound          (* 'Proposer not found or not registered' *)
  | ProposalNotFound          (* 'Proposal not found' *)
  | VotingEndedForProposal    (* 'Voting period has ended for this proposal' *)
  | VoterNotRegistered        (* 'Voter not registered' *)
  | AlreadyVoted              (* 'Member has already voted on this proposal' *)
  | VotingPeriodEnded         (* 'Voting period has ended' *)
  | InvalidVoteChoice         (* 'Invalid vote choice. Must be: for, against, or abstain' *)
  | AlreadyFinalized          (* 'Proposal already finalized' *)
  | OnlyApprovedExecutable    (* 'Only approved proposals can be executed' *)
  | DelayNotElapsed           (* 'Execution delay period has not elapsed' *)
  | RangeError_InvalidTime.   (* RangeError: Invalid time value *)

Global Instance error_eq_dec : EqDecision error.
Proof. solve_decision. Defined.

(** The failure kinds of the specification's taxonomy. *)
Inductive error_kind : Type :=
  | MemberNotFoundError
  | ProposerNotFoundError
  | ProposalNotFoundError
  | VoterNotFoundError
  | InvalidChoiceError
  | InvalidThresholdError
  | VotingClosedError
  | DuplicateVoteError
  | AlreadyFinalizedError
  | NotApprovedError
  | ExecutionDelayNotElapsedError.

Definition kind_of (e : error) : option error_kind :=
  match e with
  | ProposerNotFound => Some ProposerNotFoundError
  | ProposalNotFound => Some ProposalNotFoundError
  | VotingEndedForProposal => Some VotingClosedError
  | VoterNotRegistered => Some VoterNotFoundError
  | AlreadyVoted => Some DuplicateVoteError
  | VotingPeriodEnded => Some VotingClosedError
  | InvalidVoteChoice => Some InvalidChoiceError
  | AlreadyFinalized => Some AlreadyFinalizedError
  | OnlyApprovedExecutable => Some NotApprovedError
  | DelayNotElapsed => Some ExecutionDelayNotElapsedError
  | RangeError_InvalidTime => None
  end.

Inductive outcome (A : Type) : Type :=
  | Return (a : A)
  | Throw (e : error).
Arguments Return {A} a.
Arguments Throw {A} e.

(** ** Dates *)

(** Largest time value a [Date] can hold, in milliseconds. *)
Definition MAX_TIME : Z := 8640000000000000.

(** [new Date(t).toISOString()]; the string is represented by [t]. *)
Definition toISOString (t : Z) : outcome Z :=
  if (Z.abs t <=? MAX_TIME) then Return t else Throw RangeError_InvalidTime.

(** [a < new Date(iso).getTime()], where an absent [iso] parses to [NaN]. *)
Definition before (a : Z) (iso : option Z) : bool :=
  match iso with
  | Some t => a <? t
  | None => false
  end.

(** ** Data model *)

(** The strings a proposal's [status] takes. *)
Inductive proposal_status : Type := active | closed | approved | rejected | executed.

Global Instance proposal_status_eq_dec : EqDecision proposal_status.
Proof. solve_decision. Defined.

Module Member.
Record t : Type := mk {
  id : string;
  name : string;
  votingPower : Z;
  role : string;
  verified : bool;
  joinedAt : Z;
  proposalsCreated : Z;
  votesSubmitted : Z
}.
End Member.

Module Votes.
Record t : Type := mk { for_ : Z; against : Z; abstain : Z }.
End Votes.

Module Result.
Record t : Type := mk {
  quorumMet : bool;
  approvalMet : bool;
  participationRate : number;
  approvalRate : number;
  finalizedAt : Z
}.
End Result.

(** The opaque payload handed to [executeProposal]; [[]] is [{}]. *)
Definition payload : Type := list (string * string).

Module Proposal.
Record t : Type := mk {
  id : string;
  title : string;
  description : string;
  proposerId : string;
  proposerName : string;
  category : string;
  status : proposal_status;
  createdAt : Z;
  votingStartsAt : Z;
  votingEndsAt : Z;
  executionDelay : Z;
  quorumThreshold : Q;
  approvalThreshold : Q;
  votes : Votes.t;
  voters : gset string;
  result : option Result.t;
  executedAt : option Z;
  executionScheduledAt : option Z;
  executionContext : option payload
}.
End Proposal.

Module VoteRecord.
Record t : Type := mk {
  proposalId : string;
  voterId : string;
  choice : string;
  power : Z;
  timestamp : Z
}.
End VoteRecord.

(** Arguments of [registerMember] and [createProposal]; an absent
    property is [None] and takes the default of the destructuring. *)
Module MemberData.
Record t : Type := mk {
  id : string;
  name : string;
  votingPower : option Z;
  role : option string;
  verified : option bool
}.
End MemberData.

Module ProposalData.
Record t : Type := mk {
  title : string;
  description : string;
  proposerId : string;
  category : option string;
  votingPeriod : option Z;
  quorumThreshold : option Q;
  approvalThreshold : option Q;
  executionDelay : option Z
}.
End ProposalData.

(** The three maps of the constructor. *)
Record store : Type := mkStore {
  proposals : gmap string Proposal.t;
  votes : gmap string VoteRecord.t;
  members : gmap string Member.t
}.

Definition new_store : store := mkStore ∅ ∅ ∅.

(** ** The state-and-exception monad *)

Definition M (A : Type) : Type := store → outcome A * store.

Global Instance M_ret : MRet M := λ A a s, (Return a, s).
Global Instance M_bind : MBind M := λ A B f m s,
  match m s with
  | (Return a, s') => f a s'
  | (Throw e, s') => (Throw e, s')
  end.

Definition throw {A : Type} (e : error) : M A := λ s, (Throw e, s).

(** [if (cond) throw e] *)
Definition throw_if (cond : bool) (e : error) : M unit :=
  if cond then throw e else mret ().

(** A value that may itself have thrown, e.g. a date conversion. *)
Definition lift {A : Type} (o : outcome A) : M A := λ s, (o, s).

Definition proposals_get (k : string) : M (option Proposal.t) :=
  λ s, (Return (proposals s !! k), s).
Definition members_get (k : string) : M (option Member.t) :=
  λ s, (Return (members s !! k), s).

Definition proposals_set (k : string) (p : Proposal.t) : M unit :=
  λ s, (Return (), mkStore (<[k := p]> (proposals s)) (votes s) (members s)).
Definition votes_set (k : string) (r : VoteRecord.t) : M unit :=
  λ s, (Return (), mkStore (proposals s) (<[k := r]> (votes s)) (members s)).
Definition members_set (k : string) (m : Member.t) : M unit :=
  λ s, (Return (), mkStore (proposals s) (votes s) (<[k := m]> (members s))).

(** [Array.from(this.members.values())] is only ever summed. *)
Definition members_values_reduce (f : Z → Member.t → Z) (init : Z) : M Z :=
  λ s, (Return (map_fold (λ _ m acc, f acc m) init (members s)), s).

(** [if (!x) throw e] after a [Map.get]. *)
Definition or_throw {A : Type} (e : error) (o : option A) : M A :=
  match o with
  | Some a => mret a
  | None => throw e
  end.

(** ** Field assignments on the stored objects *)

Module Assign.
Import Proposal.

Definition status (v : proposal_status) (p : Proposal.t) : Proposal.t :=
  mk (id p) (title p) (description p) (proposerId p) (proposerName p)
     (category p) v (createdAt p) (votingStartsAt p) (votingEndsAt p)
     (executionDelay p) (quorumThreshold p) (approvalThreshold p)
     (votes p) (voters p) (result p) (executedAt p)
     (executionScheduledAt p) (executionContext p).

Definition votes (v : Votes.t) (p : Proposal.t) : Proposal.t :=
  mk (id p) (title p) (description p) (proposerId p) (proposerName p)
     (category p) (Proposal.status p) (createdAt p) (votingStartsAt p)
     (votingEndsAt p) (executionDelay p) (quorumThreshold p)
     (approvalThreshold p) v (voters p) (result p) (executedAt p)
     (executionScheduledAt p) (executionContext p).

Definition voters (v : gset string) (p : Proposal.t) : Proposal.t :=
  mk (id p) (title p) (description p) (proposerId p) (proposerName p)
     (category p) (Proposal.status p) (createdAt p) (votingStartsAt p)
     (votingEndsAt p) (executionDelay p) (quorumThreshold p)
     (approvalThreshold p) (Proposal.votes p) v (result p) (executedAt p)
     (executionScheduledAt p) (executionContext p).

Definition result (v : Result.t) (p : Proposal.t) : Proposal.t :=
  mk (id p) (title p) (description p) (proposerId p) (proposerName p)
     (category p) (Proposal.status p) (createdAt p) (votingStartsAt p)
     (votingEndsAt p) (executionDelay p) (quorumThreshold p)
     (approvalThreshold p) (Proposal.votes p) (Proposal.voters p) (Some v)
     (executedAt p) (executionScheduledAt p) (executionContext p).

Definition executionScheduledAt (v : Z) (p : Proposal.t) : Proposal.t :=
  mk (id p) (title p) (description p) (proposerId p) (proposerName p)
     (category p) (Proposal.status p) (createdAt p) (votingStartsAt p)
     (votingEndsAt p) (executionDelay p) (quorumThreshold p)
     (approvalThreshold p) (Proposal.votes p) (Proposal.voters p)
     (Proposal.result p) (executedAt p) (Some v) (executionContext p).

Definition executedAt (v : Z) (p : Proposal.t) : Proposal.t :=
  mk (id p) (title p) (description p) (proposerId p) (proposerName p)
     (category p) (Proposal.status p) (createdAt p) (votingStartsAt p)
     (votingEndsAt p) (executionDelay p) (quorumThreshold p)
     (approvalThreshold p) (Proposal.votes p) (Proposal.voters p)
     (Proposal.result p) (Some v) (Proposal.executionScheduledAt p)
     (executionContext p).

Definition executionContext (v : payload) (p : Proposal.t) : Proposal.t :=
  mk (id p) (title p) (description p) (proposerId p) (proposerName p)
     (category p) (Proposal.status p) (createdAt p) (votingStartsAt p)
     (votingEndsAt p) (executionDelay p) (quorumThreshold p)
     (approvalThreshold p) (Proposal.votes p) (Proposal.voters p)
     (Proposal.result p) (Proposal.executedAt p)
     (Proposal.executionScheduledAt p) (Some v).

(** [member.proposalsCreated++] and [member.votesSubmitted++] *)
Definition proposalsCreated_incr (m : Member.t) : Member.t :=
  Member.mk (Member.id m) (Member.name m) (Member.votingPower m)
    (Member.role m) (Member.verified m) (Member.joinedAt m)
    (Member.proposalsCreated m + 1) (Member.votesSubmitted m).

Definition votesSubmitted_incr (m : Member.t) : Member.t :=
  Member.mk (Member.id m) (Member.name m) (Member.votingPower m)
    (Member.role m) (Member.verified m) (Member.joinedAt m)
    (Member.proposalsCreated m) (Member.votesSubmitted m + 1).
End Assign.

(** [votes[voteChoice] += votePower], for the three keys of the tally. *)
Definition votes_add (voteChoice : string) (votePower : Z) (v : Votes.t) : Votes.t :=
  if String.eqb voteChoice "for" then
    Votes.mk (Votes.for_ v + votePower) (Votes.against v) (Votes.abstain v)
  else if String.eqb voteChoice "against" then
    Votes.mk (Votes.for_ v) (Votes.against v + votePower) (Votes.abstain v)
  else if String.eqb voteChoice "abstain" then
    Votes.mk (Votes.for_ v) (Votes.against v) (Votes.abstain v + votePower)
  else v.

(** [['for', 'against', 'abstain'].includes(voteChoice)] *)
Definition valid_choice (voteChoice : string) : bool :=
  existsb (String.eqb voteChoice) ["for"; "against"; "abstain"].

(** [`${proposalId}-${voterId}`] *)
Definition voteKey (proposalId voterId : string) : string :=
  proposalId +:+ "-" +:+ voterId.

(** [`PROP-${Date.now()}-${Math.random().toString(36).slice(2, 11)}`],
    with [rnd] the nine characters, at most, cut from the random draw. *)
Definition _generateId (now : N) (rnd : string) : string :=
  "PROP-" +:+ pretty now +:+ "-" +:+ rnd.

(** The characters [Number.prototype.toString(36)] produces after the
    point: digits and lower-case letters. *)
Definition base36_char (c : ascii) : bool :=
  let n := nat_of_ascii c in
  ((48 <=? n)%nat && (n <=? 57)%nat) || ((97 <=? n)%nat && (n <=? 122)%nat).

Fixpoint base36 (s : string) : bool :=
  match s with
  | EmptyString => true
  | String c s' => base36_char c && base36 s'
  end.

(** What the methods hand back besides members and proposals. *)
Module VoteReceipt.
Record t : Type := mk {
  success : bool;
  proposalId : string;
  currentVotes : Votes.t
}.
End VoteReceipt.

Module ExecutionReceipt.
Record t : Type := mk {
  success : bool;
  proposalId : string;
  executedAt : Z
}.
End ExecutionReceipt.

(** Defaults of [createProposal]: seven and two days, in milliseconds. *)
Definition default_votingPeriod : Z := 7 * 24 * 60 * 60 * 1000.
Definition default_executionDelay : Z := 2 * 24 * 60 * 60 * 1000.
Definition default_quorumThreshold : Q := 5 # 10.
Definition default_approvalThreshold : Q := 6 # 10.

(** ** The methods of [DAOGovernance] *)

Definition registerMember (now : N) (memberData : MemberData.t) : M Member.t :=
  let id := MemberData.id memberData in
  let name := MemberData.name memberData in
  let votingPower := default 1 (MemberData.votingPower memberData) in
  let role := default "member" (MemberData.role memberData) in
  let verified := default false (MemberData.verified memberData) in
  let member :=
    Member.mk id name votingPower role verified (Z.of_N now) 0 0 in
  members_set id member;;
  mret member.

Definition createProposal (now : N) (rnd : string)
    (proposalData : ProposalData.t) : M Proposal.t :=
  let title := ProposalData.title proposalData in
  let description := ProposalData.description proposalData in
  let proposerId := ProposalData.proposerId proposalData in
  let category := default "general" (ProposalData.category proposalData) in
  let votingPeriod :=
    default default_votingPeriod (ProposalData.votingPeriod proposalData) in
  let quorumThreshold :=
    default default_quorumThreshold (ProposalData.quorumThreshold proposalData) in
  let approvalThreshold :=
    default default_approvalThreshold (ProposalData.approvalThreshold proposalData) in
  let executionDelay :=
    default default_executionDelay (ProposalData.executionDelay proposalData) in
  proposer ← members_get proposerId ≫= or_throw ProposerNotFound;
  votingEndsAt ← lift (toISOString (Z.of_N now + votingPeriod));
  let proposal :=
    Proposal.mk (_generateId now rnd) title description proposerId
      (Member.name proposer) category active (Z.of_N now) (Z.of_N now)
      votingEndsAt executionDelay quorumThreshold approvalThreshold
      (Votes.mk 0 0 0) ∅ None None None None in
  proposals_set (Proposal.id proposal) proposal;;
  members_set proposerId (Assign.proposalsCreated_incr proposer);;
  mret proposal.

Definition vote (now : N) (proposalId voterId voteChoice : string)
    : M VoteReceipt.t :=
  proposal ← proposals_get proposalId ≫= or_throw ProposalNotFound;
  throw_if (bool_decide (Proposal.status proposal ≠ active))
    VotingEndedForProposal;;
  voter ← members_get voterId ≫= or_throw VoterNotRegistered;
  throw_if (bool_decide (voterId ∈ Proposal.voters proposal)) AlreadyVoted;;
  let votingEnds := Proposal.votingEndsAt proposal in
  (if votingEnds <? Z.of_N now then
     proposals_set proposalId (Assign.status closed proposal);;
     throw VotingPeriodEnded
   else mret ());;
  let votePower := Member.votingPower voter in
  throw_if (negb (valid_choice voteChoice)) InvalidVoteChoice;;
  let proposal :=
    Assign.votes (votes_add voteChoice votePower (Proposal.votes proposal))
      proposal in
  let proposal :=
    Assign.voters ({[voterId]} ∪ Proposal.voters proposal) proposal in
  proposals_set proposalId proposal;;
  members_set voterId (Assign.votesSubmitted_incr voter);;
  votes_set (voteKey proposalId voterId)
    (VoteRecord.mk proposalId voterId voteChoice votePower (Z.of_N now));;
  mret (VoteReceipt.mk true proposalId (Proposal.votes proposal)).

Definition finalizeProposal (now : N) (proposalId : string) : M Proposal.t :=
  proposal ← proposals_get proposalId ≫= or_throw ProposalNotFound;
  throw_if (bool_decide (Proposal.status proposal ≠ active)
            && bool_decide (Proposal.status proposal ≠ closed))
    AlreadyFinalized;;
  totalVotingPower ←
    members_values_reduce (λ sum member, sum + Member.votingPower member) 0;
  let tally := Proposal.votes proposal in
  let totalVotes := Votes.for_ tally + Votes.against tally + Votes.abstain tally in
  let participationRate := js_div totalVotes totalVotingPower in
  let approvalRate :=
    js_div (Votes.for_ tally) (Votes.for_ tally + Votes.against tally) in
  let quorumMet := js_ge participationRate (Proposal.quorumThreshold proposal) in
  let approvalMet := js_ge approvalRate (Proposal.approvalThreshold proposal) in
  let proposal :=
    Assign.status (if quorumMet && approvalMet then approved else rejected)
      proposal in
  let proposal :=
    Assign.result
      (Result.mk quorumMet approvalMet participationRate approvalRate
         (Z.of_N now))
      proposal in
  proposals_set proposalId proposal;;
  if bool_decide (Proposal.status proposal = approved) then
    scheduled ← lift (toISOString (Z.of_N now + Proposal.executionDelay proposal));
    let proposal := Assign.executionScheduledAt scheduled proposal in
    proposals_set proposalId proposal;;
    mret proposal
  else mret proposal.

Definition executeProposal (now : N) (proposalId : string)
    (executionContext : option payload) : M ExecutionReceipt.t :=
  let executionContext := default [] executionContext in
  proposal ← proposals_get proposalId ≫= or_throw ProposalNotFound;
  throw_if (bool_decide (Proposal.status proposal ≠ approved))
    OnlyApprovedExecutable;;
  let scheduledTime := Proposal.executionScheduledAt proposal in
  throw_if (before (Z.of_N now) scheduledTime) DelayNotElapsed;;
  let proposal := Assign.status executed proposal in
  let proposal := Assign.executedAt (Z.of_N now) proposal in
  let proposal := Assign.executionContext executionContext proposal in
  proposals_set proposalId proposal;;
  mret (ExecutionReceipt.mk true proposalId (Z.of_N now)).

(** [getMember] is the bare [Map.get]: [None] is [undefined]. *)
Definition getMember (memberId : string) : M (option Member.t) :=
  members_get memberId.

(** ** Calls and reachable stores *)

Inductive call : Type :=
  | RegisterMember (memberData : MemberData.t)
  | CreateProposal (rnd : string) (proposalData : ProposalData.t)
  | Vote (proposalId voterId voteChoice : string)
  | FinalizeProposal (proposalId : string)
  | ExecuteProposal (proposalId : string) (executionContext : option payload).

(** The exception a run ended with, if any, and the store it left. *)
Definition thrown {A : Type} (r : outcome A * store) : option error :=
  match r.1 with
  | Return _ => None
  | Throw e => Some e
  end.

Definition exec (now : N) (c : call) (s : store) : option error * store :=
  match c with
  | RegisterMember d =>
      let r := registerMember now d s in (thrown r, r.2)
  | CreateProposal rnd d =>
      let r := createProposal now rnd d s in (thrown r, r.2)
  | Vote p v ch =>
      let r := vote now p v ch s in (thrown r, r.2)
  | FinalizeProposal p =>
      let r := finalizeProposal now p s in (thrown r, r.2)
  | ExecuteProposal p ctx =>
      let r := executeProposal now p ctx s in (thrown r, r.2)
  end.

(** What the environment guarantees to a call: the random draw of
    [_generateId] is made of base-36 digits and the identifier it yields
    is not in use (the identifiers are unique). *)
Definition admissible (now : N) (c : call) (s : store) : Prop :=
  match c with
  | CreateProposal rnd _ =>
      base36 rnd = true ∧ proposals s !! _generateId now rnd = None
  | _ => True
  end.

(** One call, whether it returns or throws. *)
Inductive step : store → store → Prop :=
  | step_exec (now : N) (c : call) (s : store) :
      admissible now c s → step s (exec now c s).2.

Definition reachable (s : store) : Prop := rtc step new_store s.

(** ** Derived notions used by the statements *)

(** The quorum denominator: the sum [finalizeProposal] computes. *)
Definition totalVotingPower (s : store) : Z :=
  map_fold (λ _ member sum, sum + Member.votingPower member) 0 (members s).

Definition totalVotes (p : Proposal.t) : Z :=
  Votes.for_ (Proposal.votes p) + Votes.against (Proposal.votes p)
  + Votes.abstain (Proposal.votes p).

(** Sum of [power] over the vote records whose [proposalId] is [pid]. *)
Definition recordedPower (s : store) (pid : string) : Z :=
  map_fold (λ _ r sum,
      if decide (VoteRecord.proposalId r = pid)
      then sum + VoteRecord.power r else sum)
    0 (votes s).

(** Status and finalization result of the proposal stored under [pid]. *)
Definition status_of (s : store) (pid : string) : option proposal_status :=
  Proposal.status <$> (proposals s !! pid).

Definition result_of (s : store) (pid : string) : option Result.t :=
  (proposals s !! pid) ≫= Proposal.result.

(** The store after the object held under [pid] became [p]. *)
Definition with_proposal (pid : string) (p : Proposal.t) (s : store) : store :=
  mkStore (<[pid := p]> (proposals s)) (votes s) (members s).

(** The edges of the lifecycle. *)
Inductive transition : proposal_status → proposal_status → Prop :=
  | expire : transition active closed
  | approve_active : transition active approved
  | reject_active : transition active rejected
  | approve_closed : transition closed approved
  | reject_closed : transition closed rejected
  | execute : transition approved executed.

Definition rank (st : proposal_status) : nat :=
  match st with
  | active => 0
  | closed => 1
  | approved => 2
  | rejected => 2
  | executed => 3
  end.

(** The two tests of [finalizeProposal] and the object it leaves after
    assigning [status] and [result]. *)
Definition quorumMet_at (s : store) (p : Proposal.t) : bool :=
  js_ge (js_div (totalVotes p) (totalVotingPower s)) (Proposal.quorumThreshold p).

Definition approvalMet_at (p : Proposal.t) : bool :=
  js_ge (js_div (Votes.for_ (Proposal.votes p))
           (Votes.for_ (Proposal.votes p) + Votes.against (Proposal.votes p)))
    (Proposal.approvalThreshold p).

Definition decided (now : N) (s : store) (p : Proposal.t) : Proposal.t :=
  Assign.result
    (Result.mk (quorumMet_at s p) (approvalMet_at p)
       (js_div (totalVotes p) (totalVotingPower s))
       (js_div (Votes.for_ (Proposal.votes p))
          (Votes.for_ (Proposal.votes p) + Votes.against (Proposal.votes p)))
       (Z.of_N now))
    (Assign.status
       (if quorumMet_at s p && approvalMet_at p then approved else rejected) p).

(** The object [executeProposal] leaves on success. *)
Definition executed_as (now : N) (ctx : option payload) (p : Proposal.t)
    : Proposal.t :=
  Assign.executionContext (default [] ctx)
    (Assign.executedAt (Z.of_N now) (Assign.status executed p)).

(** A status kept, or moved along one edge. *)
Definition moved (a b : proposal_status) : Prop := a = b ∨ transition a b.

(** No character of the string is a hyphen. *)
Fixpoint hyphen_free (s : string) : bool :=
  match s with
  | EmptyString => true
  | String c s' => negb (Ascii.eqb c "-") && hyphen_free s'
  end.

(** What every reachable store satisfies: proposal identifiers come from
    [_generateId]; a vote record sits under the key made of its two
    identifiers, and its voter is in the voter set of its proposal; the
    three tallies of a proposal add up to the power of its records. *)
Record Inv (s : store) : Prop := mkInv {
  inv_ids : ∀ pid p, proposals s !! pid = Some p →
    ∃ t rnd, pid = _generateId t rnd ∧ base36 rnd = true;
  inv_records : ∀ k r, votes s !! k = Some r →
    k = voteKey (VoteRecord.proposalId r) (VoteRecord.voterId r)
    ∧ ∃ p, proposals s !! VoteRecord.proposalId r = Some p
           ∧ VoteRecord.voterId r ∈ Proposal.voters p;
  inv_sum : ∀ pid p, proposals s !! pid = Some p →
    totalVotes p = recordedPower s pid
}.

(** The schedule a stored proposal should carry, with the date conversion
    of [finalizeProposal] made explicit: a proposal still open has no
    schedule; an approved one has a result and either the schedule
    [finalizedAt + executionDelay] or, when that date cannot be formatted,
    none. *)
Definition schedule_ok (p : Proposal.t) : Prop :=
  (Proposal.status p = active ∨ Proposal.status p = closed →
   Proposal.executionScheduledAt p = None)
  ∧ (Proposal.status p = approved →
     ∃ r, Proposal.result p = Some r
          ∧ Proposal.executionScheduledAt p
            = match toISOString
                      (Result.finalizedAt r + Proposal.executionDelay p) with
              | Return t => Some t
              | Throw _ => None
              end).

Definition schedules_ok (s : store) : Prop :=
  ∀ pid p, proposals s !! pid = Some p → schedule_ok p.

(** ** Concrete runs *)

(** One member of weight 5 opens a proposal with the default settings and
    votes for it; the stores below are the stages of that run and of its
    variants. *)
Definition alice : MemberData.t :=
  MemberData.mk "alice" "Alice" (Some 5) None None.

Definition alice_without_power : MemberData.t :=
  MemberData.mk "alice" "Alice" (Some 0) None None.

Definition motion : ProposalData.t :=
  ProposalData.mk "Raise rewards" "Raise the staking reward to 7%" "alice"
    None None None None None.

Definition motion_id : string := _generateId 1000 "k3x9".

Definition s_members : store := (exec 1000 (RegisterMember alice) new_store).2.

Definition s_open : store :=
  (exec 1000 (CreateProposal "k3x9" motion) s_members).2.

(** The proposal as [createProposal] stored it. *)
Definition p_open : Proposal.t :=
  Proposal.mk motion_id "Raise rewards" "Raise the staking reward to 7%"
    "alice" "Alice" "general" active 1000 1000 604801000
    default_executionDelay default_quorumThreshold default_approvalThreshold
    (Votes.mk 0 0 0) ∅ None None None None.

Definition s_voted : store :=
  (exec 2000 (Vote motion_id "alice" "for") s_open).2.


Definition s_approved : store :=
  (exec 3000 (FinalizeProposal motion_id) s_voted).2.

(** A clock reading after the seven days of voting, and one after the two
    days of delay that follow the approval at 3000. *)
Definition after_voting : N := 700000000.
Definition after_delay : N := 172803000.

(** A store whose only member has no weight, with an open proposal. *)
Definition s_weightless : store :=
  (exec 1000 (CreateProposal "k3x9" motion)
     (exec 1000 (RegisterMember alice_without_power) new_store).2).2.

(** The same run with an execution delay of 9 * 10^15 ms, which puts the
    scheduled date beyond the range of [Date]. *)
Definition distant_motion : ProposalData.t :=
  ProposalData.mk "Long wait" "Execute in the far future" "alice"
    None None None None (Some 9000000000000000).

Definition distant_id : string := _generateId 1000 "z7q2".

Definition s_distant_voted : store :=
  (exec 2000 (Vote distant_id "alice" "for")
     (exec 1000 (CreateProposal "z7q2" distant_motion) s_members).2).2.

Definition s_distant_finalized : store :=
  (exec 3000 (FinalizeProposal distant_id) s_distant_voted).2.

Definition mint_context : payload := [("action", "mint")].
Definition burn_context : payload := [("action", "burn")].

(** A sequence of calls, each with its clock reading. *)
Fixpoint run (trace : list (N * call)) (s : store) : store :=
  match trace with
  | [] => s
  | (now, c) :: rest => run rest (exec now c s).2
  end.

(** The setting of the specification's scenarios: X has weight 100, Y has
    weight 50, and X opens a proposal with quorum 0.5 and approval 0.6. *)
Definition scenario_id : string := _generateId 10 "abc123xyz".

Definition scenario_setup : list (N * call) :=
  [ (10%N, RegisterMember (MemberData.mk "X" "X" (Some 100) None None));
    (10%N, RegisterMember (MemberData.mk "Y" "Y" (Some 50) None None));
    (10%N, CreateProposal "abc123xyz"
             (ProposalData.mk "Scenario" "" "X" None None
                (Some (5 # 10)) (Some (6 # 10)) None)) ].

(** ** What one call may do to a stored proposal *)

(** The assignments the five methods make to a proposal object: none, the
    lazy close, a counted ballot, the verdict of [finalizeProposal] without
    or with the schedule, and the execution. *)
Inductive touch : Proposal.t → Proposal.t → Prop :=
  | touch_keep (p : Proposal.t) : touch p p
  | touch_close (p : Proposal.t) :
      Proposal.status p = active → touch p (Assign.status closed p)
  | touch_ballot (p : Proposal.t) (vid choice : string) (w : Z) :
      Proposal.status p = active →
      vid ∉ Proposal.voters p →
      valid_choice choice = true →
      touch p (Assign.voters ({[vid]} ∪ Proposal.voters p)
                 (Assign.votes (votes_add choice w (Proposal.votes p)) p))
  | touch_decide (p : Proposal.t) (now : N) (s : store) :
      Proposal.status p = active ∨ Proposal.status p = closed →
      touch p (decided now s p)
  | touch_schedule (p : Proposal.t) (now : N) (s : store) (t : Z) :
      Proposal.status p = active ∨ Proposal.status p = closed →
      Proposal.status (decided now s p) = approved →
      touch p (Assign.executionScheduledAt t (decided now s p))
  | touch_execute (p : Proposal.t) (now : N) (ctx : option payload) :
      Proposal.status p = approved → touch p (executed_as now ctx p).

(** The fields fixed by [createProposal]. *)
Definition same_terms (p p' : Proposal.t) : Prop :=
  Proposal.id p' = Proposal.id p
  ∧ Proposal.title p' = Proposal.title p
  ∧ Proposal.description p' = Proposal.description p
  ∧ Proposal.proposerId p' = Proposal.proposerId p
  ∧ Proposal.proposerName p' = Proposal.proposerName p
  ∧ Proposal.category p' = Proposal.category p
  ∧ Proposal.createdAt p' = Proposal.createdAt p
  ∧ Proposal.votingStartsAt p' = Proposal.votingStartsAt p
  ∧ Proposal.votingEndsAt p' = Proposal.votingEndsAt p
  ∧ Proposal.executionDelay p' = Proposal.executionDelay p
  ∧ Proposal.quorumThreshold p' = Proposal.quorumThreshold p
  ∧ Proposal.approvalThreshold p' = Proposal.approvalThreshold p.

(** The proposal after [vote] counted a ballot of weight [w]. *)
Definition with_ballot (vid choice : string) (w : Z) (p : Proposal.t)
    : Proposal.t :=
  Assign.voters ({[vid]} ∪ Proposal.voters p)
    (Assign.votes (votes_add choice w (Proposal.votes p)) p).

(** Number of vote records whose [proposalId] is [pid]. *)
Definition recordCount (s : store) (pid : string) : nat :=
  map_fold (λ _ r n,
      if decide (VoteRecord.proposalId r = pid) then S n else n)
    0%nat (votes s).

(** The checks a [vote] has to pass, in the order the code makes them. *)
Definition can_vote (now : N) (pid vid choice : string) (s : store)
    (p : Proposal.t) (voter : Member.t) : Prop :=
  proposals s !! pid = Some p
  ∧ Proposal.status p = active
  ∧ members s !! vid = Some voter
  ∧ (vid ∉ Proposal.voters p)
  ∧ Z.of_N now ≤ Proposal.votingEndsAt p
  ∧ valid_choice choice = true.

(** The store a counted [vote] leaves. *)
Definition voted (now : N) (pid vid choice : string) (s : store)
    (p : Proposal.t) (voter : Member.t) : store :=
  mkStore
    (<[pid := with_ballot vid choice (Member.votingPower voter) p]>
       (proposals s))
    (<[voteKey pid vid :=
         (VoteRecord.mk pid vid choice (Member.votingPower voter)
            (Z.of_N now))]>
       (votes s))
    (<[vid := Assign.votesSubmitted_incr voter]> (members s)).

(** A proposal no call can change any more. *)
Definition settled (p : Proposal.t) : Prop :=
  Proposal.status p = rejected ∨ Proposal.status p = executed.

(** A proposal that has been through [finalizeProposal]. *)
Definition finalized (p : Proposal.t) : Prop :=
  Proposal.status p = approved ∨ Proposal.status p = rejected
  ∨ Proposal.status p = executed.

(** What links the voter sets to the vote records: every voter of a
    proposal has a record under the key of the pair, and there are as many
    records for a proposal as it has voters. *)
Record Ballots (s : store) : Prop := mkBallots {
  ballots_recorded : ∀ pid p vid,
    proposals s !! pid = Some p → vid ∈ Proposal.voters p →
    ∃ r, votes s !! voteKey pid vid = Some r
         ∧ VoteRecord.proposalId r = pid ∧ VoteRecord.voterId r = vid;
  ballots_counted : ∀ pid p,
    proposals s !! pid = Some p →
    size (Proposal.voters p) = recordCount s pid
}.


(** The proposal [createProposal] builds for a registered proposer. *)
Definition new_proposal (now : N) (rnd : string) (d : ProposalData.t)
    (proposer : Member.t) : Proposal.t :=
  Proposal.mk (_generateId now rnd) (ProposalData.title d)
    (ProposalData.description d) (ProposalData.proposerId d)
    (Member.name proposer) (default "general" (ProposalData.category d))
    active (Z.of_N now) (Z.of_N now)
    (Z.of_N now + default default_votingPeriod (ProposalData.votingPeriod d))
    (default default_executionDelay (ProposalData.executionDelay d))
    (default default_quorumThreshold (ProposalData.quorumThreshold d))
    (default default_approvalThreshold (ProposalData.approvalThreshold d))
    (Votes.mk 0 0 0) ∅ None None None None.

(** * The stablecoin ledger

    [StablecoinManager], the next class of the same source file, keeps a
    [Map] of stablecoins and an array of transactions.  Its methods make
    all their checks before the first write, so they are written as plain
    functions from a ledger to a result and a ledger.  Amounts are
    integers, as the voting weights are. *)

Module Reserves.
Record t : Type := mk { amount : Z; asset : string; lastAuditDate : Z }.
End Reserves.

Module Stablecoin.
Record t : Type := mk {
  id : string;
  name : string;
  symbol : string;
  backingAsset : string;
  totalSupply : Z;
  circulatingSupply : Z;
  issuer : string;
  regulatoryFramework : string;
  complianceLevel : string;
  reserves : Reserves.t;
  createdAt : Z;
  status : string
}.
End Stablecoin.

(** The argument of [createStablecoin]; [None] takes the default. *)
Module StablecoinConfig.
Record t : Type := mk {
  name : string;
  symbol : string;
  backingAsset : option string;
  initialSupply : option Z;
  issuer : string;
  regulatoryFramework : option string;
  complianceLevel : option string
}.
End StablecoinConfig.

(** An authorization object; [signatures] may be missing. *)
Module Authorization.
Record t : Type := mk { signatures : option (list string) }.
End Authorization.

Inductive transaction_type : Type := tx_mint | tx_burn | tx_transfer.

Global Instance transaction_type_eq_dec : EqDecision transaction_type.
Proof. solve_decision. Defined.

(** A logged transaction; the properties a kind of transaction does not
    have are [None]. *)
Module Transaction.
Record t : Type := mk {
  type : transaction_type;
  stablecoinId : string;
  amount : Z;
  timestamp : Z;
  authorization : option Authorization.t;
  from : option string;
  to : option string;
  id : string
}.
End Transaction.

Record ledger : Type := mkLedger {
  stablecoins : gmap string Stablecoin.t;
  transactions : list Transaction.t
}.

Definition new_ledger : ledger := mkLedger ∅ [].

Inductive ledger_error : Type :=
  | StablecoinNotFound        (* 'Stablecoin not found' *)
  | UnauthorizedMint          (* 'Unauthorized minting operation' *)
  | InsufficientSupply        (* 'Insufficient circulating supply' *)
  | UnauthorizedBurn.         (* 'Unauthorized burn operation' *)

Inductive result (A : Type) : Type :=
  | Ok (a : A)
  | Err (e : ledger_error).
Arguments Ok {A} a.
Arguments Err {A} e.

Module MintReceipt.
Record t : Type := mk {
  success : bool;
  newSupply : Z;
  transaction : option Transaction.t
}.
End MintReceipt.

Module BurnReceipt.
Record t : Type := mk { success : bool; newSupply : Z }.
End BurnReceipt.

Module TransferReceipt.
Record t : Type := mk { success : bool; transactionId : option string }.
End TransferReceipt.

Module ReserveStatus.
Record t : Type := mk {
  stablecoinId : string;
  name : string;
  totalSupply : Z;
  reserves : Reserves.t;
  reserveRatio : number;
  isFullyBacked : bool;
  complianceLevel : string
}.
End ReserveStatus.

Module ReportOptions.
Record t : Type := mk {
  startDate : option Z;
  endDate : option Z;
  includeTransactions : bool
}.
End ReportOptions.

Module ComplianceReport.
Record t : Type := mk {
  stablecoin_id : string;
  stablecoin_name : string;
  stablecoin_issuer : string;
  stablecoin_regulatoryFramework : string;
  reportPeriod_start : Z;
  reportPeriod_end : Z;
  totalTransactions : nat;
  totalMinted : Z;
  totalBurned : Z;
  currentSupply : Z;
  reserves : Reserves.t;
  transactions : list Transaction.t
}.
End ComplianceReport.

Module StablecoinManager.

(** [`SC-${Date.now()}-${Math.random().toString(36).slice(2, 11)}`] *)
Definition _generateId (now : N) (rnd : string) : string :=
  "SC-" +:+ pretty now +:+ "-" +:+ rnd.

(** [authorization && authorization.signatures
     && authorization.signatures.length > 0], as a truth value. *)
Definition _verifyAuthorization (authorization : option Authorization.t)
    : bool :=
  match authorization with
  | None => false
  | Some a =>
      match Authorization.signatures a with
      | None => false
      | Some sigs => (0 <? length sigs)%nat
      end
  end.

(** Assigns the [id] and pushes the transaction. *)
Definition _recordTransaction (now : N) (rnd : string)
    (transaction : Transaction.t) (l : ledger) : ledger :=
  let transaction :=
    Transaction.mk (Transaction.type transaction)
      (Transaction.stablecoinId transaction) (Transaction.amount transaction)
      (Transaction.timestamp transaction)
      (Transaction.authorization transaction) (Transaction.from transaction)
      (Transaction.to transaction)
      ("TX-" +:+ pretty now +:+ "-" +:+ rnd) in
  mkLedger (stablecoins l) (transactions l ++ [transaction]).

(** The three supply fields after [+= amount]. *)
Definition supply_add (amount : Z) (c : Stablecoin.t) : Stablecoin.t :=
  Stablecoin.mk (Stablecoin.id c) (Stablecoin.name c) (Stablecoin.symbol c)
    (Stablecoin.backingAsset c) (Stablecoin.totalSupply c + amount)
    (Stablecoin.circulatingSupply c + amount) (Stablecoin.issuer c)
    (Stablecoin.regulatoryFramework c) (Stablecoin.complianceLevel c)
    (Reserves.mk (Reserves.amount (Stablecoin.reserves c) + amount)
       (Reserves.asset (Stablecoin.reserves c))
       (Reserves.lastAuditDate (Stablecoin.reserves c)))
    (Stablecoin.createdAt c) (Stablecoin.status c).

(** The three supply fields after [-= amount]. *)
Definition supply_sub (amount : Z) (c : Stablecoin.t) : Stablecoin.t :=
  Stablecoin.mk (Stablecoin.id c) (Stablecoin.name c) (Stablecoin.symbol c)
    (Stablecoin.backingAsset c) (Stablecoin.totalSupply c - amount)
    (Stablecoin.circulatingSupply c - amount) (Stablecoin.issuer c)
    (Stablecoin.regulatoryFramework c) (Stablecoin.complianceLevel c)
    (Reserves.mk (Reserves.amount (Stablecoin.reserves c) - amount)
       (Reserves.asset (Stablecoin.reserves c))
       (Reserves.lastAuditDate (Stablecoin.reserves c)))
    (Stablecoin.createdAt c) (Stablecoin.status c).

Definition createStablecoin (now : N) (rnd : string)
    (config : StablecoinConfig.t) (l : ledger) : result Stablecoin.t * ledger :=
  let name := StablecoinConfig.name config in
  let symbol := StablecoinConfig.symbol config in
  let backingAsset := default "USD" (StablecoinConfig.backingAsset config) in
  let initialSupply := default 0 (StablecoinConfig.initialSupply config) in
  let issuer := StablecoinConfig.issuer config in
  let regulatoryFramework :=
    default "PLACEHOLDER" (StablecoinConfig.regulatoryFramework config) in
  let complianceLevel :=
    default "standard" (StablecoinConfig.complianceLevel config) in
  let stablecoin :=
    Stablecoin.mk (_generateId now rnd) name symbol backingAsset
      initialSupply 0 issuer regulatoryFramework complianceLevel
      (Reserves.mk initialSupply backingAsset (Z.of_N now))
      (Z.of_N now) "active" in
  (Ok stablecoin,
   mkLedger (<[Stablecoin.id stablecoin := stablecoin]> (stablecoins l))
     (transactions l)).

Definition mint (now : N) (rnd : string) (stablecoinId : string) (amount : Z)
    (authorization : option Authorization.t) (l : ledger)
    : result MintReceipt.t * ledger :=
  match stablecoins l !! stablecoinId with
  | None => (Err StablecoinNotFound, l)
  | Some stablecoin =>
      if negb (_verifyAuthorization authorization) then
        (Err UnauthorizedMint, l)
      else
        let stablecoin := supply_add amount stablecoin in
        let l := mkLedger (<[stablecoinId := stablecoin]> (stablecoins l))
                   (transactions l) in
        let l :=
          _recordTransaction now rnd
            (Transaction.mk tx_mint stablecoinId amount (Z.of_N now)
               authorization None None "") l in
        (Ok (MintReceipt.mk true (Stablecoin.totalSupply stablecoin)
               (last (transactions l))), l)
  end.

Definition burn (now : N) (rnd : string) (stablecoinId : string) (amount : Z)
    (authorization : option Authorization.t) (l : ledger)
    : result BurnReceipt.t * ledger :=
  match stablecoins l !! stablecoinId with
  | None => (Err StablecoinNotFound, l)
  | Some stablecoin =>
      if Stablecoin.circulatingSupply stablecoin <? amount then
        (Err InsufficientSupply, l)
      else if negb (_verifyAuthorization authorization) then
        (Err UnauthorizedBurn, l)
      else
        let stablecoin := supply_sub amount stablecoin in
        let l := mkLedger (<[stablecoinId := stablecoin]> (stablecoins l))
                   (transactions l) in
        let l :=
          _recordTransaction now rnd
            (Transaction.mk tx_burn stablecoinId amount (Z.of_N now)
               authorization None None "") l in
        (Ok (BurnReceipt.mk true (Stablecoin.totalSupply stablecoin)), l)
  end.

Definition getReserveStatus (stablecoinId : string) (l : ledger)
    : result ReserveStatus.t * ledger :=
  match stablecoins l !! stablecoinId with
  | None => (Err StablecoinNotFound, l)
  | Some stablecoin =>
      (Ok (ReserveStatus.mk stablecoinId (Stablecoin.name stablecoin)
             (Stablecoin.totalSupply stablecoin)
             (Stablecoin.reserves stablecoin)
             (js_div (Reserves.amount (Stablecoin.reserves stablecoin))
                (Stablecoin.totalSupply stablecoin))
             (Stablecoin.totalSupply stablecoin
              <=? Reserves.amount (Stablecoin.reserves stablecoin))
             (Stablecoin.complianceLevel stablecoin)), l)
  end.

Definition transfer (now : N) (rnd : string) (stablecoinId from to : string)
    (amount : Z) (l : ledger) : result TransferReceipt.t * ledger :=
  match stablecoins l !! stablecoinId with
  | None => (Err StablecoinNotFound, l)
  | Some stablecoin =>
      let l :=
        _recordTransaction now rnd
          (Transaction.mk tx_transfer stablecoinId amount (Z.of_N now)
             None (Some from) (Some to) "") l in
      (Ok (TransferReceipt.mk true
             (Transaction.id <$> last (transactions l))), l)
  end.

(** The sum of [amount] over the transactions of one type. *)
Definition total_of (ty : transaction_type) (txs : list Transaction.t) : Z :=
  foldl (λ sum tx, sum + Transaction.amount tx) 0
    (filter (λ tx, Transaction.type tx = ty) txs).


End StablecoinManager.

(** Calls on the ledger and their runs. *)
Inductive ledger_call : Type :=
  | CreateStablecoin (rnd : string) (config : StablecoinConfig.t)
  | Mint (rnd : string) (stablecoinId : string) (amount : Z)
      (authorization : option Authorization.t)
  | Burn (rnd : string) (stablecoinId : string) (amount : Z)
      (authorization : option Authorization.t)
  | Transfer (rnd : string) (stablecoinId from to : string) (amount : Z).

Definition failed {A : Type} (r : result A * ledger) : option ledger_error :=
  match r.1 with
  | Ok _ => None
  | Err e => Some e
  end.

Definition ledger_exec (now : N) (c : ledger_call) (l : ledger)
    : option ledger_error * ledger :=
  match c with
  | CreateStablecoin rnd config =>
      let r := StablecoinManager.createStablecoin now rnd config l in
      (failed r, r.2)
  | Mint rnd id amount auth =>
      let r := StablecoinManager.mint now rnd id amount auth l in
      (failed r, r.2)
  | Burn rnd id amount auth =>
      let r := StablecoinManager.burn now rnd id amount auth l in
      (failed r, r.2)
  | Transfer rnd id from to amount =>
      let r := StablecoinManager.transfer now rnd id from to amount l in
      (failed r, r.2)
  end.

Fixpoint ledger_run (trace : list (N * ledger_call)) (l : ledger) : ledger :=
  match trace with
  | [] => l
  | (now, c) :: rest => ledger_run rest (ledger_exec now c l).2
  end.


(** The books of a stablecoin balance against the log: what circulates is
    what was minted minus what was burned, and nothing is logged for a
    stablecoin that does not exist. *)
Definition minted (l : ledger) (id : string) : Z :=
  StablecoinManager.total_of tx_mint
    (filter (λ tx, Transaction.stablecoinId tx = id) (transactions l)).

Definition burned (l : ledger) (id : string) : Z :=
  StablecoinManager.total_of tx_burn
    (filter (λ tx, Transaction.stablecoinId tx = id) (transactions l)).


(** Every stablecoin holds reserves equal to its total supply. *)
Definition backed (l : ledger) : Prop :=
  ∀ id c, stablecoins l !! id = Some c →
    Reserves.amount (Stablecoin.reserves c) = Stablecoin.totalSupply c.

(** No stablecoin has a negative circulating supply. *)
Definition solvent (l : ledger) : Prop :=
  ∀ id c, stablecoins l !! id = Some c → 0 ≤ Stablecoin.circulatingSupply c.

(** A call that is not a mint of a negative amount. *)
Definition no_negative_mint (c : ledger_call) : Prop :=
  match c with
  | Mint _ _ amount _ => 0 ≤ amount
  | _ => True
  end.


(** * The rate limiter of the API gateway

    [APIGateway._checkRateLimit] keeps, per user, the times of the
    requests it let through during the last minute. *)

Definition windowMs : Z := 60 * 1000.
Definition maxRequests : nat := 100.

Inductive gateway_error : Type :=
  | RateLimitExceeded.        (* 'Rate limit exceeded' *)

Definition _checkRateLimit (now : N) (userId : string)
    (rateLimits : gmap string (list Z))
    : option gateway_error * gmap string (list Z) :=
  let rateLimits :=
    if decide (is_Some (rateLimits !! userId)) then rateLimits
    else <[userId := []]> rateLimits in
  let requests := default [] (rateLimits !! userId) in
  let recentRequests :=
    filter (λ time, Z.of_N now - time < windowMs) requests in
  if (maxRequests <=? length recentRequests)%nat then
    (Some RateLimitExceeded, rateLimits)
  else
    (None, <[userId := (recentRequests ++ [Z.of_N now])%list]> rateLimits).

(** A sequence of checks: the table it leaves and the requests it let
    through, oldest first. *)
Fixpoint limiter_run (trace : list (N * string))
    (rateLimits : gmap string (list Z)) (served : list (N * string))
    : gmap string (list Z) * list (N * string) :=
  match trace with
  | [] => (rateLimits, served)
  | (now, userId) :: rest =>
      let r := _checkRateLimit now userId rateLimits in
      limiter_run rest r.2
        (match r.1 with
         | None => (served ++ [(now, userId)])%list
         | Some _ => served
         end)
  end.

(** The clock readings of a sequence of checks do not go back. *)
Fixpoint clock_ok (t0 : Z) (trace : list (N * string)) : Prop :=
  match trace with
  | [] => True
  | (now, _) :: rest => t0 ≤ Z.of_N now ∧ clock_ok (Z.of_N now) rest
  end.

(** The times at which requests of [userId] were let through. *)
Definition times_of (userId : string) (served : list (N * string)) : list Z :=
  (λ x, Z.of_N x.1) <$> filter (λ x, x.2 = userId) served.

(** Those of them that lie less than a minute before [now]. *)
Definition in_window (now : N) (userId : string) (served : list (N * string))
    : list Z :=
  filter (λ time, Z.of_N now - time < windowMs) (times_of userId served).

(** The table holds, for each user, the served requests of the minute
    before the user's last one; [tmax] bounds every served time. *)
Definition tracks (rateLimits : gmap string (list Z))
    (served : list (N * string)) (tmax : Z) : Prop :=
  (∀ x, x ∈ served → Z.of_N x.1 ≤ tmax)
  ∧ ∀ userId,
      default [] (rateLimits !! userId)
      = filter (λ time,
                  default 0 (last (times_of userId served)) - time < windowMs)
          (times_of userId served).

(** * Staking

    [StakingManager] keeps three [Map]s.  [distributeRewards] walks the
    stakes in insertion order, so [stakes] is an association list kept in
    that order; [pools] and [rewards] are only looked up and written.
    Staked amounts are integers, reward rates and rewards are rationals.
    [unstake] writes to the stake before it dereferences the pool: the
    methods return the state they leave together with their outcome. *)

(** [Map.get] and [Map.set] on an insertion-ordered map: a key already
    present keeps its place. *)
Fixpoint alist_get {A : Type} (k : string) (l : list (string * A))
    : option A :=
  match l with
  | [] => None
  | (k', v) :: rest => if decide (k' = k) then Some v else alist_get k rest
  end.

Fixpoint alist_set {A : Type} (k : string) (v : A) (l : list (string * A))
    : list (string * A) :=
  match l with
  | [] => [(k, v)]
  | (k', v') :: rest =>
      if decide (k' = k) then (k, v) :: rest
      else (k', v') :: alist_set k v rest
  end.

Module Pool.
Record t : Type := mk {
  id : string;
  name : string;
  tokenSymbol : string;
  minStake : Z;
  lockPeriod : Z;
  rewardRate : Q;
  maxStakers : option Z;
  metadata : payload;
  totalStaked : Z;
  stakerCount : Z;
  createdAt : Z;
  status : string
}.
End Pool.

Module PoolData.
Record t : Type := mk {
  name : string;
  tokenSymbol : string;
  minStake : option Z;
  lockPeriod : option Z;
  rewardRate : option Q;
  maxStakers : option Z;
  metadata : option payload
}.
End PoolData.

Inductive stake_status : Type := locked | withdrawn.

Global Instance stake_status_eq_dec : EqDecision stake_status.
Proof. solve_decision. Defined.

Module Stake.
Record t : Type := mk {
  id : string;
  poolId : string;
  stakerId : string;
  amount : Z;
  stakedAt : Z;
  lastUpdated : Z;
  unlockAt : Z;
  rewardsEarned : Q;
  status : stake_status
}.
End Stake.

Module Reward.
Record t : Type := mk {
  id : string;
  stakerId : string;
  poolId : string;
  amount : Q;
  claimedAt : Z
}.
End Reward.

Record staking : Type := mkStaking {
  stakes : list (string * Stake.t);
  pools : gmap string Pool.t;
  rewards : gmap string Reward.t
}.

Definition new_staking : staking := mkStaking [] ∅ ∅.

Inductive staking_error : Type :=
  | PoolNotFound              (* 'Pool not found' *)
  | PoolNotActive             (* 'Pool is not active' *)
  | BelowMinimumStake         (* `Minimum stake amount is ${pool.minStake}` *)
  | PoolFull                  (* 'Pool has reached maximum number of stakers' *)
  | StakeNotFound             (* 'Stake not found' *)
  | TokensLocked              (* `Tokens are locked until ${stake.unlockAt}` *)
  | InsufficientStake         (* 'Insufficient staked amount' *)
  | NoRewards                 (* 'No rewards to claim' *)
  | Staking_RangeError        (* RangeError: Invalid time value *)
  | Staking_TypeError.        (* TypeError: property of undefined *)

Inductive staking_result (A : Type) : Type :=
  | Done (a : A)
  | Failed (e : staking_error).
Arguments Done {A} a.
Arguments Failed {A} e.

Module UnstakeReceipt.
Record t : Type := mk {
  success : bool;
  unstaked : Z;
  remainingStake : Z;
  rewardsEarned : Q
}.
End UnstakeReceipt.

Module RewardEntry.
Record t : Type := mk {
  stakeId : string;
  stakerId : string;
  reward : Q;
  calculatedAt : Z
}.
End RewardEntry.

Module Distribution.
Record t : Type := mk {
  poolId : string;
  distributedAt : Z;
  totalRewardsDistributed : Q;
  rewards : list RewardEntry.t
}.
End Distribution.

Module ClaimReceipt.
Record t : Type := mk {
  success : bool;
  claimed : Q;
  transactionId : string
}.
End ClaimReceipt.

Module StakingManager.

(** [`${prefix}-${Date.now()}-${Math.random().toString(36).slice(2, 11)}`] *)
Definition _generateId (prefix : string) (now : N) (rnd : string) : string :=
  prefix +:+ "-" +:+ pretty now +:+ "-" +:+ rnd.

(** [`${poolId}-${stakerId}`] *)
Definition stakeKey (poolId stakerId : string) : string :=
  poolId +:+ "-" +:+ stakerId.

Definition yearInMs : Z := 365 * 24 * 60 * 60 * 1000.

Definition createPool (now : N) (rnd : string) (poolData : PoolData.t)
    (st : staking) : staking_result Pool.t * staking :=
  let pool :=
    Pool.mk (_generateId "POOL" now rnd) (PoolData.name poolData)
      (PoolData.tokenSymbol poolData)
      (default 100 (PoolData.minStake poolData))
      (default (30 * 24 * 60 * 60 * 1000) (PoolData.lockPeriod poolData))
      (default (5 # 100) (PoolData.rewardRate poolData))
      (PoolData.maxStakers poolData)
      (default [] (PoolData.metadata poolData))
      0 0 (Z.of_N now) "active" in
  (Done pool,
   mkStaking (stakes st) (<[Pool.id pool := pool]> (pools st)) (rewards st)).

(** [pool.maxStakers && pool.stakerCount >= pool.maxStakers]: [null] and
    0 are both falsy. *)
Definition pool_full (pool : Pool.t) : bool :=
  match Pool.maxStakers pool with
  | None => false
  | Some m => negb (m =? 0) && (m <=? Pool.stakerCount pool)
  end.

Definition pool_add (amount : Z) (newStaker : bool) (pool : Pool.t) : Pool.t :=
  Pool.mk (Pool.id pool) (Pool.name pool) (Pool.tokenSymbol pool)
    (Pool.minStake pool) (Pool.lockPeriod pool) (Pool.rewardRate pool)
    (Pool.maxStakers pool) (Pool.metadata pool)
    (Pool.totalStaked pool + amount)
    (if newStaker then Pool.stakerCount pool + 1 else Pool.stakerCount pool)
    (Pool.createdAt pool) (Pool.status pool).

Definition pool_sub (amount : Z) (lastOut : bool) (pool : Pool.t) : Pool.t :=
  Pool.mk (Pool.id pool) (Pool.name pool) (Pool.tokenSymbol pool)
    (Pool.minStake pool) (Pool.lockPeriod pool) (Pool.rewardRate pool)
    (Pool.maxStakers pool) (Pool.metadata pool)
    (Pool.totalStaked pool - amount)
    (if lastOut then Pool.stakerCount pool - 1 else Pool.stakerCount pool)
    (Pool.createdAt pool) (Pool.status pool).

Definition stake_set (amount : Z) (lastUpdated : Z) (rewardsEarned : Q)
    (status : stake_status) (s : Stake.t) : Stake.t :=
  Stake.mk (Stake.id s) (Stake.poolId s) (Stake.stakerId s) amount
    (Stake.stakedAt s) lastUpdated (Stake.unlockAt s) rewardsEarned status.

Definition stake (now : N) (rnd : string) (poolId stakerId : string)
    (amount : Z) (st : staking) : staking_result Stake.t * staking :=
  match pools st !! poolId with
  | None => (Failed PoolNotFound, st)
  | Some pool =>
      if negb (String.eqb (Pool.status pool) "active") then
        (Failed PoolNotActive, st)
      else if amount <? Pool.minStake pool then
        (Failed BelowMinimumStake, st)
      else if pool_full pool then (Failed PoolFull, st)
      else
        let key := stakeKey poolId stakerId in
        match alist_get key (stakes st) with
        | Some existingStake =>
            let existingStake :=
              stake_set (Stake.amount existingStake + amount) (Z.of_N now)
                (Stake.rewardsEarned existingStake)
                (Stake.status existingStake) existingStake in
            (Done existingStake,
             mkStaking (alist_set key existingStake (stakes st))
               (<[poolId := pool_add amount false pool]> (pools st))
               (rewards st))
        | None =>
            match toISOString (Z.of_N now + Pool.lockPeriod pool) with
            | Throw _ => (Failed Staking_RangeError, st)
            | Return unlockAt =>
                let stake :=
                  Stake.mk (_generateId "STAKE" now rnd) poolId stakerId
                    amount (Z.of_N now) (Z.of_N now) unlockAt 0 locked in
                (Done stake,
                 mkStaking (alist_set key stake (stakes st))
                   (<[poolId := pool_add amount true pool]> (pools st))
                   (rewards st))
            end
        end
  end.

(** The reward of one stake for the time since it was first staked. *)
Definition reward_of (now : N) (pool : Pool.t) (s : Stake.t) : Q :=
  (inject_Z (Stake.amount s) * Pool.rewardRate pool
   * inject_Z (Z.of_N now - Stake.stakedAt s) / inject_Z yearInMs)%Q.

Definition earns (poolId : string) (s : Stake.t) : bool :=
  bool_decide (Stake.poolId s = poolId)
  && bool_decide (Stake.status s = locked).

Definition distributeRewards (now : N) (poolId : string) (st : staking)
    : staking_result Distribution.t * staking :=
  match pools st !! poolId with
  | None => (Failed PoolNotFound, st)
  | Some pool =>
      let rewards_ :=
        omap (λ kv : string * Stake.t,
                if earns poolId kv.2 then
                  Some (RewardEntry.mk (Stake.id kv.2) (Stake.stakerId kv.2)
                          (reward_of now pool kv.2) (Z.of_N now))
                else None)
          (stakes st) in
      let stakes' :=
        (λ kv : string * Stake.t,
           if earns poolId kv.2 then
             (kv.1,
              stake_set (Stake.amount kv.2) (Stake.lastUpdated kv.2)
                (Stake.rewardsEarned kv.2 + reward_of now pool kv.2)%Q
                (Stake.status kv.2) kv.2)
           else kv) <$> stakes st in
      (Done (Distribution.mk poolId (Z.of_N now)
               (foldl (λ sum r, (sum + RewardEntry.reward r)%Q) 0%Q rewards_)
               rewards_),
       mkStaking stakes' (pools st) (rewards st))
  end.

Definition unstake (now : N) (poolId stakerId : string) (amount : Z)
    (st : staking) : staking_result UnstakeReceipt.t * staking :=
  let key := stakeKey poolId stakerId in
  match alist_get key (stakes st) with
  | None => (Failed StakeNotFound, st)
  | Some s =>
      if Z.of_N now <? Stake.unlockAt s then (Failed TokensLocked, st)
      else if Stake.amount s <? amount then (Failed InsufficientStake, st)
      else
        let s :=
          stake_set (Stake.amount s - amount) (Stake.lastUpdated s)
            (Stake.rewardsEarned s) (Stake.status s) s in
        match pools st !! poolId with
        | None =>
            (Failed Staking_TypeError,
             mkStaking (alist_set key s (stakes st)) (pools st) (rewards st))
        | Some pool =>
            let lastOut := Stake.amount s =? 0 in
            let s :=
              if lastOut then
                stake_set (Stake.amount s) (Stake.lastUpdated s)
                  (Stake.rewardsEarned s) withdrawn s
              else s in
            (Done (UnstakeReceipt.mk true amount (Stake.amount s)
                     (Stake.rewardsEarned s)),
             mkStaking (alist_set key s (stakes st))
               (<[poolId := pool_sub amount lastOut pool]> (pools st))
               (rewards st))
        end
  end.

Definition claimRewards (now : N) (rnd : string) (poolId stakerId : string)
    (st : staking) : staking_result ClaimReceipt.t * staking :=
  let key := stakeKey poolId stakerId in
  match alist_get key (stakes st) with
  | None => (Failed StakeNotFound, st)
  | Some s =>
      if Qeq_bool (Stake.rewardsEarned s) 0 then (Failed NoRewards, st)
      else
        let claimed := Stake.rewardsEarned s in
        let s :=
          stake_set (Stake.amount s) (Stake.lastUpdated s) 0%Q
            (Stake.status s) s in
        let rewardKey := stakerId +:+ "-" +:+ pretty now in
        let reward :=
          Reward.mk (_generateId "REWARD" now rnd) stakerId poolId claimed
            (Z.of_N now) in
        (Done (ClaimReceipt.mk true claimed (Reward.id reward)),
         mkStaking (alist_set key s (stakes st)) (pools st)
           (<[rewardKey := reward]> (rewards st)))
  end.

(** [getStake] and [getPool] are bare lookups: [None] is [undefined]. *)
Definition getStake (poolId stakerId : string) (st : staking)
    : option Stake.t :=
  alist_get (stakeKey poolId stakerId) (stakes st).

Definition getPool (poolId : string) (st : staking) : option Pool.t :=
  pools st !! poolId.

End StakingManager.

Inductive staking_call : Type :=
  | CreatePool (rnd : string) (poolData : PoolData.t)
  | StakeTokens (rnd : string) (poolId stakerId : string) (amount : Z)
  | DistributeRewards (poolId : string)
  | Unstake (poolId stakerId : string) (amount : Z)
  | ClaimRewards (rnd : string) (poolId stakerId : string).

Definition staking_exec (now : N) (c : staking_call) (st : staking)
    : option staking_error * staking :=
  let erase {A : Type} (r : staking_result A * staking) :=
    (match r.1 with Done _ => None | Failed e => Some e end, r.2) in
  match c with
  | CreatePool rnd d => erase (StakingManager.createPool now rnd d st)
  | StakeTokens rnd p s a => erase (StakingManager.stake now rnd p s a st)
  | DistributeRewards p => erase (StakingManager.distributeRewards now p st)
  | Unstake p s a => erase (StakingManager.unstake now p s a st)
  | ClaimRewards rnd p s => erase (StakingManager.claimRewards now rnd p s st)
  end.

Fixpoint staking_run (trace : list (N * staking_call)) (st : staking)
    : staking :=
  match trace with
  | [] => st
  | (now, c) :: rest => staking_run rest (staking_exec now c st).2
  end.

(** What no method changes of a stake once it is made. *)
Definition same_stake (s s' : Stake.t) : Prop :=
  Stake.id s' = Stake.id s
  ∧ Stake.poolId s' = Stake.poolId s
  ∧ Stake.stakerId s' = Stake.stakerId s
  ∧ Stake.stakedAt s' = Stake.stakedAt s
  ∧ Stake.unlockAt s' = Stake.unlockAt s.

(** A withdrawn stake stays withdrawn and earns nothing more. *)
Definition stays_withdrawn (s s' : Stake.t) : Prop :=
  Stake.status s = withdrawn →
  Stake.status s' = withdrawn
  ∧ (Stake.rewardsEarned s' = Stake.rewardsEarned s
     ∨ Stake.rewardsEarned s' = 0%Q).

(** The stake after [distributeRewards] paid it. *)
Definition paid (now : N) (pool : Pool.t) (s : Stake.t) : Stake.t :=
  StakingManager.stake_set (Stake.amount s) (Stake.lastUpdated s)
    (Stake.rewardsEarned s + StakingManager.reward_of now pool s)%Q
    (Stake.status s) s.

(** Sum of the amounts staked in one pool. *)
Definition staked_in (st : staking) (poolId : string) : Z :=
  foldr (λ kv sum,
           if decide (Stake.poolId kv.2 = poolId)
           then Stake.amount kv.2 + sum else sum)
    0 (stakes st).




(** The assignments the methods make to a stake object: a top-up, a
    reward, a partial or a full withdrawal, a claim. *)
Inductive stake_touch : Stake.t → Stake.t → Prop :=
  | stake_keep (s : Stake.t) : stake_touch s s
  | stake_topup (s : Stake.t) (amount t : Z) :
      stake_touch s
        (StakingManager.stake_set (Stake.amount s + amount) t
           (Stake.rewardsEarned s) (Stake.status s) s)
  | stake_paid (s : Stake.t) (now : N) (pool : Pool.t) :
      Stake.status s = locked → stake_touch s (paid now pool s)
  | stake_reduce (s : Stake.t) (amount : Z) (status : stake_status) :
      status = Stake.status s ∨ status = withdrawn →
      stake_touch s
        (StakingManager.stake_set (Stake.amount s - amount)
           (Stake.lastUpdated s) (Stake.rewardsEarned s) status s)
  | stake_claim (s : Stake.t) :
      stake_touch s
        (StakingManager.stake_set (Stake.amount s) (Stake.lastUpdated s) 0%Q
           (Stake.status s) s).

(** ** More concrete runs *)

(** The weightless store after its proposal was finalized: rejected. *)
Definition s_rejected : store :=
  (exec 3000 (FinalizeProposal motion_id) s_weightless).2.

(** A ledger with one stablecoin of initial supply 1000, then a mint of
    500 and a burn of 200, both signed. *)
Definition coin_id : string := StablecoinManager._generateId 10 "fdd1".

Definition signed : option Authorization.t :=
  Some (Authorization.mk (Some ["treasury"; "auditor"])).

Definition coin_config : StablecoinConfig.t :=
  StablecoinConfig.mk "Federal Digital Dollar" "FDD" None (Some 1000)
    "Issuer" None None.

Definition coin_trace : list (N * ledger_call) :=
  [ (10%N, CreateStablecoin "fdd1" coin_config);
    (20%N, Mint "m1" coin_id 500 signed);
    (30%N, Burn "b1" coin_id 200 signed) ].

Definition l_coin : ledger := ledger_run coin_trace new_ledger.

(** Two checks of one user, a second apart. *)
Definition limiter_trace : list (N * string) :=
  [ (1000%N, "user-1"); (2000%N, "user-1") ].

(** A pool without lock period in which "carol" stakes 1000, is paid a
    reward after a year and withdraws everything. *)
Definition pool_id : string := StakingManager._generateId "POOL" 10 "p00l".

Definition open_pool : PoolData.t :=
  PoolData.mk "Governance pool" "FDD" None (Some 0) None None None.

Definition staking_trace : list (N * staking_call) :=
  [ (10%N, CreatePool "p00l" open_pool);
    (20%N, StakeTokens "s1" pool_id "carol" 1000);
    (31536000020%N, DistributeRewards pool_id) ].

Definition st_paid : staking := staking_run staking_trace new_staking.

Definition st_withdrawn : staking :=
  (staking_exec 31536000030 (Unstake pool_id "carol" 1000) st_paid).2.

(** A pool with the default lock period of thirty days. *)
Definition locked_pool_id : string :=
  StakingManager._generateId "POOL" 10 "l0ck".

Definition st_locked_pool : staking :=
  (staking_exec 10
     (CreatePool "l0ck" (PoolData.mk "Locked pool" "FDD" None None None None
                           None))
     new_staking).2.

(** ** Unfolding the monad *)

(** Closes a goal whose hypotheses give one proposal two statuses. *)
Ltac status_clash :=
  exfalso;
  repeat match goal with H : _ ∨ _ |- _ => destruct H end;
  congruence.

Ltac unfold_monad :=
  unfold mbind, M_bind, mret, M_ret, throw_if, throw, lift, or_throw,
    proposals_get, members_get, proposals_set, votes_set, members_set,
    members_values_reduce in *.

(** ** finalizeProposal *)

(** C5: a proposal that is already APPROVED, REJECTED or EXECUTED makes
    [finalizeProposal] throw 'Proposal already finalized', an
    AlreadyFinalizedError, and the store the call leaves is the store it
    found: no proposal, member or vote record has changed. *)
Theorem finalize_twice_fails (now : N) (pid : string) (s : store) (p : Proposal.t) :
  proposals s !! pid = Some p →
  Proposal.status p = approved ∨ Proposal.status p = rejected
    ∨ Proposal.status p = executed →
  finalizeProposal now pid s = (Throw AlreadyFinalized, s)
  ∧ kind_of AlreadyFinalized = Some AlreadyFinalizedError.
Proof.
  intros Hp Hst. split; [|reflexivity].
  unfold finalizeProposal. unfold_monad. rewrite Hp. simpl.
  destruct Hst as [-> | [-> | ->]]; reflexivity.
Qed.

Lemma decided_status (now : N) (s : store) (p : Proposal.t) :
  Proposal.status (decided now s p)
  = if quorumMet_at s p && approvalMet_at p then approved else rejected.
Proof. reflexivity. Qed.

(** What a call on a proposal that is still open does, path by path. *)
Lemma finalize_open (now : N) (pid : string) (s : store) (p : Proposal.t) :
  proposals s !! pid = Some p →
  Proposal.status p = active ∨ Proposal.status p = closed →
  finalizeProposal now pid s =
    let p1 := decided now s p in
    if quorumMet_at s p && approvalMet_at p then
      match toISOString (Z.of_N now + Proposal.executionDelay p) with
      | Return t =>
          (Return (Assign.executionScheduledAt t p1),
           with_proposal pid (Assign.executionScheduledAt t p1)
             (with_proposal pid p1 s))
      | Throw e => (Throw e, with_proposal pid p1 s)
      end
    else (Return p1, with_proposal pid p1 s).
Proof.
  intros Hp Hst. unfold finalizeProposal. unfold_monad. rewrite Hp. simpl.
  replace (bool_decide (Proposal.status p ≠ active)
           && bool_decide (Proposal.status p ≠ closed)) with false
    by (destruct Hst as [-> | ->]; reflexivity).
  simpl. fold (totalVotingPower s). fold (totalVotes p).
  fold (quorumMet_at s p). fold (approvalMet_at p). fold (decided now s p).
  destruct (quorumMet_at s p && approvalMet_at p); simpl; [|reflexivity].
  destruct (toISOString _); reflexivity.
Qed.

(** C4: with no weight cast for or against, finalizing an open proposal
    computes [approvalMet = false] (the approval rate is 0/0); the call
    returns the proposal, stored with that result and rejected. *)
Theorem only_abstain_not_approved (now : N) (pid : string) (s : store)
    (p : Proposal.t) :
  proposals s !! pid = Some p →
  Proposal.status p = active ∨ Proposal.status p = closed →
  Votes.for_ (Proposal.votes p) = 0 →
  Votes.against (Proposal.votes p) = 0 →
  ∃ p' r,
    finalizeProposal now pid s = (Return p', with_proposal pid p' s)
    ∧ Proposal.result p' = Some r
    ∧ Result.approvalMet r = false
    ∧ Proposal.status p' = rejected.
Proof.
  intros Hp Hst Hfor Hagainst.
  assert (Ha : approvalMet_at p = false).
  { unfold approvalMet_at. rewrite Hfor, Hagainst. reflexivity. }
  rewrite (finalize_open now pid s p Hp Hst). simpl.
  rewrite Ha, andb_false_r.
  eexists _, _. split; [reflexivity|]. split; [reflexivity|].
  split; [exact Ha|]. rewrite decided_status, Ha, andb_false_r. reflexivity.
Qed.


(** ** vote *)

(** C2, as the code orders its checks: on an ACTIVE proposal whose
    [votingEndsAt] has passed, the voter is looked up and the duplicate
    test made before the clock is read.  An unregistered voter gets
    'Voter not registered' and a voter already in the set 'Member has
    already voted on this proposal', both leaving the store (and the
    ACTIVE status) as it was; every other voter, whatever the choice, gets
    'Voting period has ended', a VotingClosedError, and the only change to
    the store is that the proposal is now CLOSED. *)
Theorem vote_after_deadline (now : N) (pid vid choice : string) (s : store)
    (p : Proposal.t) :
  proposals s !! pid = Some p →
  Proposal.status p = active →
  Proposal.votingEndsAt p < Z.of_N now →
  (members s !! vid = None →
   vote now pid vid choice s = (Throw VoterNotRegistered, s))
  ∧ (is_Some (members s !! vid) → vid ∈ Proposal.voters p →
     vote now pid vid choice s = (Throw AlreadyVoted, s))
  ∧ (is_Some (members s !! vid) → vid ∉ Proposal.voters p →
     vote now pid vid choice s
     = (Throw VotingPeriodEnded, with_proposal pid (Assign.status closed p) s)
     ∧ kind_of VotingPeriodEnded = Some VotingClosedError
     ∧ status_of (vote now pid vid choice s).2 pid = Some closed).
Proof.
  intros Hp Hst Hlate.
  unfold vote. unfold_monad. rewrite Hp. simpl. rewrite Hst. simpl.
  split; [intros ->; reflexivity|].
  split; intros [voter ->] Hin; simpl.
  - rewrite bool_decide_eq_true_2 by exact Hin. reflexivity.
  - rewrite bool_decide_eq_false_2 by exact Hin. simpl.
    apply Z.ltb_lt in Hlate. rewrite Hlate. simpl.
    unfold status_of. simpl. rewrite lookup_insert_eq. auto.
Qed.

(** ** Failing calls and the store *)

Lemma registerMember_returns (now : N) (d : MemberData.t) (s : store) :
  thrown (registerMember now d s) = None.
Proof. reflexivity. Qed.

Lemma createProposal_throw (now : N) (rnd : string) (d : ProposalData.t)
    (s : store) (e : error) :
  thrown (createProposal now rnd d s) = Some e →
  (createProposal now rnd d s).2 = s.
Proof.
  unfold createProposal. unfold_monad.
  destruct (members s !! ProposalData.proposerId d); simpl; [|reflexivity].
  destruct (toISOString _); simpl; [discriminate|reflexivity].
Qed.

Lemma vote_throw (now : N) (pid vid choice : string) (s : store) (e : error) :
  thrown (vote now pid vid choice s) = Some e →
  if decide (e = VotingPeriodEnded)
  then ∃ p, proposals s !! pid = Some p
            ∧ (vote now pid vid choice s).2
              = with_proposal pid (Assign.status closed p) s
  else (vote now pid vid choice s).2 = s.
Proof.
  unfold vote. unfold_monad.
  destruct (proposals s !! pid) as [p|]; simpl;
    [|intros [= <-]; reflexivity].
  destruct (bool_decide (Proposal.status p ≠ active)); simpl;
    [intros [= <-]; reflexivity|].
  destruct (members s !! vid) as [voter|]; simpl;
    [|intros [= <-]; reflexivity].
  destruct (bool_decide (vid ∈ Proposal.voters p)); simpl;
    [intros [= <-]; reflexivity|].
  destruct (Proposal.votingEndsAt p <? Z.of_N now); simpl.
  - intros [= <-]. simpl. eauto.
  - destruct (valid_choice choice); simpl; [discriminate|].
    intros [= <-]; reflexivity.
Qed.

Lemma finalize_throw (now : N) (pid : string) (s : store) (e : error) :
  thrown (finalizeProposal now pid s) = Some e →
  e ≠ RangeError_InvalidTime →
  (finalizeProposal now pid s).2 = s.
Proof.
  unfold finalizeProposal. unfold_monad.
  destruct (proposals s !! pid) as [p|]; simpl; [|reflexivity].
  destruct (bool_decide (Proposal.status p ≠ active)
            && bool_decide (Proposal.status p ≠ closed)); simpl;
    [reflexivity|].
  match goal with |- context [if ?b then approved else rejected] =>
    destruct b end; simpl; [|discriminate].
  unfold toISOString. destruct (_ <=? MAX_TIME); simpl; [discriminate|].
  intros [= <-] Hne. congruence.
Qed.

Lemma execute_throw (now : N) (pid : string) (ctx : option payload)
    (s : store) (e : error) :
  thrown (executeProposal now pid ctx s) = Some e →
  (executeProposal now pid ctx s).2 = s.
Proof.
  unfold executeProposal. unfold_monad.
  destruct (proposals s !! pid) as [p|]; simpl; [|reflexivity].
  destruct (bool_decide (Proposal.status p ≠ approved)); simpl; [reflexivity|].
  destruct (before _ _); simpl; [reflexivity|discriminate].
Qed.

(** C3, as the code has it: a call that throws leaves every member,
    proposal and vote record as it found them, with one exception made on
    purpose: a [vote] that throws 'Voting period has ended' has first
    closed the proposal, and changed nothing else.  (A [finalizeProposal]
    stopped by the date conversion is not covered by this statement.) *)
Theorem failed_call_store (now : N) (c : call) (s : store) (e : error) :
  (exec now c s).1 = Some e →
  (∀ pid, c = FinalizeProposal pid → e ≠ RangeError_InvalidTime) →
  if decide (e = VotingPeriodEnded)
  then ∃ pid vid choice p,
         c = Vote pid vid choice
         ∧ proposals s !! pid = Some p
         ∧ Proposal.status p = active
         ∧ (exec now c s).2 = with_proposal pid (Assign.status closed p) s
  else (exec now c s).2 = s.
Proof.
  intros He Hslip. destruct c as [d|rnd d|pid vid ch|pid|pid ctx]; simpl in *.
  - discriminate.
  - pose proof (createProposal_throw now rnd d s e He) as Hs.
    case_decide as Hd; [|exact Hs]. subst e. exfalso. revert He.
    unfold createProposal. unfold_monad.
    destruct (members s !! ProposalData.proposerId d); simpl; [|discriminate].
    unfold toISOString. destruct (_ <=? MAX_TIME); discriminate.
  - pose proof (vote_throw now pid vid ch s e He) as Hs.
    case_decide as Hd; [|exact Hs].
    destruct Hs as (p & Hp & Hs). exists pid, vid, ch, p.
    split; [reflexivity|]. split; [exact Hp|]. split; [|exact Hs].
    subst e. revert He. unfold vote. unfold_monad. rewrite Hp. simpl.
    destruct (decide (Proposal.status p = active)) as [|Hn]; [done|].
    rewrite (bool_decide_eq_true_2 _ Hn). discriminate.
  - pose proof (finalize_throw now pid s e He (Hslip pid eq_refl)) as Hs.
    case_decide as Hd; [|exact Hs]. subst e. exfalso. revert He.
    unfold finalizeProposal. unfold_monad.
    destruct (proposals s !! pid) as [p|]; simpl; [|discriminate].
    destruct (_ && _); simpl; [discriminate|].
    match goal with |- context [if ?b then approved else rejected] =>
      destruct b end; simpl; [|discriminate].
    unfold toISOString. destruct (_ <=? MAX_TIME); discriminate.
  - pose proof (execute_throw now pid ctx s e He) as Hs.
    case_decide as Hd; [|exact Hs]. subst e. exfalso. revert He.
    unfold executeProposal. unfold_monad.
    destruct (proposals s !! pid) as [p|]; simpl; [|discriminate].
    destruct (bool_decide _); simpl; [discriminate|].
    destruct (before _ _); discriminate.
Qed.

(** ** executeProposal *)

(** C8, as the code has it.  On an existing proposal the call throws
    'Only approved proposals can be executed' (NotApprovedError) exactly
    when the status is not APPROVED; on an APPROVED one it throws
    'Execution delay period has not elapsed' exactly when the clock is
    strictly before [executionScheduledAt]; otherwise it returns, the
    proposal being EXECUTED with [executedAt] the clock reading and the
    context stored as given.  What the caller gets back is the record
    [{success: true, proposalId, executedAt}]: the context is not in it. *)
Theorem execute_cases (now : N) (pid : string) (ctx : payload) (s : store)
    (p : Proposal.t) :
  proposals s !! pid = Some p →
  let r := executeProposal now pid (Some ctx) s in
  (r.1 = Throw OnlyApprovedExecutable ↔ Proposal.status p ≠ approved)
  ∧ kind_of OnlyApprovedExecutable = Some NotApprovedError
  ∧ (Proposal.status p = approved →
     (r.1 = Throw DelayNotElapsed
      ↔ ∃ t, Proposal.executionScheduledAt p = Some t ∧ Z.of_N now < t))
  ∧ kind_of DelayNotElapsed = Some ExecutionDelayNotElapsedError
  ∧ (Proposal.status p = approved →
     ¬ (∃ t, Proposal.executionScheduledAt p = Some t ∧ Z.of_N now < t) →
     r = (Return (ExecutionReceipt.mk true pid (Z.of_N now)),
          with_proposal pid (executed_as now (Some ctx) p) s)
     ∧ Proposal.status (executed_as now (Some ctx) p) = executed
     ∧ Proposal.executedAt (executed_as now (Some ctx) p) = Some (Z.of_N now)
     ∧ Proposal.executionContext (executed_as now (Some ctx) p) = Some ctx).
Proof.
  intros Hp r.
  assert (Hbefore : before (Z.of_N now) (Proposal.executionScheduledAt p) = true
            ↔ ∃ t, Proposal.executionScheduledAt p = Some t ∧ Z.of_N now < t).
  { unfold before. destruct (Proposal.executionScheduledAt p) as [t|].
    - rewrite Z.ltb_lt. split; [eauto|]. intros (t' & [= <-] & Hlt). exact Hlt.
    - split; [discriminate|]. intros (t' & Ht & _). discriminate. }
  subst r. unfold executeProposal. unfold_monad. rewrite Hp. simpl.
  destruct (decide (Proposal.status p = approved)) as [Hst|Hst].
  - rewrite bool_decide_eq_false_2 by (intros Hn; exact (Hn Hst)). simpl.
    destruct (before _ _) eqn:Hb; simpl.
    + split; [split; [discriminate|done]|]. split; [reflexivity|].
      split; [intros _; split; [intros _; apply Hbefore; reflexivity|reflexivity]|].
      split; [reflexivity|].
      intros _ Hn. exfalso. apply Hn, Hbefore. reflexivity.
    + split; [split; [discriminate|done]|]. split; [reflexivity|].
      split.
      { intros _. split; [discriminate|]. intros Hex. apply Hbefore in Hex.
        discriminate. }
      split; [reflexivity|]. intros _ _. auto.
  - rewrite bool_decide_eq_true_2 by exact Hst. simpl.
    split; [split; [intros _; exact Hst|reflexivity]|]. split; [reflexivity|].
    split; [intros Hn; done|]. split; [reflexivity|]. intros Hn; done.
Qed.

(** ** getMember *)

(** C9, as the code has it: [getMember] is the map lookup.  It returns
    the registered record when there is one and returns [undefined] when
    there is none; it never throws and never changes the store. *)
Theorem getMember_lookup (id : string) (s : store) :
  getMember id s = (Return (members s !! id), s).
Proof. reflexivity. Qed.

(** ** The lifecycle only moves forward *)

Lemma transition_rank (a b : proposal_status) :
  transition a b → (rank a < rank b)%nat.
Proof. destruct 1; simpl; lia. Qed.

Lemma transition_terminal (a b : proposal_status) :
  transition a b → a ≠ rejected ∧ a ≠ executed.
Proof. destruct 1; done. Qed.

(** Replacing the object under [pid0] moves that proposal and leaves the
    others where they are. *)
Lemma with_proposal_moved (pid0 : string) (p0 p0' : Proposal.t) (s : store)
    (pid : string) (p : Proposal.t) :
  proposals s !! pid0 = Some p0 →
  moved (Proposal.status p0) (Proposal.status p0') →
  proposals s !! pid = Some p →
  ∃ p', proposals (with_proposal pid0 p0' s) !! pid = Some p'
        ∧ moved (Proposal.status p) (Proposal.status p').
Proof.
  intros Hp0 Hmv Hp. simpl. destruct (decide (pid0 = pid)) as [->|Hne].
  - rewrite lookup_insert_eq. exists p0'. split; [reflexivity|]. congruence.
  - rewrite lookup_insert_ne by exact Hne. exists p. split; [exact Hp|].
    left; reflexivity.
Qed.

Lemma stays (s s' : store) (pid : string) (p : Proposal.t) :
  proposals s' = proposals s →
  proposals s !! pid = Some p →
  ∃ p', proposals s' !! pid = Some p'
        ∧ moved (Proposal.status p) (Proposal.status p').
Proof.
  intros -> Hp. exists p. split; [exact Hp|]. left; reflexivity.
Qed.

Lemma createProposal_moved (now : N) (rnd : string) (d : ProposalData.t)
    (s : store) (pid : string) (p : Proposal.t) :
  proposals s !! _generateId now rnd = None →
  proposals s !! pid = Some p →
  ∃ p', proposals (createProposal now rnd d s).2 !! pid = Some p'
        ∧ moved (Proposal.status p) (Proposal.status p').
Proof.
  intros Hfresh Hp. unfold createProposal. unfold_monad.
  destruct (members s !! ProposalData.proposerId d); simpl;
    [|apply (stays s s); done].
  destruct (toISOString _); simpl; [|apply (stays s s); done].
  rewrite lookup_insert_ne by congruence.
  exists p. split; [exact Hp|]. left; reflexivity.
Qed.

Lemma vote_moved (now : N) (pid0 vid choice : string) (s : store)
    (pid : string) (p : Proposal.t) :
  proposals s !! pid = Some p →
  ∃ p', proposals (vote now pid0 vid choice s).2 !! pid = Some p'
        ∧ moved (Proposal.status p) (Proposal.status p').
Proof.
  intros Hp. unfold vote. unfold_monad.
  destruct (proposals s !! pid0) as [p0|] eqn:Hp0; simpl;
    [|apply (stays s s); done].
  destruct (decide (Proposal.status p0 = active)) as [Hst|Hst].
  2:{ rewrite bool_decide_eq_true_2 by exact Hst. simpl.
      apply (stays s s); done. }
  rewrite bool_decide_eq_false_2 by (intros Hn; exact (Hn Hst)). simpl.
  destruct (members s !! vid) as [voter|]; simpl; [|apply (stays s s); done].
  destruct (bool_decide (vid ∈ Proposal.voters p0)); simpl;
    [apply (stays s s); done|].
  destruct (Proposal.votingEndsAt p0 <? Z.of_N now); simpl.
  - apply (with_proposal_moved pid0 p0 (Assign.status closed p0) s pid p);
      [exact Hp0| |exact Hp].
    right. simpl. rewrite Hst. constructor.
  - destruct (valid_choice choice); simpl; [|apply (stays s s); done].
    match goal with |- context [<[pid0 := ?q]> (proposals s)] =>
      apply (with_proposal_moved pid0 p0 q s pid p); [exact Hp0| |exact Hp]
    end.
    left; reflexivity.
Qed.

Lemma finalize_moved (now : N) (pid0 : string) (s : store)
    (pid : string) (p : Proposal.t) :
  proposals s !! pid = Some p →
  ∃ p', proposals (finalizeProposal now pid0 s).2 !! pid = Some p'
        ∧ moved (Proposal.status p) (Proposal.status p').
Proof.
  intros Hp.
  destruct (proposals s !! pid0) as [p0|] eqn:Hp0.
  2:{ unfold finalizeProposal. unfold_monad. rewrite Hp0. simpl.
      apply (stays s s); done. }
  destruct (decide (Proposal.status p0 = active
                    ∨ Proposal.status p0 = closed)) as [Hopen|Hdone].
  - assert (Hmv : moved (Proposal.status p0)
                    (Proposal.status (decided now s p0))).
    { right. rewrite decided_status.
      destruct Hopen as [-> | ->], (quorumMet_at s p0 && approvalMet_at p0);
        constructor. }
    rewrite (finalize_open now pid0 s p0 Hp0 Hopen). simpl.
    destruct (quorumMet_at s p0 && approvalMet_at p0);
      [destruct (toISOString _)|]; simpl.
    + destruct (decide (pid0 = pid)) as [->|Hne].
      * rewrite lookup_insert_eq. eexists. split; [reflexivity|].
        simpl in *. congruence.
      * rewrite !lookup_insert_ne by exact Hne. exists p.
        split; [exact Hp|]. left; reflexivity.
    + apply (with_proposal_moved pid0 p0 _ s pid p); assumption.
    + apply (with_proposal_moved pid0 p0 _ s pid p); assumption.
  - unfold finalizeProposal. unfold_monad. rewrite Hp0. simpl.
    replace (bool_decide (Proposal.status p0 ≠ active)
             && bool_decide (Proposal.status p0 ≠ closed)) with true.
    + simpl. apply (stays s s); done.
    + symmetry. apply andb_true_iff.
      split; apply bool_decide_eq_true_2; intros Heq; apply Hdone; auto.
Qed.

Lemma execute_moved (now : N) (pid0 : string) (ctx : option payload)
    (s : store) (pid : string) (p : Proposal.t) :
  proposals s !! pid = Some p →
  ∃ p', proposals (executeProposal now pid0 ctx s).2 !! pid = Some p'
        ∧ moved (Proposal.status p) (Proposal.status p').
Proof.
  intros Hp. unfold executeProposal. unfold_monad.
  destruct (proposals s !! pid0) as [p0|] eqn:Hp0; simpl;
    [|apply (stays s s); done].
  destruct (decide (Proposal.status p0 = approved)) as [Hst|Hst].
  2:{ rewrite bool_decide_eq_true_2 by exact Hst. simpl.
      apply (stays s s); done. }
  rewrite bool_decide_eq_false_2 by (intros Hn; exact (Hn Hst)). simpl.
  destruct (before _ _); simpl; [apply (stays s s); done|].
  match goal with |- context [<[pid0 := ?q]> (proposals s)] =>
    apply (with_proposal_moved pid0 p0 q s pid p); [exact Hp0| |exact Hp]
  end.
  right. simpl. rewrite Hst. constructor.
Qed.

(** One call leaves each proposal in place or moves it along one edge. *)
Lemma step_moved (s s' : store) (pid : string) (p : Proposal.t) :
  step s s' →
  proposals s !! pid = Some p →
  ∃ p', proposals s' !! pid = Some p'
        ∧ moved (Proposal.status p) (Proposal.status p').
Proof.
  intros Hstep. revert p. destruct Hstep as [now c s Hadm]. intros p Hp.
  destruct c as [d|rnd d|pid0 vid ch|pid0|pid0 ctx]; simpl in *.
  - apply (stays s); done.
  - apply createProposal_moved; [apply Hadm|exact Hp].
  - apply vote_moved, Hp.
  - apply finalize_moved, Hp.
  - apply execute_moved, Hp.
Qed.

(** C6: over any sequence of calls a proposal stays in the store and its
    status is reached from the earlier one along the edges
    ACTIVE → CLOSED → APPROVED | REJECTED, APPROVED → EXECUTED (CLOSED may
    be skipped): its rank never decreases, and REJECTED and EXECUTED are
    never left. *)
Theorem status_never_regresses (s s' : store) (pid : string) (p : Proposal.t) :
  rtc step s s' →
  proposals s !! pid = Some p →
  ∃ p', proposals s' !! pid = Some p'
        ∧ rtc transition (Proposal.status p) (Proposal.status p')
        ∧ (rank (Proposal.status p) ≤ rank (Proposal.status p'))%nat
        ∧ (Proposal.status p = rejected ∨ Proposal.status p = executed →
           Proposal.status p' = Proposal.status p).
Proof.
  intros Hsteps. revert p.
  induction Hsteps as [s|s s1 s' Hstep _ IH]; intros p Hp.
  - exists p. split; [exact Hp|]. split; [constructor|]. split; [lia|done].
  - destruct (step_moved s s1 pid p Hstep Hp) as (p1 & Hp1 & Hmv).
    destruct (IH p1 Hp1) as (p' & Hp' & Hrtc & Hrank & Hterm).
    exists p'. split; [exact Hp'|].
    destruct Hmv as [Heq|Htr].
    + rewrite Heq. done.
    + split; [eapply rtc_l; eassumption|].
      split; [apply transition_rank in Htr; lia|].
      intros Hfinal. apply transition_terminal in Htr as [Hr He].
      destruct Hfinal; contradiction.
Qed.

(** ** Vote keys do not collide *)

Lemma append_nil (b : string) : "" +:+ b = b.
Proof. reflexivity. Qed.

Lemma append_cons (x : ascii) (a b : string) :
  String x a +:+ b = String x (a +:+ b).
Proof. reflexivity. Qed.

Lemma append_assoc (a b c : string) : (a +:+ b) +:+ c = a +:+ (b +:+ c).
Proof.
  induction a as [|x a IH]; [reflexivity|].
  rewrite !append_cons. by rewrite IH.
Qed.

Lemma base36_char_not_hyphen (c : ascii) :
  base36_char c = true → Ascii.eqb c "-" = false.
Proof.
  intros Hc. destruct (Ascii.eqb_spec c "-") as [->|]; [|reflexivity].
  discriminate Hc.
Qed.

Lemma base36_hyphen_free (s : string) : base36 s = true → hyphen_free s = true.
Proof.
  induction s as [|c s IH]; simpl; [reflexivity|].
  intros [Hc Hs]%andb_true_iff.
  rewrite (base36_char_not_hyphen c Hc). simpl. auto.
Qed.

Lemma pretty_N_go_hyphen_free (x : N) (s : string) :
  hyphen_free s = true → hyphen_free (pretty_N_go x s) = true.
Proof.
  revert s. induction (N.lt_wf_0 x) as [x _ IH]. intros s Hs.
  destruct (decide (x = 0%N)) as [->|Hx]; [by rewrite pretty_N_go_0|].
  rewrite pretty_N_go_step by lia.
  apply IH; [apply N.div_lt; lia|].
  simpl. rewrite Hs, andb_true_r.
  unfold pretty_N_char. by repeat case_match.
Qed.

Lemma pretty_N_hyphen_free (x : N) : hyphen_free (pretty x) = true.
Proof.
  unfold pretty, pretty_N. case_decide; [reflexivity|].
  by apply pretty_N_go_hyphen_free.
Qed.

(** A string is cut at its first hyphen in one way only. *)
Lemma cut_at_hyphen (s1 s2 r1 r2 : string) :
  hyphen_free s1 = true → hyphen_free s2 = true →
  s1 +:+ "-" +:+ r1 = s2 +:+ "-" +:+ r2 →
  s1 = s2 ∧ r1 = r2.
Proof.
  revert s2. induction s1 as [|a s1 IH]; intros [|b s2];
    repeat (rewrite append_nil || rewrite append_cons); simpl.
  - intros _ _ [= ->]. done.
  - intros _ [Hb _]%andb_true_iff [= <- _]. discriminate Hb.
  - intros [Ha _]%andb_true_iff _ [= -> _]. discriminate Ha.
  - intros [_ H1]%andb_true_iff [_ H2]%andb_true_iff [= -> Heq].
    destruct (IH s2 H1 H2 Heq) as [-> ->]. done.
Qed.

Lemma voteKey_inj (t1 t2 : N) (rnd1 rnd2 v1 v2 : string) :
  base36 rnd1 = true → base36 rnd2 = true →
  voteKey (_generateId t1 rnd1) v1 = voteKey (_generateId t2 rnd2) v2 →
  _generateId t1 rnd1 = _generateId t2 rnd2 ∧ v1 = v2.
Proof.
  intros H1%base36_hyphen_free H2%base36_hyphen_free.
  unfold voteKey, _generateId.
  rewrite !append_assoc. intros Heq%(inj (String.append "PROP-")).
  apply cut_at_hyphen in Heq as [Ht Heq]; [|apply pretty_N_hyphen_free..].
  apply cut_at_hyphen in Heq as [-> ->]; [|assumption..].
  by rewrite Ht.
Qed.

(** ** Tallies and vote records *)

Lemma recordedPower_insert (s : store) (k : string) (r : VoteRecord.t)
    (pid : string) (P : gmap string Proposal.t) (Ms : gmap string Member.t) :
  votes s !! k = None →
  recordedPower (mkStore P (<[k := r]> (votes s)) Ms) pid
  = if decide (VoteRecord.proposalId r = pid)
    then recordedPower s pid + VoteRecord.power r
    else recordedPower s pid.
Proof.
  intros Hk. unfold recordedPower. simpl.
  rewrite map_fold_insert_L; [reflexivity| |exact Hk].
  intros j1 j2 z1 z2 y _ _ _. repeat case_decide; lia.
Qed.

Lemma recordedPower_none (s : store) (pid : string) :
  (∀ k r, votes s !! k = Some r → VoteRecord.proposalId r ≠ pid) →
  recordedPower s pid = 0.
Proof.
  unfold recordedPower. generalize (votes s). intros V.
  apply (map_fold_weak_ind
    (λ acc (m : gmap string VoteRecord.t),
       (∀ k r, m !! k = Some r → VoteRecord.proposalId r ≠ pid) → acc = 0)).
  - reflexivity.
  - intros k r m acc Hk IH Hall.
    rewrite decide_False by (apply (Hall k), lookup_insert_eq).
    apply IH. intros k' r' Hk'. apply (Hall k').
    rewrite lookup_insert_ne; [exact Hk'|]. congruence.
Qed.

Lemma totalVotes_add (choice : string) (w : Z) (p : Proposal.t) (vs : gset string) :
  valid_choice choice = true →
  totalVotes (Assign.voters vs
                (Assign.votes (votes_add choice w (Proposal.votes p)) p))
  = totalVotes p + w.
Proof.
  unfold valid_choice, votes_add, totalVotes. simpl.
  destruct (String.eqb choice "for"); simpl; [lia|].
  destruct (String.eqb choice "against"); simpl; [lia|].
  destruct (String.eqb choice "abstain"); simpl; [lia|discriminate].
Qed.

Lemma Inv_new_store : Inv new_store.
Proof. split; simpl; intros ? ?; by rewrite lookup_empty. Qed.

Lemma Inv_members (s : store) (Ms : gmap string Member.t) :
  Inv s → Inv (mkStore (proposals s) (votes s) Ms).
Proof. intros [H1 H2 H3]. split; assumption. Qed.

(** Assignments that leave the tallies and the voter set alone. *)
Lemma Inv_with_proposal (s : store) (pid : string) (p p' : Proposal.t) :
  Inv s →
  proposals s !! pid = Some p →
  Proposal.votes p' = Proposal.votes p →
  Proposal.voters p' = Proposal.voters p →
  Inv (with_proposal pid p' s).
Proof.
  intros [Hids Hrec Hsum] Hp Hvotes Hvoters. split; simpl.
  - intros pid1 p1. destruct (decide (pid = pid1)) as [<-|Hne].
    + intros _. by apply (Hids pid p).
    + rewrite lookup_insert_ne by exact Hne. apply Hids.
  - intros k r Hk. destruct (Hrec k r Hk) as (Hkey & q & Hq & Hin).
    split; [exact Hkey|].
    destruct (decide (pid = VoteRecord.proposalId r)) as [Heq|Hne].
    + rewrite <- Heq, lookup_insert_eq. exists p'. split; [reflexivity|].
      rewrite Hvoters. congruence.
    + rewrite lookup_insert_ne by exact Hne. eauto.
  - intros pid1 p1. change (recordedPower (with_proposal pid p' s) pid1)
      with (recordedPower s pid1).
    destruct (decide (pid = pid1)) as [<-|Hne].
    + rewrite lookup_insert_eq. intros [= <-].
      rewrite <- (Hsum pid p Hp). unfold totalVotes. by rewrite Hvotes.
    + rewrite lookup_insert_ne by exact Hne. apply Hsum.
Qed.

Lemma createProposal_Inv (now : N) (rnd : string) (d : ProposalData.t)
    (s : store) :
  base36 rnd = true →
  proposals s !! _generateId now rnd = None →
  Inv s → Inv (createProposal now rnd d s).2.
Proof.
  intros Hrnd Hfresh HI. unfold createProposal. unfold_monad.
  destruct (members s !! ProposalData.proposerId d) as [proposer|]; simpl;
    [|exact HI].
  destruct (toISOString _) as [ends|]; simpl; [|exact HI].
  destruct HI as [Hids Hrec Hsum]. split; simpl.
  - intros pid p. destruct (decide (_generateId now rnd = pid)) as [<-|Hne].
    + intros _. eauto.
    + rewrite lookup_insert_ne by exact Hne. apply Hids.
  - intros k r Hk. destruct (Hrec k r Hk) as (Hkey & q & Hq & Hin).
    split; [exact Hkey|]. exists q. split; [|exact Hin].
    rewrite lookup_insert_ne; [exact Hq|]. congruence.
  - intros pid p.
    match goal with |- context [recordedPower ?s' pid] =>
      change (recordedPower s' pid) with (recordedPower s pid) end.
    destruct (decide (_generateId now rnd = pid)) as [<-|Hne].
    + rewrite lookup_insert_eq. intros [= <-].
      rewrite recordedPower_none; [reflexivity|].
      intros k r Hk Heq. destruct (Hrec k r Hk) as (_ & q & Hq & _).
      congruence.
    + rewrite lookup_insert_ne by exact Hne. apply Hsum.
Qed.

Lemma vote_Inv (now : N) (pid vid choice : string) (s : store) :
  Inv s → Inv (vote now pid vid choice s).2.
Proof.
  intros HI. unfold vote. unfold_monad.
  destruct (proposals s !! pid) as [p|] eqn:Hp; simpl; [|exact HI].
  destruct (bool_decide (Proposal.status p ≠ active)); simpl; [exact HI|].
  destruct (members s !! vid) as [voter|]; simpl; [|exact HI].
  destruct (bool_decide (vid ∈ Proposal.voters p)) eqn:Hdup; simpl;
    [exact HI|].
  apply bool_decide_eq_false in Hdup.
  destruct (Proposal.votingEndsAt p <? Z.of_N now); simpl.
  { by apply (Inv_with_proposal s pid p). }
  destruct (valid_choice choice) eqn:Hch; simpl; [|exact HI].
  assert (Hnew : votes s !! voteKey pid vid = None).
  { destruct (votes s !! voteKey pid vid) as [r|] eqn:Hk; [|reflexivity].
    exfalso. destruct HI as [Hids Hrec _].
    destruct (Hrec _ r Hk) as (Hkey & q & Hq & Hin).
    destruct (Hids pid p Hp) as (t1 & rnd1 & -> & Hb1).
    destruct (Hids _ q Hq) as (t2 & rnd2 & Hid2 & Hb2).
    rewrite Hid2 in Hkey.
    apply voteKey_inj in Hkey as [Hpid Hvid]; [|assumption..].
    rewrite <- Hid2 in Hpid. rewrite <- Hpid in Hq.
    rewrite Hp in Hq. injection Hq as <-. rewrite Hvid in Hdup. done. }
  destruct HI as [Hids Hrec Hsum]. split; simpl.
  - intros pid1 p1. destruct (decide (pid = pid1)) as [<-|Hne].
    + intros _. by apply (Hids pid p).
    + rewrite lookup_insert_ne by exact Hne. apply Hids.
  - intros k r. destruct (decide (voteKey pid vid = k)) as [<-|Hne].
    + rewrite lookup_insert_eq. intros [= <-]. simpl.
      split; [reflexivity|]. rewrite lookup_insert_eq.
      eexists. split; [reflexivity|]. simpl.
      apply elem_of_union. left. by apply elem_of_singleton.
    + rewrite lookup_insert_ne by exact Hne. intros Hk.
      destruct (Hrec k r Hk) as (Hkey & q & Hq & Hin). split; [exact Hkey|].
      destruct (decide (pid = VoteRecord.proposalId r)) as [Heq|Hne'].
      * rewrite <- Heq, lookup_insert_eq. eexists. split; [reflexivity|].
        simpl. rewrite <- Heq, Hp in Hq. injection Hq as <-.
        apply elem_of_union. by right.
      * rewrite lookup_insert_ne by exact Hne'. eauto.
  - intros pid1 p1. rewrite recordedPower_insert by exact Hnew. simpl.
    destruct (decide (pid = pid1)) as [<-|Hne].
    + rewrite lookup_insert_eq. intros [= <-].
      rewrite totalVotes_add by exact Hch. by rewrite (Hsum pid p Hp).
    + rewrite lookup_insert_ne by exact Hne. apply Hsum.
Qed.

Lemma finalize_Inv (now : N) (pid : string) (s : store) :
  Inv s → Inv (finalizeProposal now pid s).2.
Proof.
  intros HI.
  destruct (proposals s !! pid) as [p|] eqn:Hp.
  2:{ unfold finalizeProposal. unfold_monad. by rewrite Hp. }
  destruct (decide (Proposal.status p = active
                    ∨ Proposal.status p = closed)) as [Hopen|Hdone].
  - assert (H1 : Inv (with_proposal pid (decided now s p) s)).
    { by apply (Inv_with_proposal s pid p). }
    rewrite (finalize_open now pid s p Hp Hopen). simpl.
    destruct (quorumMet_at s p && approvalMet_at p);
      [destruct (toISOString _)|]; simpl; [|exact H1..].
    apply (Inv_with_proposal _ pid (decided now s p)); [exact H1| |done..].
    simpl. apply lookup_insert_eq.
  - unfold finalizeProposal. unfold_monad. rewrite Hp. simpl.
    replace (bool_decide (Proposal.status p ≠ active)
             && bool_decide (Proposal.status p ≠ closed)) with true;
      [exact HI|].
    symmetry. apply andb_true_iff.
    split; apply bool_decide_eq_true_2; intros Heq; apply Hdone; auto.
Qed.

Lemma execute_Inv (now : N) (pid : string) (ctx : option payload) (s : store) :
  Inv s → Inv (executeProposal now pid ctx s).2.
Proof.
  intros HI. unfold executeProposal. unfold_monad.
  destruct (proposals s !! pid) as [p|] eqn:Hp; simpl; [|exact HI].
  destruct (bool_decide (Proposal.status p ≠ approved)); simpl; [exact HI|].
  destruct (before _ _); simpl; [exact HI|].
  by apply (Inv_with_proposal s pid p).
Qed.

Lemma step_Inv (s s' : store) : step s s' → Inv s → Inv s'.
Proof.
  destruct 1 as [now c s Hadm]. intros HI.
  destruct c as [d|rnd d|pid vid ch|pid|pid ctx]; simpl in *.
  - by apply (Inv_members s).
  - destruct Hadm as [Hrnd Hfresh]. by apply createProposal_Inv.
  - by apply vote_Inv.
  - by apply finalize_Inv.
  - by apply execute_Inv.
Qed.

Lemma reachable_Inv (s : store) : reachable s → Inv s.
Proof.
  unfold reachable. intros Hreach.
  eapply (rtc_ind_r (R := step) (λ s', Inv s'));
    [apply Inv_new_store| |exact Hreach].
  intros s1 s2 _ Hstep HI. by apply (step_Inv s1).
Qed.


(** ** The scenarios of the specification *)

Example scenario_A :
  let s := run (scenario_setup
                ++ [ (20%N, Vote scenario_id "X" "for");
                     (30%N, Vote scenario_id "Y" "for");
                     (40%N, FinalizeProposal scenario_id) ]) new_store in
  status_of s scenario_id = Some approved
  ∧ Proposal.executionScheduledAt <$> (proposals s !! scenario_id)
    = Some (Some (40 + default_executionDelay)).
Proof. split; vm_compute; reflexivity. Qed.

Example scenario_B :
  let s := run (scenario_setup
                ++ [ (20%N, Vote scenario_id "X" "for");
                     (30%N, Vote scenario_id "Y" "against");
                     (40%N, FinalizeProposal scenario_id) ]) new_store in
  status_of s scenario_id = Some approved
  ∧ Result.approvalRate <$> result_of s scenario_id
    = Some (Fin (inject_Z 100 / inject_Z 150)).
Proof. split; vm_compute; reflexivity. Qed.

Example scenario_C :
  let s := run (scenario_setup
                ++ [ (20%N, Vote scenario_id "X" "for");
                     (40%N, FinalizeProposal scenario_id) ]) new_store in
  status_of s scenario_id = Some approved
  ∧ Result.participationRate <$> result_of s scenario_id
    = Some (Fin (inject_Z 100 / inject_Z 150)).
Proof. split; vm_compute; reflexivity. Qed.

Example scenario_D :
  let s := run (scenario_setup ++ [ (20%N, Vote scenario_id "Y" "for") ])
             new_store in
  vote 30 scenario_id "Y" "against" s = (Throw AlreadyVoted, s)
  ∧ Proposal.votes <$> (proposals s !! scenario_id) = Some (Votes.mk 50 0 0).
Proof. split; vm_compute; reflexivity. Qed.

Example scenario_E :
  let s := run (scenario_setup
                ++ [ (20%N, Vote scenario_id "X" "for");
                     (40%N, FinalizeProposal scenario_id) ]) new_store in
  executeProposal 41 scenario_id None s = (Throw DelayNotElapsed, s).
Proof. vm_compute. reflexivity. Qed.

(** ** The concrete runs are reachable *)

Lemma reachable_s_members : reachable s_members.
Proof.
  eapply rtc_r; [apply rtc_refl|].
  apply (step_exec 1000 (RegisterMember alice) new_store). exact I.
Qed.

Lemma reachable_s_open : reachable s_open.
Proof.
  eapply rtc_r; [apply reachable_s_members|].
  apply (step_exec 1000 (CreateProposal "k3x9" motion) s_members).
  split; [reflexivity|]. vm_compute. reflexivity.
Qed.

Lemma reachable_s_voted : reachable s_voted.
Proof.
  eapply rtc_r; [apply reachable_s_open|].
  apply (step_exec 2000 (Vote motion_id "alice" "for") s_open). exact I.
Qed.


Lemma reachable_s_approved : reachable s_approved.
Proof.
  eapply rtc_r; [apply reachable_s_voted|].
  apply (step_exec 3000 (FinalizeProposal motion_id) s_voted). exact I.
Qed.

Lemma reachable_s_distant_finalized : reachable s_distant_finalized.
Proof.
  eapply rtc_r; [eapply rtc_r; [eapply rtc_r; [apply reachable_s_members|]|]|].
  - apply (step_exec 1000 (CreateProposal "z7q2" distant_motion) s_members).
    split; [reflexivity|]. vm_compute. reflexivity.
  - apply (step_exec 2000 (Vote distant_id "alice" "for")). exact I.
  - apply (step_exec 3000 (FinalizeProposal distant_id) s_distant_voted).
    exact I.
Qed.

(** ** The statements at concrete inputs *)



Lemma only_abstain_not_approved_witness :
  ∃ p' r,
    finalizeProposal 3000 motion_id s_open
    = (Return p', with_proposal motion_id p' s_open)
    ∧ Proposal.result p' = Some r
    ∧ Result.approvalMet r = false
    ∧ Proposal.status p' = rejected.
Proof.
  eapply (only_abstain_not_approved 3000 motion_id s_open).
  - vm_compute. reflexivity.
  - left. reflexivity.
  - reflexivity.
  - reflexivity.
Defined.

Lemma finalize_twice_fails_witness :
  status_of s_approved motion_id = Some approved
  ∧ finalizeProposal 4000 motion_id s_approved
    = (Throw AlreadyFinalized, s_approved)
  ∧ kind_of AlreadyFinalized = Some AlreadyFinalizedError.
Proof.
  split; [vm_compute; reflexivity|].
  eapply (finalize_twice_fails 4000 motion_id s_approved).
  - vm_compute. reflexivity.
  - left. reflexivity.
Defined.

(** C2 as stated fails: after the deadline of the ACTIVE proposal of
    [s_open], a vote by the unregistered "mallory" throws 'Voter not
    registered', which is no VotingClosedError, and the proposal is still
    ACTIVE afterwards. *)
Lemma vote_after_deadline_counterexample :
  status_of s_open motion_id = Some active
  ∧ Proposal.votingEndsAt <$> (proposals s_open !! motion_id)
    = Some 604801000
  ∧ 604801000 < Z.of_N after_voting
  ∧ members s_open !! "mallory" = None
  ∧ vote after_voting motion_id "mallory" "for" s_open
    = (Throw VoterNotRegistered, s_open)
  ∧ kind_of VoterNotRegistered ≠ Some VotingClosedError
  ∧ status_of (vote after_voting motion_id "mallory" "for" s_open).2 motion_id
    = Some active.
Proof.
  repeat split; try (vm_compute; reflexivity).
  discriminate.
Qed.

Lemma vote_after_deadline_witness :
  vote after_voting motion_id "alice" "sideways" s_open
  = (Throw VotingPeriodEnded,
     with_proposal motion_id (Assign.status closed p_open) s_open)
  ∧ kind_of VotingPeriodEnded = Some VotingClosedError
  ∧ status_of (vote after_voting motion_id "alice" "sideways" s_open).2
      motion_id = Some closed.
Proof.
  apply (vote_after_deadline after_voting motion_id "alice" "sideways"
           s_open p_open).
  - vm_compute. reflexivity.
  - reflexivity.
  - vm_compute. reflexivity.
  - vm_compute. eexists. reflexivity.
  - apply not_elem_of_empty.
Defined.

(** C3 as stated fails: after the deadline a vote by the registered
    "alice" throws, and the store it leaves differs from the one it found:
    the proposal went from ACTIVE to CLOSED. *)
Lemma failed_call_counterexample :
  (exec after_voting (Vote motion_id "alice" "for") s_open).1
  = Some VotingPeriodEnded
  ∧ status_of s_open motion_id = Some active
  ∧ status_of (exec after_voting (Vote motion_id "alice" "for") s_open).2
      motion_id = Some closed
  ∧ (exec after_voting (Vote motion_id "alice" "for") s_open).2 ≠ s_open.
Proof.
  split; [vm_compute; reflexivity|].
  split; [vm_compute; reflexivity|].
  split; [vm_compute; reflexivity|].
  intros Heq. apply (f_equal (λ s, status_of s motion_id)) in Heq.
  vm_compute in Heq. discriminate Heq.
Qed.

Lemma failed_call_store_witness :
  (exec 4000 (FinalizeProposal motion_id) s_approved).1 = Some AlreadyFinalized
  ∧ (exec 4000 (FinalizeProposal motion_id) s_approved).2 = s_approved.
Proof.
  assert (H : (exec 4000 (FinalizeProposal motion_id) s_approved).1
              = Some AlreadyFinalized) by (vm_compute; reflexivity).
  split; [exact H|].
  apply (failed_call_store 4000 (FinalizeProposal motion_id) s_approved
           AlreadyFinalized H).
  intros pid _. discriminate.
Defined.

(** C8 as stated fails in its last clause: executing the approved
    proposal of [s_approved] with two different contexts hands the caller
    the same value, [{success: true, proposalId, executedAt}]; the context
    is stored on the proposal and is not part of what is returned. *)
Lemma execute_returns_counterexample :
  mint_context ≠ burn_context
  ∧ (executeProposal after_delay motion_id (Some mint_context) s_approved).1
    = Return (ExecutionReceipt.mk true motion_id (Z.of_N after_delay))
  ∧ (executeProposal after_delay motion_id (Some burn_context) s_approved).1
    = Return (ExecutionReceipt.mk true motion_id (Z.of_N after_delay))
  ∧ Proposal.executionContext <$>
      (proposals
         (executeProposal after_delay motion_id (Some mint_context) s_approved).2
       !! motion_id)
    = Some (Some mint_context).
Proof.
  split; [discriminate|].
  repeat split; vm_compute; reflexivity.
Qed.

Lemma execute_cases_witness :
  ∃ p,
    proposals s_approved !! motion_id = Some p
    ∧ executeProposal after_delay motion_id (Some mint_context) s_approved
      = (Return (ExecutionReceipt.mk true motion_id (Z.of_N after_delay)),
         with_proposal motion_id
           (executed_as after_delay (Some mint_context) p) s_approved)
    ∧ (executeProposal 3000 motion_id (Some mint_context) s_approved).1
      = Throw DelayNotElapsed.
Proof.
  eexists. split; [vm_compute; reflexivity|].
  split.
  - eapply (execute_cases after_delay motion_id mint_context s_approved).
    + vm_compute. reflexivity.
    + reflexivity.
    + intros (t & [= <-] & Hlt). vm_compute in Hlt. discriminate Hlt.
  - eapply (execute_cases 3000 motion_id mint_context s_approved).
    + vm_compute. reflexivity.
    + reflexivity.
    + eexists. split; [reflexivity|]. vm_compute. reflexivity.
Defined.

(** C9 as stated fails: asking the empty store for a member returns
    [undefined]; nothing is thrown. *)
Lemma getMember_counterexample :
  members new_store !! "nobody" = None
  ∧ getMember "nobody" new_store = (Return None, new_store)
  ∧ thrown (getMember "nobody" new_store) = None.
Proof. repeat split. Qed.

Lemma status_never_regresses_witness :
  ∃ p',
    proposals s_approved !! motion_id = Some p'
    ∧ rtc transition active (Proposal.status p')
    ∧ (rank active ≤ rank (Proposal.status p'))%nat.
Proof.
  destruct (status_never_regresses s_open s_approved motion_id p_open)
    as (p' & Hp' & Hrtc & Hrank & _).
  - eapply rtc_l; [|eapply rtc_l; [|apply rtc_refl]].
    + apply (step_exec 2000 (Vote motion_id "alice" "for") s_open). exact I.
    + apply (step_exec 3000 (FinalizeProposal motion_id) s_voted). exact I.
  - vm_compute. reflexivity.
  - exists p'. split; [exact Hp'|]. split; [exact Hrtc|exact Hrank].
Defined.


(** ** Schedules of approved proposals *)

Lemma schedules_with_proposal (s : store) (pid : string) (p' : Proposal.t) :
  schedules_ok s → schedule_ok p' → schedules_ok (with_proposal pid p' s).
Proof.
  intros Hs Hp' pid1 p1. simpl. destruct (decide (pid = pid1)) as [<-|Hne].
  - rewrite lookup_insert_eq. by intros [= <-].
  - rewrite lookup_insert_ne by exact Hne. apply Hs.
Qed.

Lemma schedules_with_proposal_again (s : store) (pid : string)
    (q p' : Proposal.t) :
  schedules_ok s → schedule_ok p' →
  schedules_ok (with_proposal pid p' (with_proposal pid q s)).
Proof.
  intros Hs Hp' pid1 p1. simpl. destruct (decide (pid = pid1)) as [<-|Hne].
  - rewrite lookup_insert_eq. by intros [= <-].
  - rewrite !lookup_insert_ne by exact Hne. apply Hs.
Qed.

Lemma createProposal_schedules (now : N) (rnd : string) (d : ProposalData.t)
    (s : store) :
  schedules_ok s → schedules_ok (createProposal now rnd d s).2.
Proof.
  intros Hs. unfold createProposal. unfold_monad.
  destruct (members s !! ProposalData.proposerId d); simpl; [|exact Hs].
  destruct (toISOString _); simpl; [|exact Hs].
  match goal with |- schedules_ok (mkStore (<[?k := ?q]> _) _ ?Ms) =>
    change (schedules_ok
              (with_proposal k q (mkStore (proposals s) (votes s) Ms)))
  end.
  apply schedules_with_proposal; [exact Hs|]. split; simpl; [done|discriminate].
Qed.

Lemma vote_schedules (now : N) (pid vid choice : string) (s : store) :
  schedules_ok s → schedules_ok (vote now pid vid choice s).2.
Proof.
  intros Hs. unfold vote. unfold_monad.
  destruct (proposals s !! pid) as [p|] eqn:Hp; simpl; [|exact Hs].
  destruct (decide (Proposal.status p = active)) as [Hst|Hst].
  2:{ rewrite bool_decide_eq_true_2 by exact Hst. exact Hs. }
  rewrite bool_decide_eq_false_2 by (intros Hn; exact (Hn Hst)). simpl.
  destruct (members s !! vid) as [voter|]; simpl; [|exact Hs].
  destruct (bool_decide (vid ∈ Proposal.voters p)); simpl; [exact Hs|].
  destruct (Hs pid p Hp) as [Hopen _]. specialize (Hopen (or_introl Hst)).
  destruct (Proposal.votingEndsAt p <? Z.of_N now); simpl.
  - apply (schedules_with_proposal s); [exact Hs|].
    split; simpl; [intros _; exact Hopen|discriminate].
  - destruct (valid_choice choice); simpl; [|exact Hs].
    match goal with |- schedules_ok (mkStore (<[?k := ?q]> _) ?V ?Ms) =>
      change (schedules_ok (with_proposal k q (mkStore (proposals s) V Ms)))
    end.
    apply schedules_with_proposal; [exact Hs|].
    split; simpl; [intros _; exact Hopen|]. rewrite Hst. discriminate.
Qed.

Lemma finalize_schedules (now : N) (pid : string) (s : store) :
  schedules_ok s → schedules_ok (finalizeProposal now pid s).2.
Proof.
  intros Hs.
  destruct (proposals s !! pid) as [p|] eqn:Hp.
  2:{ unfold finalizeProposal. unfold_monad. by rewrite Hp. }
  destruct (decide (Proposal.status p = active
                    ∨ Proposal.status p = closed)) as [Hopen|Hdone].
  - destruct (Hs pid p Hp) as [Hnone _]. specialize (Hnone Hopen).
    rewrite (finalize_open now pid s p Hp Hopen). simpl.
    destruct (quorumMet_at s p && approvalMet_at p) eqn:Hboth;
      [destruct (toISOString _) as [t|e] eqn:Hdate|]; simpl.
    + apply schedules_with_proposal_again; [exact Hs|].
      split; simpl; rewrite Hboth; [intros [?|?]; discriminate|].
      intros _. eexists. split; [reflexivity|]. simpl.
      by rewrite Hdate.
    + apply schedules_with_proposal; [exact Hs|].
      split; simpl; rewrite Hboth; [intros [?|?]; discriminate|].
      intros _. eexists. split; [reflexivity|]. simpl.
      by rewrite Hdate.
    + apply schedules_with_proposal; [exact Hs|].
      split; simpl; rewrite Hboth; [intros [?|?]; discriminate|discriminate].
  - unfold finalizeProposal. unfold_monad. rewrite Hp. simpl.
    replace (bool_decide (Proposal.status p ≠ active)
             && bool_decide (Proposal.status p ≠ closed)) with true;
      [exact Hs|].
    symmetry. apply andb_true_iff.
    split; apply bool_decide_eq_true_2; intros Heq; apply Hdone; auto.
Qed.

Lemma execute_schedules (now : N) (pid : string) (ctx : option payload)
    (s : store) :
  schedules_ok s → schedules_ok (executeProposal now pid ctx s).2.
Proof.
  intros Hs. unfold executeProposal. unfold_monad.
  destruct (proposals s !! pid) as [p|] eqn:Hp; simpl; [|exact Hs].
  destruct (bool_decide (Proposal.status p ≠ approved)); simpl; [exact Hs|].
  destruct (before _ _); simpl; [exact Hs|].
  apply (schedules_with_proposal s); [exact Hs|].
  split; simpl; [intros [?|?]; discriminate|discriminate].
Qed.

(** In every reachable store an approved proposal carries the schedule
    [finalizedAt + executionDelay] whenever that date can be formatted;
    it has none exactly when the conversion threw. *)
Lemma reachable_schedules (s : store) : reachable s → schedules_ok s.
Proof.
  unfold reachable. intros Hreach.
  eapply (rtc_ind_r (R := step) (λ s', schedules_ok s'));
    [|clear s Hreach|exact Hreach].
  - intros pid p. simpl. by rewrite lookup_empty.
  - intros s1 s2 _ [now c s Hadm] Hs.
    destruct c as [d|rnd d|pid vid ch|pid|pid ctx]; simpl.
    + exact Hs.
    + by apply createProposal_schedules.
    + by apply vote_schedules.
    + by apply finalize_schedules.
    + by apply execute_schedules.
Qed.

(** ** An approved proposal without a schedule *)

(** C10 does not hold of the code.  [finalizeProposal] assigns [status]
    and [result] before it formats the execution date.  With the delay of
    [distant_motion] the date is out of range: the call throws a
    RangeError, the proposal stays APPROVED with no [executionScheduledAt],
    and [executeProposal], comparing the clock with [NaN], runs at once. *)
Theorem approved_without_schedule :
  reachable s_distant_finalized
  ∧ (exec 3000 (FinalizeProposal distant_id) s_distant_voted).1
    = Some RangeError_InvalidTime
  ∧ status_of s_distant_finalized distant_id = Some approved
  ∧ Proposal.executionScheduledAt <$>
      (proposals s_distant_finalized !! distant_id) = Some None
  ∧ Proposal.executionDelay <$>
      (proposals s_distant_finalized !! distant_id)
    = Some 9000000000000000
  ∧ (executeProposal 3000 distant_id None s_distant_finalized).1
    = Return (ExecutionReceipt.mk true distant_id 3000).
Proof.
  split; [apply reachable_s_distant_finalized|].
  repeat split; vm_compute; reflexivity.
Qed.

(** ** One call, one assignment *)

Lemma with_proposal_touch (pid0 : string) (p0 p0' : Proposal.t) (s : store)
    (pid : string) (p : Proposal.t) :
  proposals s !! pid0 = Some p0 →
  touch p0 p0' →
  proposals s !! pid = Some p →
  ∃ p', proposals (with_proposal pid0 p0' s) !! pid = Some p' ∧ touch p p'.
Proof.
  intros Hp0 Ht Hp. simpl. destruct (decide (pid0 = pid)) as [->|Hne].
  - rewrite lookup_insert_eq. exists p0'. split; [reflexivity|]. congruence.
  - rewrite lookup_insert_ne by exact Hne. exists p. split; [exact Hp|].
    constructor.
Qed.

Lemma untouched (s s' : store) (pid : string) (p : Proposal.t) :
  proposals s' = proposals s →
  proposals s !! pid = Some p →
  ∃ p', proposals s' !! pid = Some p' ∧ touch p p'.
Proof. intros -> Hp. exists p. split; [exact Hp|constructor]. Qed.

Lemma createProposal_touch (now : N) (rnd : string) (d : ProposalData.t)
    (s : store) (pid : string) (p : Proposal.t) :
  proposals s !! _generateId now rnd = None →
  proposals s !! pid = Some p →
  ∃ p', proposals (createProposal now rnd d s).2 !! pid = Some p' ∧ touch p p'.
Proof.
  intros Hfresh Hp. unfold createProposal. unfold_monad.
  destruct (members s !! ProposalData.proposerId d); simpl;
    [|apply (untouched s s); done].
  destruct (toISOString _); simpl; [|apply (untouched s s); done].
  rewrite lookup_insert_ne by congruence.
  exists p. split; [exact Hp|constructor].
Qed.

Lemma vote_touch (now : N) (pid0 vid choice : string) (s : store)
    (pid : string) (p : Proposal.t) :
  proposals s !! pid = Some p →
  ∃ p', proposals (vote now pid0 vid choice s).2 !! pid = Some p' ∧ touch p p'.
Proof.
  intros Hp. unfold vote. unfold_monad.
  destruct (proposals s !! pid0) as [p0|] eqn:Hp0; simpl;
    [|apply (untouched s s); done].
  destruct (decide (Proposal.status p0 = active)) as [Hst|Hst].
  2:{ rewrite bool_decide_eq_true_2 by exact Hst. simpl.
      apply (untouched s s); done. }
  rewrite bool_decide_eq_false_2 by (intros Hn; exact (Hn Hst)). simpl.
  destruct (members s !! vid) as [voter|]; simpl; [|apply (untouched s s); done].
  destruct (bool_decide (vid ∈ Proposal.voters p0)) eqn:Hdup; simpl;
    [apply (untouched s s); done|].
  apply bool_decide_eq_false in Hdup.
  destruct (Proposal.votingEndsAt p0 <? Z.of_N now); simpl.
  - apply (with_proposal_touch pid0 p0 (Assign.status closed p0) s pid p);
      [exact Hp0|by constructor|exact Hp].
  - destruct (valid_choice choice) eqn:Hch; simpl;
      [|apply (untouched s s); done].
    match goal with |- context [<[pid0 := ?q]> (proposals s)] =>
      apply (with_proposal_touch pid0 p0 q s pid p); [exact Hp0| |exact Hp]
    end.
    by apply touch_ballot.
Qed.

Lemma finalize_touch (now : N) (pid0 : string) (s : store)
    (pid : string) (p : Proposal.t) :
  proposals s !! pid = Some p →
  ∃ p', proposals (finalizeProposal now pid0 s).2 !! pid = Some p'
        ∧ touch p p'.
Proof.
  intros Hp.
  destruct (proposals s !! pid0) as [p0|] eqn:Hp0.
  2:{ unfold finalizeProposal. unfold_monad. rewrite Hp0. simpl.
      apply (untouched s s); done. }
  destruct (decide (Proposal.status p0 = active
                    ∨ Proposal.status p0 = closed)) as [Hopen|Hdone].
  - rewrite (finalize_open now pid0 s p0 Hp0 Hopen). simpl.
    destruct (quorumMet_at s p0 && approvalMet_at p0) eqn:Hboth;
      [destruct (toISOString _)|]; simpl.
    + destruct (decide (pid0 = pid)) as [->|Hne].
      * rewrite lookup_insert_eq. eexists. split; [reflexivity|].
        assert (p0 = p) as -> by congruence.
        apply touch_schedule; [exact Hopen|].
        by rewrite decided_status, Hboth.
      * rewrite !lookup_insert_ne by exact Hne. exists p.
        split; [exact Hp|constructor].
    + apply (with_proposal_touch pid0 p0 _ s pid p);
        [exact Hp0|by apply touch_decide|exact Hp].
    + apply (with_proposal_touch pid0 p0 _ s pid p);
        [exact Hp0|by apply touch_decide|exact Hp].
  - unfold finalizeProposal. unfold_monad. rewrite Hp0. simpl.
    replace (bool_decide (Proposal.status p0 ≠ active)
             && bool_decide (Proposal.status p0 ≠ closed)) with true.
    + simpl. apply (untouched s s); done.
    + symmetry. apply andb_true_iff.
      split; apply bool_decide_eq_true_2; intros Heq; apply Hdone; auto.
Qed.

Lemma execute_touch (now : N) (pid0 : string) (ctx : option payload)
    (s : store) (pid : string) (p : Proposal.t) :
  proposals s !! pid = Some p →
  ∃ p', proposals (executeProposal now pid0 ctx s).2 !! pid = Some p'
        ∧ touch p p'.
Proof.
  intros Hp. unfold executeProposal. unfold_monad.
  destruct (proposals s !! pid0) as [p0|] eqn:Hp0; simpl;
    [|apply (untouched s s); done].
  destruct (decide (Proposal.status p0 = approved)) as [Hst|Hst].
  2:{ rewrite bool_decide_eq_true_2 by exact Hst. simpl.
      apply (untouched s s); done. }
  rewrite bool_decide_eq_false_2 by (intros Hn; exact (Hn Hst)). simpl.
  destruct (before _ _); simpl; [apply (untouched s s); done|].
  apply (with_proposal_touch pid0 p0 (executed_as now ctx p0) s pid p);
    [exact Hp0|by apply touch_execute|exact Hp].
Qed.

(** Every call keeps each stored proposal and makes at most one of the
    assignments of [touch] to it. *)
Lemma step_touch (s s' : store) (pid : string) (p : Proposal.t) :
  step s s' →
  proposals s !! pid = Some p →
  ∃ p', proposals s' !! pid = Some p' ∧ touch p p'.
Proof.
  intros Hstep. revert p. destruct Hstep as [now c s Hadm]. intros p Hp.
  destruct c as [d|rnd d|pid0 vid ch|pid0|pid0 ctx]; simpl in *.
  - apply (untouched s); done.
  - apply createProposal_touch; [apply Hadm|exact Hp].
  - apply vote_touch, Hp.
  - apply finalize_touch, Hp.
  - apply execute_touch, Hp.
Qed.

(** A property of proposals kept by every assignment is kept by every
    sequence of calls. *)
Lemma steps_touch (R : Proposal.t → Proposal.t → Prop) :
  (∀ p, R p p) →
  (∀ p q r, R p q → touch q r → R p r) →
  ∀ s s' pid p,
    rtc step s s' →
    proposals s !! pid = Some p →
    ∃ p', proposals s' !! pid = Some p' ∧ R p p'.
Proof.
  intros Hrefl Hext s s' pid p Hsteps Hp.
  eapply (rtc_ind_r (R := step)
            (λ s', ∃ p', proposals s' !! pid = Some p' ∧ R p p') s);
    [|clear s' Hsteps|exact Hsteps].
  - exists p. split; [exact Hp|apply Hrefl].
  - intros s1 s' _ Hstep (p1 & Hp1 & HR).
    destruct (step_touch s1 s' pid p1 Hstep Hp1) as (p' & Hp' & Ht).
    exists p'. split; [exact Hp'|]. by apply (Hext p p1 p').
Qed.

(** ** What never changes *)

Lemma touch_same_terms (p q : Proposal.t) : touch p q → same_terms p q.
Proof. destruct 1; repeat split. Qed.

Lemma same_terms_trans (p q r : Proposal.t) :
  same_terms p q → same_terms q r → same_terms p r.
Proof.
  unfold same_terms. intros H1 H2.
  destruct H1 as (?&?&?&?&?&?&?&?&?&?&?&?).
  destruct H2 as (?&?&?&?&?&?&?&?&?&?&?&?).
  repeat split; congruence.
Qed.

(** X1: the terms of a proposal are fixed at creation: over any sequence of
    calls its id, title, description, proposer, category, creation and
    voting-window timestamps, execution delay and both thresholds keep the
    values [createProposal] gave them. *)
Theorem terms_never_change (s s' : store) (pid : string) (p : Proposal.t) :
  rtc step s s' →
  proposals s !! pid = Some p →
  ∃ p', proposals s' !! pid = Some p' ∧ same_terms p p'.
Proof.
  apply (steps_touch same_terms).
  - intros q. repeat split.
  - intros q1 q2 q3 H12 H23.
    apply (same_terms_trans q1 q2 q3 H12), touch_same_terms, H23.
Qed.

Lemma touch_settled (p q : Proposal.t) : settled p → touch p q → q = p.
Proof.
  intros Hs Ht. unfold settled in Hs.
  destruct Ht as [p|p Hst|p vid ch w Hst _ _|p now s Hst
                  |p now s t Hst _|p now ctx Hst];
    [reflexivity|status_clash..].
Qed.

(** X2: a REJECTED or EXECUTED proposal is never written to again: whatever is
    called afterwards, the stored object stays exactly as it is. *)
Theorem settled_never_changes (s s' : store) (pid : string) (p : Proposal.t) :
  rtc step s s' →
  proposals s !! pid = Some p →
  settled p →
  proposals s' !! pid = Some p.
Proof.
  intros Hsteps Hp Hs.
  destruct (steps_touch (λ a b, settled a → b = a)
              (λ a _, eq_refl)
              (λ a b c Hab Hbc Ha,
                 eq_trans
                   (touch_settled b c (eq_ind_r settled Ha (Hab Ha)) Hbc)
                   (Hab Ha))
              s s' pid p Hsteps Hp) as (p' & Hp' & Heq).
  by rewrite (Heq Hs) in Hp'.
Qed.

Lemma touch_after_voting (p q : Proposal.t) :
  Proposal.status p ≠ active →
  touch p q →
  Proposal.status q ≠ active
  ∧ Proposal.votes q = Proposal.votes p
  ∧ Proposal.voters q = Proposal.voters p.
Proof.
  intros Hna Ht.
  destruct Ht as [p|p Hst|p vid ch w Hst _ _|p now s Hst
                  |p now s t Hst Happ|p now ctx Hst].
  - done.
  - done.
  - done.
  - split; [|done]. rewrite decided_status. by destruct (_ && _).
  - split; [|done]. simpl in *. by rewrite Happ.
  - done.
Qed.

(** X3: once a proposal has left ACTIVE (closed, finalized or executed) its
    tallies and its voter set are frozen, and it never becomes ACTIVE again. *)
Theorem ballots_frozen_after_voting (s s' : store) (pid : string)
    (p : Proposal.t) :
  rtc step s s' →
  proposals s !! pid = Some p →
  Proposal.status p ≠ active →
  ∃ p', proposals s' !! pid = Some p'
        ∧ Proposal.status p' ≠ active
        ∧ Proposal.votes p' = Proposal.votes p
        ∧ Proposal.voters p' = Proposal.voters p.
Proof.
  intros Hsteps Hp Hna.
  destruct (steps_touch
              (λ a b, Proposal.status a ≠ active →
                      Proposal.status b ≠ active
                      ∧ Proposal.votes b = Proposal.votes a
                      ∧ Proposal.voters b = Proposal.voters a))
    with (s := s) (s' := s') (pid := pid) (p := p)
    as (p' & Hp' & HR); [done| |exact Hsteps|exact Hp|].
  - intros a b c Hab Hbc Ha. destruct (Hab Ha) as (Hb & Hv & Hs).
    destruct (touch_after_voting b c Hb Hbc) as (Hc & Hv' & Hs').
    split; [exact Hc|]. split; congruence.
  - exists p'. split; [exact Hp'|]. by apply HR.
Qed.

Lemma touch_finalized (p q : Proposal.t) :
  finalized p →
  touch p q →
  finalized q
  ∧ Proposal.result q = Proposal.result p
  ∧ Proposal.executionScheduledAt q = Proposal.executionScheduledAt p.
Proof.
  intros Hf Ht. unfold finalized in Hf.
  destruct Ht as [p|p Hst|p vid ch w Hst _ _|p now s Hst
                  |p now s t Hst Happ|p now ctx Hst].
  - done.
  - status_clash.
  - status_clash.
  - status_clash.
  - status_clash.
  - split; [|done]. right. right. reflexivity.
Qed.

(** X4: the verdict is written once: after [finalizeProposal] has set a
    proposal to APPROVED or REJECTED, its [result] and its
    [executionScheduledAt] keep their values for good, and the proposal stays
    finalized. *)
Theorem verdict_written_once (s s' : store) (pid : string) (p : Proposal.t) :
  rtc step s s' →
  proposals s !! pid = Some p →
  finalized p →
  ∃ p', proposals s' !! pid = Some p'
        ∧ finalized p'
        ∧ Proposal.result p' = Proposal.result p
        ∧ Proposal.executionScheduledAt p'
          = Proposal.executionScheduledAt p.
Proof.
  intros Hsteps Hp Hf.
  destruct (steps_touch
              (λ a b, finalized a →
                      finalized b
                      ∧ Proposal.result b = Proposal.result a
                      ∧ Proposal.executionScheduledAt b
                        = Proposal.executionScheduledAt a))
    with (s := s) (s' := s') (pid := pid) (p := p)
    as (p' & Hp' & HR); [done| |exact Hsteps|exact Hp|].
  - intros a b c Hab Hbc Ha. destruct (Hab Ha) as (Hb & Hr & Hs).
    destruct (touch_finalized b c Hb Hbc) as (Hc & Hr' & Hs').
    split; [exact Hc|]. split; congruence.
  - exists p'. split; [exact Hp'|]. by apply HR.
Qed.

(** ** A counted vote *)

Lemma vote_counted (now : N) (pid vid choice : string) (s : store)
    (p : Proposal.t) (voter : Member.t) :
  can_vote now pid vid choice s p voter →
  vote now pid vid choice s
  = (Return (VoteReceipt.mk true pid
               (votes_add choice (Member.votingPower voter) (Proposal.votes p))),
     voted now pid vid choice s p voter).
Proof.
  intros (Hp & Hst & Hv & Hnew & Hopen & Hch).
  unfold vote. unfold_monad. rewrite Hp. simpl. rewrite Hst. simpl.
  rewrite Hv. simpl. rewrite bool_decide_eq_false_2 by exact Hnew. simpl.
  replace (Proposal.votingEndsAt p <? Z.of_N now) with false
    by (symmetry; apply Z.ltb_ge; exact Hopen).
  simpl. rewrite Hch. reflexivity.
Qed.

Lemma vote_returns_inv (now : N) (pid vid choice : string) (s : store) :
  thrown (vote now pid vid choice s) = None →
  ∃ p voter, can_vote now pid vid choice s p voter.
Proof.
  unfold vote. unfold_monad.
  destruct (proposals s !! pid) as [p|] eqn:Hp; simpl; [|discriminate].
  destruct (decide (Proposal.status p = active)) as [Hst|Hst].
  2:{ rewrite bool_decide_eq_true_2 by exact Hst. discriminate. }
  rewrite bool_decide_eq_false_2 by (intros Hn; exact (Hn Hst)). simpl.
  destruct (members s !! vid) as [voter|] eqn:Hv; simpl; [|discriminate].
  destruct (bool_decide (vid ∈ Proposal.voters p)) eqn:Hdup; simpl;
    [discriminate|].
  apply bool_decide_eq_false in Hdup.
  destruct (Proposal.votingEndsAt p <? Z.of_N now) eqn:Hlate; simpl;
    [discriminate|].
  apply Z.ltb_ge in Hlate.
  destruct (valid_choice choice) eqn:Hch; simpl; [|discriminate].
  intros _. exists p, voter. repeat split; assumption.
Qed.


(** ** Members are never removed *)

Lemma step_member_kept (s s' : store) (id : string) :
  step s s' → is_Some (members s !! id) → is_Some (members s' !! id).
Proof.
  destruct 1 as [now c s Hadm]. intros Hm.
  assert (Hins : ∀ k (m : Member.t), is_Some (<[k := m]> (members s) !! id)).
  { intros k m. destruct (decide (k = id)) as [->|Hne].
    - rewrite lookup_insert_eq. eauto.
    - by rewrite lookup_insert_ne. }
  destruct c as [d|rnd d|pid vid ch|pid|pid ctx]; simpl.
  - apply Hins.
  - unfold createProposal. unfold_monad.
    destruct (members s !! ProposalData.proposerId d); simpl; [|exact Hm].
    destruct (toISOString _); simpl; [apply Hins|exact Hm].
  - unfold vote. unfold_monad.
    destruct (proposals s !! pid) as [p|]; simpl; [|exact Hm].
    destruct (bool_decide (Proposal.status p ≠ active)); simpl; [exact Hm|].
    destruct (members s !! vid) as [voter|]; simpl; [|exact Hm].
    destruct (bool_decide (vid ∈ Proposal.voters p)); simpl; [exact Hm|].
    destruct (Proposal.votingEndsAt p <? Z.of_N now); simpl; [exact Hm|].
    destruct (valid_choice ch); simpl; [apply Hins|exact Hm].
  - unfold finalizeProposal. unfold_monad.
    destruct (proposals s !! pid) as [p|]; simpl; [|exact Hm].
    destruct (_ && _); simpl; [exact Hm|].
    match goal with |- context [if ?b then approved else rejected] =>
      destruct b end; simpl; [|exact Hm].
    destruct (toISOString _); simpl; exact Hm.
  - unfold executeProposal. unfold_monad.
    destruct (proposals s !! pid) as [p|]; simpl; [|exact Hm].
    destruct (bool_decide _); simpl; [exact Hm|].
    destruct (before _ _); simpl; exact Hm.
Qed.

Lemma steps_member_kept (s s' : store) (id : string) :
  rtc step s s' → is_Some (members s !! id) → is_Some (members s' !! id).
Proof.
  intros Hsteps Hm.
  eapply (rtc_ind_r (R := step) (λ s', is_Some (members s' !! id)) s);
    [exact Hm| |exact Hsteps].
  intros s1 s2 _ Hstep Hm1. by apply (step_member_kept s1).
Qed.

Lemma touch_voters (p q : Proposal.t) :
  touch p q → Proposal.voters p ⊆ Proposal.voters q.
Proof.
  destruct 1; simpl; try done. apply union_subseteq_r.
Qed.

Lemma steps_voter_kept (s s' : store) (pid vid : string) (p : Proposal.t) :
  rtc step s s' →
  proposals s !! pid = Some p →
  vid ∈ Proposal.voters p →
  ∃ p', proposals s' !! pid = Some p' ∧ vid ∈ Proposal.voters p'.
Proof.
  intros Hsteps Hp Hin.
  destruct (steps_touch (λ a b, Proposal.voters a ⊆ Proposal.voters b))
    with (s := s) (s' := s') (pid := pid) (p := p)
    as (p' & Hp' & Hsub); [done| |exact Hsteps|exact Hp|].
  - intros a b c Hab Hbc. etrans; [exact Hab|]. by apply touch_voters.
  - exists p'. split; [exact Hp'|]. by apply Hsub.
Qed.

(** X6: one vote per member and proposal, for good: once [vote] has counted a
    ballot, every later [vote] of that member on that proposal throws,
    whatever was called in between, whatever the clock and the choice; it
    throws 'Member has already voted on this proposal' while the proposal is
    ACTIVE and 'Voting period has ended for this proposal' afterwards, and
    leaves the store untouched. *)
Theorem one_vote_per_member (now now' : N) (pid vid choice choice' : string)
    (s s' : store) :
  thrown (vote now pid vid choice s) = None →
  rtc step (vote now pid vid choice s).2 s' →
  (vote now' pid vid choice' s' = (Throw AlreadyVoted, s')
   ∧ status_of s' pid = Some active)
  ∨ (vote now' pid vid choice' s' = (Throw VotingEndedForProposal, s')
     ∧ status_of s' pid ≠ Some active).
Proof.
  intros Hok Hsteps.
  destruct (vote_returns_inv now pid vid choice s Hok) as (p & voter & Hcan).
  rewrite (vote_counted now pid vid choice s p voter Hcan) in Hsteps.
  simpl in Hsteps.
  destruct (steps_voter_kept _ s' pid vid
              (with_ballot vid choice (Member.votingPower voter) p) Hsteps)
    as (p' & Hp' & Hin).
  { simpl. apply lookup_insert_eq. }
  { simpl. apply elem_of_union. left. by apply elem_of_singleton. }
  destruct (steps_member_kept _ s' vid Hsteps) as [voter' Hv'].
  { simpl. rewrite lookup_insert_eq. eauto. }
  unfold status_of. rewrite Hp'. simpl.
  unfold vote. unfold_monad. rewrite Hp'. simpl.
  destruct (decide (Proposal.status p' = active)) as [Hst|Hst].
  - left. rewrite bool_decide_eq_false_2 by (intros Hn; exact (Hn Hst)).
    simpl. rewrite Hv'. simpl. rewrite bool_decide_eq_true_2 by exact Hin.
    split; [reflexivity|]. by rewrite Hst.
  - right. rewrite bool_decide_eq_true_2 by exact Hst. split; [reflexivity|].
    intros [= Heq]. contradiction.
Qed.

(** X7: a proposal is executed at most once: after [executeProposal] has
    returned, every later call for that proposal, after any other calls,
    throws 'Only approved proposals can be executed' and changes nothing; the
    context, the execution time and the rest of the proposal stay as the first
    execution left them. *)
Theorem executed_at_most_once (now now' : N) (pid : string)
    (ctx ctx' : option payload) (s s' : store) :
  thrown (executeProposal now pid ctx s) = None →
  rtc step (executeProposal now pid ctx s).2 s' →
  ∃ p, proposals s !! pid = Some p
       ∧ proposals s' !! pid = Some (executed_as now ctx p)
       ∧ executeProposal now' pid ctx' s' = (Throw OnlyApprovedExecutable, s').
Proof.
  intros Hok Hsteps. revert Hok Hsteps.
  unfold executeProposal at 1 2. unfold_monad.
  destruct (proposals s !! pid) as [p|] eqn:Hp; simpl; [|discriminate].
  destruct (bool_decide (Proposal.status p ≠ approved)); simpl;
    [discriminate|].
  destruct (before _ _); simpl; [discriminate|].
  intros _ Hsteps. exists p. split; [reflexivity|].
  assert (Hp' : proposals s' !! pid = Some (executed_as now ctx p)).
  { eapply (steps_touch (λ a b, settled a → b = a)) in Hsteps
      as (p' & Hp' & Heq).
    - rewrite Hp'. f_equal. apply Heq. right. reflexivity.
    - done.
    - intros a b c Hab Hbc Ha. rewrite <- (Hab Ha).
      apply touch_settled; [|exact Hbc]. by rewrite (Hab Ha).
    - simpl. apply lookup_insert_eq. }
  split; [exact Hp'|].
  unfold executeProposal. unfold_monad. rewrite Hp'. reflexivity.
Qed.

(** ** Vote records are written once *)

Lemma vote_key_fresh (s : store) (pid vid : string) (p : Proposal.t) :
  Inv s →
  proposals s !! pid = Some p →
  vid ∉ Proposal.voters p →
  votes s !! voteKey pid vid = None.
Proof.
  intros [Hids Hrec _] Hp Hnew.
  destruct (votes s !! voteKey pid vid) as [r|] eqn:Hk; [|reflexivity].
  exfalso. destruct (Hrec _ r Hk) as (Hkey & q & Hq & Hin).
  destruct (Hids pid p Hp) as (t1 & rnd1 & -> & Hb1).
  destruct (Hids _ q Hq) as (t2 & rnd2 & Hid2 & Hb2).
  rewrite Hid2 in Hkey.
  apply voteKey_inj in Hkey as [Hpid Hvid]; [|assumption..].
  rewrite <- Hid2 in Hpid. rewrite <- Hpid in Hq.
  rewrite Hp in Hq. injection Hq as <-. rewrite Hvid in Hnew. done.
Qed.

Lemma step_record_kept (s s' : store) (k : string) (r : VoteRecord.t) :
  Inv s → step s s' → votes s !! k = Some r → votes s' !! k = Some r.
Proof.
  intros HI Hstep. destruct Hstep as [now c s Hadm]. intros Hk.
  destruct c as [d|rnd d|pid vid ch|pid|pid ctx]; simpl.
  - exact Hk.
  - unfold createProposal. unfold_monad.
    destruct (members s !! ProposalData.proposerId d); simpl; [|exact Hk].
    destruct (toISOString _); simpl; exact Hk.
  - destruct (thrown (vote now pid vid ch s)) as [e|] eqn:Hthrown.
    + pose proof (vote_throw now pid vid ch s e Hthrown) as Hs.
      case_decide; [destruct Hs as (p & _ & ->)|rewrite Hs]; exact Hk.
    + destruct (vote_returns_inv now pid vid ch s Hthrown)
        as (p & voter & Hcan).
      rewrite (vote_counted now pid vid ch s p voter Hcan). simpl.
      destruct Hcan as (Hp & _ & _ & Hnew & _).
      rewrite lookup_insert_ne; [exact Hk|].
      intros <-. rewrite (vote_key_fresh s pid vid p HI Hp Hnew) in Hk.
      discriminate.
  - unfold finalizeProposal. unfold_monad.
    destruct (proposals s !! pid) as [p|]; simpl; [|exact Hk].
    destruct (_ && _); simpl; [exact Hk|].
    match goal with |- context [if ?b then approved else rejected] =>
      destruct b end; simpl; [|exact Hk].
    destruct (toISOString _); simpl; exact Hk.
  - unfold executeProposal. unfold_monad.
    destruct (proposals s !! pid) as [p|]; simpl; [|exact Hk].
    destruct (bool_decide _); simpl; [exact Hk|].
    destruct (before _ _); simpl; exact Hk.
Qed.

(** X8: the vote records are append-only: a record stored in a reachable store
    is found unchanged under the same key after any further calls, so the
    power it holds is the voter's power at cast time whatever happens to the
    member later. *)
Theorem records_written_once (s s' : store) (k : string) (r : VoteRecord.t) :
  reachable s →
  rtc step s s' →
  votes s !! k = Some r →
  votes s' !! k = Some r.
Proof.
  intros Hreach Hsteps Hk.
  cut (reachable s' ∧ votes s' !! k = Some r); [by intros [_ ?]|].
  eapply (rtc_ind_r (R := step)
            (λ s', reachable s' ∧ votes s' !! k = Some r) s);
    [done| |exact Hsteps].
  intros s1 s2 _ Hstep [Hr1 Hk1]. split.
  - eapply rtc_r; eassumption.
  - apply (step_record_kept s1); [by apply reachable_Inv|exact Hstep|exact Hk1].
Qed.

(** ** Voters and records *)

Lemma recordCount_insert (s : store) (k : string) (r : VoteRecord.t)
    (pid : string) (P : gmap string Proposal.t) (Ms : gmap string Member.t) :
  votes s !! k = None →
  recordCount (mkStore P (<[k := r]> (votes s)) Ms) pid
  = if decide (VoteRecord.proposalId r = pid)
    then S (recordCount s pid) else recordCount s pid.
Proof.
  intros Hk. unfold recordCount. simpl.
  rewrite map_fold_insert_L; [reflexivity| |exact Hk].
  intros j1 j2 z1 z2 y _ _ _. by repeat case_decide.
Qed.

Lemma recordCount_none (s : store) (pid : string) :
  (∀ k r, votes s !! k = Some r → VoteRecord.proposalId r ≠ pid) →
  recordCount s pid = 0%nat.
Proof.
  unfold recordCount. generalize (votes s). intros V.
  apply (map_fold_weak_ind
    (λ acc (m : gmap string VoteRecord.t),
       (∀ k r, m !! k = Some r → VoteRecord.proposalId r ≠ pid)
       → acc = 0%nat)).
  - reflexivity.
  - intros k r m acc Hk IH Hall.
    rewrite decide_False by (apply (Hall k), lookup_insert_eq).
    apply IH. intros k' r' Hk'. apply (Hall k').
    rewrite lookup_insert_ne; [exact Hk'|]. congruence.
Qed.

Lemma Ballots_with_proposal (s : store) (pid : string) (p p' : Proposal.t) :
  Ballots s →
  proposals s !! pid = Some p →
  Proposal.voters p' = Proposal.voters p →
  Ballots (with_proposal pid p' s).
Proof.
  intros [Hrec Hcnt] Hp Hvoters. split; simpl.
  - intros pid1 p1 vid. destruct (decide (pid = pid1)) as [<-|Hne].
    + rewrite lookup_insert_eq. intros [= <-]. rewrite Hvoters.
      by apply Hrec.
    + rewrite lookup_insert_ne by exact Hne. apply Hrec.
  - intros pid1 p1.
    change (recordCount (with_proposal pid p' s) pid1)
      with (recordCount s pid1).
    destruct (decide (pid = pid1)) as [<-|Hne].
    + rewrite lookup_insert_eq. intros [= <-]. rewrite Hvoters.
      by apply Hcnt.
    + rewrite lookup_insert_ne by exact Hne. apply Hcnt.
Qed.

Lemma step_Ballots (s s' : store) : step s s' → Inv s → Ballots s → Ballots s'.
Proof.
  destruct 1 as [now c s Hadm]. intros HI HB.
  destruct c as [d|rnd d|pid vid ch|pid|pid ctx]; simpl in *.
  - destruct HB as [Hrec Hcnt]. split; assumption.
  - destruct Hadm as [_ Hfresh]. unfold createProposal. unfold_monad.
    destruct (members s !! ProposalData.proposerId d); simpl; [|exact HB].
    destruct (toISOString _); simpl; [|exact HB].
    destruct HB as [Hrec Hcnt]. split; simpl.
    + intros pid1 p1 vid.
      destruct (decide (_generateId now rnd = pid1)) as [<-|Hne].
      * rewrite lookup_insert_eq. intros [= <-]. simpl.
        intros Hin. by apply not_elem_of_empty in Hin.
      * rewrite lookup_insert_ne by exact Hne. apply Hrec.
    + intros pid1 p1.
      match goal with |- context [recordCount ?s' pid1] =>
        change (recordCount s' pid1) with (recordCount s pid1) end.
      destruct (decide (_generateId now rnd = pid1)) as [<-|Hne].
      * rewrite lookup_insert_eq. intros [= <-].
        rewrite recordCount_none; [apply size_empty|].
        intros k r Hk Heq.
        destruct (inv_records s HI k r Hk) as (_ & q & Hq & _). congruence.
      * rewrite lookup_insert_ne by exact Hne. apply Hcnt.
  - destruct (thrown (vote now pid vid ch s)) as [e|] eqn:Hthrown.
    + pose proof (vote_throw now pid vid ch s e Hthrown) as Hs.
      case_decide; [|by rewrite Hs].
      destruct Hs as (p & Hp & ->). by apply (Ballots_with_proposal s pid p).
    + destruct (vote_returns_inv now pid vid ch s Hthrown)
        as (p & voter & Hcan).
      rewrite (vote_counted now pid vid ch s p voter Hcan). simpl.
      destruct Hcan as (Hp & _ & _ & Hnew & _).
      pose proof (vote_key_fresh s pid vid p HI Hp Hnew) as Hfresh.
      destruct HB as [Hrec Hcnt]. unfold voted. split; simpl.
      * intros pid1 p1 vid1.
        destruct (decide (pid = pid1)) as [<-|Hne].
        -- rewrite lookup_insert_eq. intros [= <-]. simpl.
           intros [Hv%elem_of_singleton|Hv]%elem_of_union.
           ++ subst vid1. rewrite lookup_insert_eq. eauto.
           ++ destruct (Hrec pid p vid1 Hp Hv) as (r & Hr & Hr1 & Hr2).
              exists r. split; [|done].
              rewrite lookup_insert_ne; [exact Hr|]. congruence.
        -- rewrite lookup_insert_ne by exact Hne. intros Hp1 Hv.
           destruct (Hrec pid1 p1 vid1 Hp1 Hv) as (r & Hr & Hr1 & Hr2).
           exists r. split; [|done].
           rewrite lookup_insert_ne; [exact Hr|]. congruence.
      * intros pid1 p1. rewrite recordCount_insert by exact Hfresh. simpl.
        destruct (decide (pid = pid1)) as [<-|Hne].
        -- rewrite lookup_insert_eq. intros [= <-]. simpl.
           rewrite size_union by (apply disjoint_singleton_l; exact Hnew).
           rewrite size_singleton. simpl. f_equal. by apply Hcnt.
        -- rewrite lookup_insert_ne by exact Hne. apply Hcnt.
  - destruct (proposals s !! pid) as [p|] eqn:Hp.
    2:{ unfold finalizeProposal. unfold_monad. by rewrite Hp. }
    destruct (decide (Proposal.status p = active
                      ∨ Proposal.status p = closed)) as [Hopen|Hdone].
    + assert (H1 : Ballots (with_proposal pid (decided now s p) s)).
      { by apply (Ballots_with_proposal s pid p). }
      rewrite (finalize_open now pid s p Hp Hopen). simpl.
      destruct (quorumMet_at s p && approvalMet_at p);
        [destruct (toISOString _)|]; simpl; [|exact H1..].
      apply (Ballots_with_proposal _ pid (decided now s p)); [exact H1| |done].
      simpl. apply lookup_insert_eq.
    + unfold finalizeProposal. unfold_monad. rewrite Hp. simpl.
      replace (bool_decide (Proposal.status p ≠ active)
               && bool_decide (Proposal.status p ≠ closed)) with true;
        [exact HB|].
      symmetry. apply andb_true_iff.
      split; apply bool_decide_eq_true_2; intros Heq; apply Hdone; auto.
  - unfold executeProposal. unfold_monad.
    destruct (proposals s !! pid) as [p|] eqn:Hp; simpl; [|exact HB].
    destruct (bool_decide (Proposal.status p ≠ approved)); simpl; [exact HB|].
    destruct (before _ _); simpl; [exact HB|].
    by apply (Ballots_with_proposal s pid p).
Qed.

Lemma reachable_Ballots (s : store) : reachable s → Ballots s.
Proof.
  unfold reachable. intros Hreach.
  cut (Inv s ∧ Ballots s); [by intros [_ ?]|].
  eapply (rtc_ind_r (R := step) (λ s', Inv s' ∧ Ballots s'));
    [| |exact Hreach].
  - split; [apply Inv_new_store|].
    split; simpl; intros ? ?; by rewrite lookup_empty.
  - intros s1 s2 _ Hstep [HI HB]. split.
    + by apply (step_Inv s1).
    + by apply (step_Ballots s1).
Qed.

(** X9: in every reachable store the voter set of a proposal and its vote
    records match: a member is in the set exactly when the record of the pair
    is stored under [proposalId-voterId], and the number of records of the
    proposal is the size of the set. *)
Theorem voters_match_records (s : store) (pid : string) (p : Proposal.t) :
  reachable s →
  proposals s !! pid = Some p →
  (∀ vid, vid ∈ Proposal.voters p
          ↔ ∃ r, votes s !! voteKey pid vid = Some r
                 ∧ VoteRecord.proposalId r = pid
                 ∧ VoteRecord.voterId r = vid)
  ∧ size (Proposal.voters p) = recordCount s pid.
Proof.
  intros Hreach Hp.
  pose proof (reachable_Inv s Hreach) as HI.
  pose proof (reachable_Ballots s Hreach) as HB.
  split; [|by apply (ballots_counted s HB)].
  intros vid. split.
  - by apply (ballots_recorded s HB).
  - intros (r & Hr & Hpid & Hvid).
    destruct (inv_records s HI _ r Hr) as (_ & q & Hq & Hin).
    rewrite Hpid, Hp in Hq. injection Hq as <-. by rewrite Hvid in Hin.
Qed.

(** ** Registration and the quorum denominator *)

Lemma totalVotingPower_insert (s : store) (id : string) (m : Member.t)
    (P : gmap string Proposal.t) (V : gmap string VoteRecord.t) :
  totalVotingPower (mkStore P V (<[id := m]> (members s)))
  = totalVotingPower s
    - from_option Member.votingPower 0 (members s !! id)
    + Member.votingPower m.
Proof.
  unfold totalVotingPower. simpl.
  assert (Hcomm : ∀ (j1 j2 : string) (z1 z2 : Member.t) (y : Z),
            y + Member.votingPower z2 + Member.votingPower z1
            = y + Member.votingPower z1 + Member.votingPower z2)
    by (intros; lia).
  destruct (members s !! id) as [old|] eqn:Hold; simpl.
  - rewrite (map_fold_delete_L _ _ id old (members s)); [|by auto|exact Hold].
    rewrite <- (insert_delete_eq (members s)).
    rewrite map_fold_insert_L; [lia|by auto|apply lookup_delete_eq].
  - rewrite map_fold_insert_L; [lia|by auto|exact Hold].
Qed.


Lemma totalVotingPower_bump (s : store) (id : string) (m m' : Member.t)
    (P : gmap string Proposal.t) (V : gmap string VoteRecord.t) :
  members s !! id = Some m →
  Member.votingPower m' = Member.votingPower m →
  totalVotingPower (mkStore P V (<[id := m']> (members s)))
  = totalVotingPower s.
Proof.
  intros Hm Hpow. rewrite totalVotingPower_insert, Hm. simpl. lia.
Qed.

(** X11: only registration moves the quorum denominator: creating a proposal,
    voting, finalizing and executing leave the total voting power as it is,
    whether they return or throw (the counters they bump are not part of it). *)
Theorem only_registration_moves_power (now : N) (c : call) (s : store) :
  (∀ d, c ≠ RegisterMember d) →
  totalVotingPower (exec now c s).2 = totalVotingPower s.
Proof.
  intros Hc. destruct c as [d|rnd d|pid vid ch|pid|pid ctx]; simpl.
  - by destruct (Hc d).
  - unfold createProposal. unfold_monad.
    destruct (members s !! ProposalData.proposerId d) as [m|] eqn:Hm; simpl;
      [|reflexivity].
    destruct (toISOString _); simpl; [|reflexivity].
    by apply (totalVotingPower_bump s _ m).
  - unfold vote. unfold_monad.
    destruct (proposals s !! pid) as [p|]; simpl; [|reflexivity].
    destruct (bool_decide (Proposal.status p ≠ active)); simpl; [reflexivity|].
    destruct (members s !! vid) as [voter|] eqn:Hv; simpl; [|reflexivity].
    destruct (bool_decide (vid ∈ Proposal.voters p)); simpl; [reflexivity|].
    destruct (Proposal.votingEndsAt p <? Z.of_N now); simpl; [reflexivity|].
    destruct (valid_choice ch); simpl; [|reflexivity].
    by apply (totalVotingPower_bump s _ voter).
  - unfold finalizeProposal. unfold_monad.
    destruct (proposals s !! pid) as [p|]; simpl; [|reflexivity].
    destruct (_ && _); simpl; [reflexivity|].
    match goal with |- context [if ?b then approved else rejected] =>
      destruct b end; simpl; [|reflexivity].
    destruct (toISOString _); reflexivity.
  - unfold executeProposal. unfold_monad.
    destruct (proposals s !! pid) as [p|]; simpl; [|reflexivity].
    destruct (bool_decide _); simpl; [reflexivity|].
    destruct (before _ _); reflexivity.
Qed.

(** ** createProposal *)

(** X12: [createProposal] throws 'Proposer not found or not registered' for an
    unknown proposer and a RangeError when the end of the voting window is no
    valid date, in both cases before anything is written. Otherwise it stores
    an ACTIVE proposal with zero tallies, no voters, no result and
    [votingEndsAt = now + votingPeriod] under the generated id, bumps the
    proposer's [proposalsCreated], and returns the proposal. *)
Theorem createProposal_cases (now : N) (rnd : string) (d : ProposalData.t)
    (s : store) :
  let ends :=
    Z.of_N now + default default_votingPeriod (ProposalData.votingPeriod d) in
  (members s !! ProposalData.proposerId d = None →
   createProposal now rnd d s = (Throw ProposerNotFound, s))
  ∧ (∀ proposer,
       members s !! ProposalData.proposerId d = Some proposer →
       MAX_TIME < Z.abs ends →
       createProposal now rnd d s = (Throw RangeError_InvalidTime, s))
  ∧ (∀ proposer,
       members s !! ProposalData.proposerId d = Some proposer →
       Z.abs ends ≤ MAX_TIME →
       createProposal now rnd d s
       = (Return (new_proposal now rnd d proposer),
          mkStore
            (<[_generateId now rnd := new_proposal now rnd d proposer]>
               (proposals s))
            (votes s)
            (<[ProposalData.proposerId d :=
                 Assign.proposalsCreated_incr proposer]> (members s)))).
Proof.
  intros ends. unfold createProposal. unfold_monad.
  split; [intros ->; reflexivity|].
  split; intros proposer -> Hends; simpl; unfold toISOString; fold ends.
  - replace (Z.abs ends <=? MAX_TIME) with false
      by (symmetry; apply Z.leb_gt; exact Hends).
    reflexivity.
  - replace (Z.abs ends <=? MAX_TIME) with true
      by (symmetry; apply Z.leb_le; exact Hends).
    reflexivity.
Qed.

(** ** The verdict in numbers *)




(** * The stablecoin ledger: properties *)

Lemma total_of_snoc (ty : transaction_type) (txs : list Transaction.t)
    (tx : Transaction.t) :
  StablecoinManager.total_of ty (txs ++ [tx])
  = StablecoinManager.total_of ty txs
    + (if decide (Transaction.type tx = ty) then Transaction.amount tx else 0).
Proof.
  unfold StablecoinManager.total_of. rewrite filter_app, foldl_app.
  rewrite filter_cons, filter_nil. case_decide; simpl; lia.
Qed.

Lemma minted_snoc (S : gmap string Stablecoin.t) (txs : list Transaction.t)
    (tx : Transaction.t) (id : string) :
  minted (mkLedger S (txs ++ [tx])) id
  = minted (mkLedger S txs) id
    + (if decide (Transaction.stablecoinId tx = id
                  ∧ Transaction.type tx = tx_mint)
       then Transaction.amount tx else 0).
Proof.
  unfold minted. simpl. rewrite filter_app, filter_cons, filter_nil.
  destruct (decide (Transaction.stablecoinId tx = id)) as [Hid|Hid].
  - rewrite total_of_snoc.
    destruct (decide (Transaction.type tx = tx_mint)) as [Ht|Ht];
      [rewrite decide_True by done|rewrite decide_False by (intros [_ ?]; done)];
      reflexivity.
  - rewrite app_nil_r. rewrite decide_False by (intros [? _]; done). lia.
Qed.

Lemma burned_snoc (S : gmap string Stablecoin.t) (txs : list Transaction.t)
    (tx : Transaction.t) (id : string) :
  burned (mkLedger S (txs ++ [tx])) id
  = burned (mkLedger S txs) id
    + (if decide (Transaction.stablecoinId tx = id
                  ∧ Transaction.type tx = tx_burn)
       then Transaction.amount tx else 0).
Proof.
  unfold burned. simpl. rewrite filter_app, filter_cons, filter_nil.
  destruct (decide (Transaction.stablecoinId tx = id)) as [Hid|Hid].
  - rewrite total_of_snoc.
    destruct (decide (Transaction.type tx = tx_burn)) as [Ht|Ht];
      [rewrite decide_True by done|rewrite decide_False by (intros [_ ?]; done)];
      reflexivity.
  - rewrite app_nil_r. rewrite decide_False by (intros [? _]; done). lia.
Qed.

(** ** Failing calls and the log *)

(** X14: a ledger call that throws has changed nothing, neither a stablecoin
    nor the log. A call that returns appends exactly one transaction when it
    is a mint, a burn or a transfer, and none when it creates a stablecoin;
    the earlier entries of the log are never touched. *)
Theorem ledger_call_effect (now : N) (c : ledger_call) (l : ledger) :
  match (ledger_exec now c l).1 with
  | Some _ => (ledger_exec now c l).2 = l
  | None =>
      match c with
      | CreateStablecoin _ _ =>
          transactions (ledger_exec now c l).2 = transactions l
      | _ =>
          ∃ tx, transactions (ledger_exec now c l).2
                = (transactions l ++ [tx])%list
      end
  end.
Proof.
  destruct c as [rnd cfg|rnd id amount auth|rnd id amount auth
                 |rnd id from to amount]; simpl.
  - reflexivity.
  - unfold StablecoinManager.mint.
    destruct (stablecoins l !! id); simpl; [|reflexivity].
    destruct (StablecoinManager._verifyAuthorization auth); simpl;
      [eauto|reflexivity].
  - unfold StablecoinManager.burn.
    destruct (stablecoins l !! id) as [c|]; simpl; [|reflexivity].
    destruct (Stablecoin.circulatingSupply c <? amount); simpl; [reflexivity|].
    destruct (StablecoinManager._verifyAuthorization auth); simpl;
      [eauto|reflexivity].
  - unfold StablecoinManager.transfer.
    destruct (stablecoins l !! id); simpl; [eauto|reflexivity].
Qed.

Lemma ledger_exec_log (now : N) (c : ledger_call) (l : ledger) :
  transactions l `prefix_of` transactions (ledger_exec now c l).2.
Proof.
  destruct c as [rnd cfg|rnd id amount auth|rnd id amount auth
                 |rnd id from to amount]; simpl.
  - reflexivity.
  - unfold StablecoinManager.mint.
    destruct (stablecoins l !! id); simpl; [|reflexivity].
    destruct (StablecoinManager._verifyAuthorization auth); simpl;
      [by eexists|reflexivity].
  - unfold StablecoinManager.burn.
    destruct (stablecoins l !! id) as [c|]; simpl; [|reflexivity].
    destruct (Stablecoin.circulatingSupply c <? amount); simpl; [reflexivity|].
    destruct (StablecoinManager._verifyAuthorization auth); simpl;
      [by eexists|reflexivity].
  - unfold StablecoinManager.transfer.
    destruct (stablecoins l !! id); simpl; [by eexists|reflexivity].
Qed.

(** X15: the transaction log is append-only: whatever is called, the log of
    before is a prefix of the log of after. *)
Theorem log_append_only (trace : list (N * ledger_call)) (l : ledger) :
  transactions l `prefix_of` transactions (ledger_run trace l).
Proof.
  revert l. induction trace as [|[now c] rest IH]; intros l; simpl.
  - reflexivity.
  - etrans; [apply (ledger_exec_log now c)|apply IH].
Qed.

(** ** Reserves *)

Lemma ledger_exec_backed (now : N) (c : ledger_call) (l : ledger) :
  backed l → backed (ledger_exec now c l).2.
Proof.
  intros Hb.
  assert (Hins : ∀ k c', Reserves.amount (Stablecoin.reserves c')
                         = Stablecoin.totalSupply c' →
            ∀ txs, backed (mkLedger (<[k := c']> (stablecoins l)) txs)).
  { intros k c' Hc' txs id c0. simpl.
    destruct (decide (k = id)) as [->|Hne].
    - rewrite lookup_insert_eq. by intros [= <-].
    - rewrite lookup_insert_ne by exact Hne. apply Hb. }
  destruct c as [rnd cfg|rnd id amount auth|rnd id amount auth
                 |rnd id from to amount]; simpl.
  - by apply Hins.
  - unfold StablecoinManager.mint.
    destruct (stablecoins l !! id) as [c|] eqn:Hc; simpl; [|exact Hb].
    destruct (StablecoinManager._verifyAuthorization auth); simpl; [|exact Hb].
    apply Hins. simpl. by rewrite (Hb id c Hc).
  - unfold StablecoinManager.burn.
    destruct (stablecoins l !! id) as [c|] eqn:Hc; simpl; [|exact Hb].
    destruct (Stablecoin.circulatingSupply c <? amount); simpl; [exact Hb|].
    destruct (StablecoinManager._verifyAuthorization auth); simpl; [|exact Hb].
    apply Hins. simpl. by rewrite (Hb id c Hc).
  - unfold StablecoinManager.transfer.
    destruct (stablecoins l !! id); simpl; exact Hb.
Qed.

Lemma ledger_run_backed (trace : list (N * ledger_call)) (l : ledger) :
  backed l → backed (ledger_run trace l).
Proof.
  revert l. induction trace as [|[now c] rest IH]; intros l Hb; simpl.
  - exact Hb.
  - by apply IH, ledger_exec_backed.
Qed.

(** X16: after any sequence of calls on a new ledger, [getReserveStatus]
    reports every stablecoin as fully backed, with reserves equal to the total
    supply: [mint] and [burn] move both by the same amount. The reserve ratio
    it reports is 1, except for a stablecoin whose supply is 0, where it is
    0/0 = NaN. *)
Theorem reserves_always_match (trace : list (N * ledger_call)) (id : string)
    (st : ReserveStatus.t) (l' : ledger) :
  StablecoinManager.getReserveStatus id (ledger_run trace new_ledger)
  = (Ok st, l') →
  l' = ledger_run trace new_ledger
  ∧ Reserves.amount (ReserveStatus.reserves st) = ReserveStatus.totalSupply st
  ∧ ReserveStatus.isFullyBacked st = true
  ∧ (ReserveStatus.totalSupply st = 0 → ReserveStatus.reserveRatio st = NaN)
  ∧ (ReserveStatus.totalSupply st ≠ 0 →
     ∃ q, ReserveStatus.reserveRatio st = Fin q ∧ (q == 1)%Q).
Proof.
  unfold StablecoinManager.getReserveStatus.
  destruct (stablecoins (ledger_run trace new_ledger) !! id) as [c|] eqn:Hc;
    [|discriminate].
  intros [= <- <-]. simpl.
  assert (Hb : Reserves.amount (Stablecoin.reserves c)
               = Stablecoin.totalSupply c).
  { apply (ledger_run_backed trace new_ledger) with (id := id); [|exact Hc].
    intros ? ?. simpl. by rewrite lookup_empty. }
  split; [reflexivity|]. split; [exact Hb|]. rewrite Hb.
  split; [apply Z.leb_refl|]. unfold js_div. split.
  - intros ->. reflexivity.
  - intros Hne. rewrite (proj2 (Z.eqb_neq _ _) Hne).
    eexists. split; [reflexivity|]. apply Qmult_inv_r.
    intros Hz. apply Hne. by apply (inject_Z_injective _ 0).
Qed.

(** ** mint and burn *)

(** X17: [mint] returns exactly when the stablecoin exists and the
    authorization carries at least one signature; a missing authorization,
    missing signatures or an empty list give 'Unauthorized minting operation'.
    It then raises total supply, circulating supply and reserves by the
    amount, whatever its sign, logs the mint and reports the new total supply
    together with the logged transaction. *)
Theorem mint_cases (now : N) (rnd id : string) (amount : Z)
    (auth : option Authorization.t) (l : ledger) :
  (stablecoins l !! id = None →
   StablecoinManager.mint now rnd id amount auth l = (Err StablecoinNotFound, l))
  ∧ (is_Some (stablecoins l !! id) →
     StablecoinManager._verifyAuthorization auth = false →
     StablecoinManager.mint now rnd id amount auth l = (Err UnauthorizedMint, l))
  ∧ (∀ c sigs,
       stablecoins l !! id = Some c →
       auth = Some (Authorization.mk (Some sigs)) →
       sigs ≠ [] →
       ∃ tx,
         StablecoinManager.mint now rnd id amount auth l
         = (Ok (MintReceipt.mk true (Stablecoin.totalSupply c + amount)
                  (Some tx)),
            mkLedger
              (<[id := StablecoinManager.supply_add amount c]> (stablecoins l))
              (transactions l ++ [tx]))
         ∧ Transaction.type tx = tx_mint
         ∧ Transaction.stablecoinId tx = id
         ∧ Transaction.amount tx = amount
         ∧ Transaction.authorization tx = auth).
Proof.
  unfold StablecoinManager.mint. split; [intros ->; reflexivity|].
  split.
  - intros [c ->] ->. reflexivity.
  - intros c sigs -> -> Hsigs. simpl.
    replace (0 <? length sigs)%nat with true
      by (symmetry; apply Nat.ltb_lt; destruct sigs; [done|simpl; lia]).
    simpl. eexists. rewrite last_snoc. repeat split.
Qed.


(** ** transfer *)

(** X19: [transfer] validates nothing but the existence of the stablecoin: it
    returns for every sender, recipient and amount, changes no supply and no
    reserve, and only adds a transfer to the log; the minted and burned totals
    of every stablecoin stay as they are. *)
Theorem transfer_moves_nothing (now : N) (rnd id from to : string) (amount : Z)
    (l : ledger) :
  is_Some (stablecoins l !! id) →
  ∃ tx,
    StablecoinManager.transfer now rnd id from to amount l
    = (Ok (TransferReceipt.mk true (Some (Transaction.id tx))),
       mkLedger (stablecoins l) (transactions l ++ [tx]))
    ∧ Transaction.type tx = tx_transfer
    ∧ Transaction.from tx = Some from
    ∧ Transaction.to tx = Some to
    ∧ Transaction.amount tx = amount
    ∧ ∀ id', minted (mkLedger (stablecoins l) (transactions l ++ [tx])) id'
             = minted l id'
             ∧ burned (mkLedger (stablecoins l) (transactions l ++ [tx])) id'
               = burned l id'.
Proof.
  intros [c Hc]. unfold StablecoinManager.transfer. rewrite Hc. simpl.
  exists (Transaction.mk tx_transfer id amount (Z.of_N now) None (Some from)
            (Some to) ("TX-" +:+ pretty now +:+ "-" +:+ rnd)).
  rewrite last_snoc. simpl. split; [reflexivity|].
  repeat split.
  - rewrite minted_snoc. simpl.
    rewrite decide_False by (intros [_ ?]; done). destruct l; simpl. lia.
  - rewrite burned_snoc. simpl.
    rewrite decide_False by (intros [_ ?]; done). destruct l; simpl. lia.
Qed.

(** ** The books balance *)






(** ** Supplies over a run *)

Lemma ledger_exec_solvent (now : N) (c : ledger_call) (l : ledger) :
  no_negative_mint c → solvent l → solvent (ledger_exec now c l).2.
Proof.
  intros Hc Hs.
  assert (Hins : ∀ k c', 0 ≤ Stablecoin.circulatingSupply c' →
            ∀ txs, solvent (mkLedger (<[k := c']> (stablecoins l)) txs)).
  { intros k c' Hc' txs id c0. simpl.
    destruct (decide (k = id)) as [->|Hne].
    - rewrite lookup_insert_eq. by intros [= <-].
    - rewrite lookup_insert_ne by exact Hne. apply Hs. }
  destruct c as [rnd cfg|rnd id amount auth|rnd id amount auth
                 |rnd id from to amount]; simpl in *.
  - by apply Hins.
  - unfold StablecoinManager.mint.
    destruct (stablecoins l !! id) as [c|] eqn:Hl; simpl; [|exact Hs].
    destruct (StablecoinManager._verifyAuthorization auth); simpl; [|exact Hs].
    apply Hins. simpl. pose proof (Hs id c Hl). lia.
  - unfold StablecoinManager.burn.
    destruct (stablecoins l !! id) as [c|] eqn:Hl; simpl; [|exact Hs].
    destruct (Stablecoin.circulatingSupply c <? amount) eqn:Hlt; simpl;
      [exact Hs|].
    destruct (StablecoinManager._verifyAuthorization auth); simpl; [|exact Hs].
    apply Hins. simpl. apply Z.ltb_ge in Hlt. lia.
  - unfold StablecoinManager.transfer.
    destruct (stablecoins l !! id); simpl; exact Hs.
Qed.

(** X21: no circulating supply ever goes below zero, provided no mint is made
    with a negative amount: [burn] refuses any amount above what circulates.
    ([mint] itself accepts negative amounts.) *)
Theorem supply_never_negative (trace : list (N * ledger_call)) (id : string)
    (c : Stablecoin.t) :
  Forall (λ x, no_negative_mint x.2) trace →
  stablecoins (ledger_run trace new_ledger) !! id = Some c →
  0 ≤ Stablecoin.circulatingSupply c.
Proof.
  intros Hall.
  cut (solvent (ledger_run trace new_ledger)); [intros Hs; apply Hs|].
  assert (H0 : solvent new_ledger).
  { intros ? ?. simpl. by rewrite lookup_empty. }
  revert H0. generalize new_ledger.
  induction Hall as [|[now c0] rest Hc _ IH]; intros l Hs; simpl.
  - exact Hs.
  - apply IH. by apply ledger_exec_solvent.
Qed.





(** * The rate limiter: properties *)

Lemma checkRateLimit_requests (now : N) (u u' : string)
    (rl : gmap string (list Z)) :
  default [] ((if decide (is_Some (rl !! u)) then rl
               else <[u := []]> rl) !! u')
  = default [] (rl !! u').
Proof.
  case_decide as Hu; [reflexivity|].
  destruct (decide (u = u')) as [<-|Hne].
  - rewrite lookup_insert_eq. simpl.
    destruct (rl !! u) eqn:E; [|reflexivity]. exfalso. apply Hu. eauto.
  - by rewrite lookup_insert_ne.
Qed.

(** A refused request: the table is as it was, and the user was known. *)
Lemma checkRateLimit_refused (now : N) (u : string)
    (rl : gmap string (list Z)) (e : gateway_error) :
  (_checkRateLimit now u rl).1 = Some e →
  (_checkRateLimit now u rl).2 = rl ∧ is_Some (rl !! u).
Proof.
  unfold _checkRateLimit.
  pose proof (checkRateLimit_requests now u u rl) as Hreq. simpl in Hreq.
  rewrite Hreq.
  destruct (maxRequests <=? length _)%nat eqn:Hfull; simpl; [|discriminate].
  intros _. case_decide as Hu; [done|]. exfalso.
  destruct (rl !! u) eqn:E; [apply Hu; eauto|]. simpl in Hfull.
  discriminate Hfull.
Qed.

(** A request let through: the user's list is the recent entries followed
    by [now], and the lists of the other users read as before. *)
Lemma checkRateLimit_served (now : N) (u : string)
    (rl : gmap string (list Z)) :
  (_checkRateLimit now u rl).1 = None →
  (_checkRateLimit now u rl).2 !! u
  = Some (filter (λ time, Z.of_N now - time < windowMs)
            (default [] (rl !! u)) ++ [Z.of_N now])%list
  ∧ ∀ u', u' ≠ u →
      default [] ((_checkRateLimit now u rl).2 !! u')
      = default [] (rl !! u').
Proof.
  unfold _checkRateLimit.
  pose proof (checkRateLimit_requests now u u rl) as Hreq. simpl in Hreq.
  rewrite Hreq.
  destruct (maxRequests <=? length _)%nat eqn:Hfull; simpl; [discriminate|].
  intros _. rewrite lookup_insert_eq. split; [reflexivity|]. intros u' Hne.
  rewrite lookup_insert_ne by done.
  apply (checkRateLimit_requests now u u' rl).
Qed.

(** X23: a request over the limit leaves the table exactly as it was, and is
    never the first request of a user; a request let through becomes the
    newest entry of that user's list, after the entries of the last minute. *)
Theorem checkRateLimit_effect (now : N) (u : string)
    (rl : gmap string (list Z)) :
  match (_checkRateLimit now u rl).1 with
  | Some _ =>
      (_checkRateLimit now u rl).2 = rl ∧ is_Some (rl !! u)
  | None =>
      (_checkRateLimit now u rl).2 !! u
      = Some (filter (λ time, Z.of_N now - time < windowMs)
                (default [] (rl !! u)) ++ [Z.of_N now])%list
      ∧ ∀ u', u' ≠ u →
          default [] ((_checkRateLimit now u rl).2 !! u')
          = default [] (rl !! u')
  end.
Proof.
  destruct (_checkRateLimit now u rl).1 as [e|] eqn:Hres.
  - exact (checkRateLimit_refused now u rl e Hres).
  - exact (checkRateLimit_served now u rl Hres).
Qed.

Lemma checkRateLimit_bounded (now : N) (u : string)
    (rl : gmap string (list Z)) :
  (∀ u' lst, rl !! u' = Some lst → (length lst ≤ maxRequests)%nat) →
  ∀ u' lst, (_checkRateLimit now u rl).2 !! u' = Some lst →
            (length lst ≤ maxRequests)%nat.
Proof.
  intros Hb u' lst. unfold _checkRateLimit.
  pose proof (checkRateLimit_requests now u u rl) as Hreq. simpl in Hreq.
  rewrite Hreq.
  assert (Hb1 : ∀ lst',
            (if decide (is_Some (rl !! u)) then rl else <[u := []]> rl) !! u'
            = Some lst' → (length lst' ≤ maxRequests)%nat).
  { intros lst'. case_decide; [apply Hb|].
    destruct (decide (u = u')) as [<-|Hne].
    - rewrite lookup_insert_eq. intros [= <-]. simpl. unfold maxRequests. lia.
    - rewrite lookup_insert_ne by done. apply Hb. }
  destruct (maxRequests <=? length _)%nat eqn:Hfull; simpl; [apply Hb1|].
  destruct (decide (u = u')) as [<-|Hne].
  - rewrite lookup_insert_eq. intros [= <-]. rewrite length_app. simpl.
    apply Nat.leb_gt in Hfull. lia.
  - rewrite lookup_insert_ne by done. apply Hb1.
Qed.

(** X24: however the checks come and whatever the clock does, no user's list
    ever holds more than [maxRequests] = 100 entries. *)
Theorem rate_table_bounded (trace : list (N * string)) (u : string)
    (lst : list Z) :
  (limiter_run trace ∅ []).1 !! u = Some lst →
  (length lst ≤ maxRequests)%nat.
Proof.
  cut (∀ rl served,
         (∀ u' l', rl !! u' = Some l' → (length l' ≤ maxRequests)%nat) →
         ∀ u' l', (limiter_run trace rl served).1 !! u' = Some l' →
                  (length l' ≤ maxRequests)%nat).
  { intros H. apply (H ∅ []). intros ? ?. by rewrite lookup_empty. }
  induction trace as [|[now u0] rest IH]; intros rl served Hb; simpl.
  - exact Hb.
  - apply IH. by apply checkRateLimit_bounded.
Qed.

Lemma filter_filter_weaker {A : Type} (P Q : A → Prop)
    `{∀ x, Decision (P x)} `{∀ x, Decision (Q x)} (l : list A) :
  (∀ x, x ∈ l → P x → Q x) →
  filter P (filter Q l) = filter P l.
Proof.
  induction l as [|x l IH]; intros Himp; [reflexivity|].
  rewrite !filter_cons.
  assert (IH' : filter P (filter Q l) = filter P l).
  { apply IH. intros y Hy. apply Himp. by right. }
  destruct (decide (Q x)) as [HQ|HQ].
  - rewrite filter_cons. by rewrite IH'.
  - rewrite decide_False; [exact IH'|].
    intros HP. apply HQ, Himp; [by left|exact HP].
Qed.

Lemma times_of_snoc (u : string) (served : list (N * string)) (x : N * string) :
  times_of u (served ++ [x])%list
  = (times_of u served ++ (if decide (x.2 = u) then [Z.of_N x.1] else []))%list.
Proof.
  unfold times_of. rewrite filter_app, fmap_app. f_equal.
  rewrite filter_cons, filter_nil. by case_decide.
Qed.

Lemma times_of_bound (u : string) (served : list (N * string)) (tmax t : Z) :
  (∀ x, x ∈ served → Z.of_N x.1 ≤ tmax) →
  t ∈ times_of u served → t ≤ tmax.
Proof.
  intros Hb. unfold times_of.
  intros (x & -> & Hx%list_elem_of_filter)%list_elem_of_fmap.
  apply Hb. apply Hx.
Qed.

Lemma last_time_bound (u : string) (served : list (N * string)) (tmax : Z) :
  0 ≤ tmax →
  (∀ x, x ∈ served → Z.of_N x.1 ≤ tmax) →
  default 0 (last (times_of u served)) ≤ tmax.
Proof.
  intros H0 Hb. destruct (last (times_of u served)) as [t|] eqn:Hl; simpl;
    [|exact H0].
  apply (times_of_bound u served); [exact Hb|].
  apply last_Some in Hl as [l' ->]. apply elem_of_app. right. by left.
Qed.

(** What the check at [now] sees of a tracked table. *)
Lemma tracks_recent (rl : gmap string (list Z)) (served : list (N * string))
    (tmax : Z) (now : N) (u : string) :
  0 ≤ tmax →
  tracks rl served tmax →
  tmax ≤ Z.of_N now →
  filter (λ time, Z.of_N now - time < windowMs) (default [] (rl !! u))
  = in_window now u served.
Proof.
  intros H0 [Hb Ht] Hnow. rewrite Ht. unfold in_window.
  apply filter_filter_weaker. intros t Hin Hrecent.
  pose proof (last_time_bound u served tmax H0 Hb). lia.
Qed.

Lemma checkRateLimit_tracks (rl : gmap string (list Z))
    (served : list (N * string)) (tmax : Z) (now : N) (u : string) :
  0 ≤ tmax →
  tracks rl served tmax →
  tmax ≤ Z.of_N now →
  tracks (_checkRateLimit now u rl).2
    (match (_checkRateLimit now u rl).1 with
     | None => (served ++ [(now, u)])%list
     | Some _ => served
     end)
    (Z.of_N now).
Proof.
  intros H0 Htr Hnow.
  pose proof (tracks_recent rl served tmax now u H0 Htr Hnow) as Hrecent.
  destruct Htr as [Hb Ht].
  destruct (_checkRateLimit now u rl).1 as [e|] eqn:Hres.
  - destruct (checkRateLimit_refused now u rl e Hres) as [-> _].
    split; [|exact Ht].
    intros x Hx. specialize (Hb x Hx). lia.
  - destruct (checkRateLimit_served now u rl Hres) as [Hu Hother]. split.
    + intros x [Hx|Hx%list_elem_of_singleton]%elem_of_app.
      * specialize (Hb x Hx). lia.
      * subst x. simpl. lia.
    + intros u'. rewrite times_of_snoc. simpl.
      destruct (decide (u = u')) as [<-|Hne].
      * rewrite Hu. simpl. rewrite Hrecent, last_snoc. simpl.
        rewrite filter_app, filter_cons, filter_nil.
        rewrite decide_True by (unfold windowMs; lia).
        reflexivity.
      * rewrite app_nil_r, Hother by done. apply Ht.
Qed.

Lemma limiter_run_tracks (trace : list (N * string))
    (rl : gmap string (list Z)) (served : list (N * string)) (tmax : Z)
    (now : N) (u : string) :
  0 ≤ tmax →
  tracks rl served tmax →
  clock_ok tmax (trace ++ [(now, u)])%list →
  ∃ tmax', 0 ≤ tmax' ∧ tmax' ≤ Z.of_N now
           ∧ tracks (limiter_run trace rl served).1
               (limiter_run trace rl served).2 tmax'.
Proof.
  revert rl served tmax.
  induction trace as [|[now0 u0] rest IH]; intros rl served tmax H0 Htr Hok;
    simpl in *.
  - exists tmax. split; [exact H0|]. split; [apply Hok|exact Htr].
  - destruct Hok as [Hle Hrest].
    apply (IH _ _ (Z.of_N now0)); [lia| |exact Hrest].
    by apply (checkRateLimit_tracks rl served tmax).
Qed.

(** X25: the limiter is a sliding window: when the clock readings of the
    checks do not go back, a request is refused exactly when 100 or more
    requests of the same user were let through less than a minute before it.
    Refused requests do not count. *)
Theorem rate_limit_window (trace : list (N * string)) (now : N) (u : string) :
  clock_ok 0 (trace ++ [(now, u)])%list →
  (_checkRateLimit now u (limiter_run trace ∅ []).1).1
  = Some RateLimitExceeded
  ↔ (maxRequests ≤ length (in_window now u (limiter_run trace ∅ []).2))%nat.
Proof.
  intros Hok.
  destruct (limiter_run_tracks trace ∅ [] 0 now u) as (tmax & H0 & Hle & Htr);
    [lia| |exact Hok|].
  { split; [intros x Hx; by apply not_elem_of_nil in Hx|].
    intros u'. by rewrite lookup_empty. }
  pose proof (tracks_recent _ _ tmax now u H0 Htr Hle) as Hrecent.
  unfold _checkRateLimit.
  pose proof (checkRateLimit_requests now u u (limiter_run trace ∅ []).1)
    as Hreq.
  simpl in Hreq. rewrite Hreq, Hrecent.
  destruct (maxRequests <=? length _)%nat eqn:Hfull; simpl.
  - apply Nat.leb_le in Hfull. done.
  - apply Nat.leb_gt in Hfull. split; [discriminate|lia].
Qed.

(** * Staking: properties *)

Lemma alist_get_set_eq {A : Type} (k : string) (v : A)
    (l : list (string * A)) :
  alist_get k (alist_set k v l) = Some v.
Proof.
  induction l as [|[k' v'] l IH]; simpl.
  - by rewrite decide_True.
  - destruct (decide (k' = k)) as [->|Hne]; simpl.
    + by rewrite decide_True.
    + by rewrite decide_False.
Qed.

Lemma alist_get_set_ne {A : Type} (k k0 : string) (v : A)
    (l : list (string * A)) :
  k ≠ k0 → alist_get k0 (alist_set k v l) = alist_get k0 l.
Proof.
  intros Hne. induction l as [|[k' v'] l IH]; simpl.
  - by rewrite decide_False.
  - destruct (decide (k' = k)) as [->|Hne']; simpl.
    + by rewrite !decide_False.
    + destruct (decide (k' = k0)); [reflexivity|exact IH].
Qed.

Lemma alist_get_fmap {A : Type} (f : string * A → A) (k : string)
    (l : list (string * A)) :
  alist_get k ((λ kv, (kv.1, f kv)) <$> l)
  = (λ v, f (k, v)) <$> alist_get k l.
Proof.
  induction l as [|[k' v'] l IH]; simpl; [reflexivity|].
  destruct (decide (k' = k)) as [->|Hne]; [reflexivity|exact IH].
Qed.

(** The stakes after [distributeRewards], as a map over the entries. *)
Lemma distribute_stakes (now : N) (poolId : string) (st : staking)
    (pool : Pool.t) :
  pools st !! poolId = Some pool →
  StakingManager.distributeRewards now poolId st
  = (Done (Distribution.mk poolId (Z.of_N now)
             (foldl (λ sum r, (sum + RewardEntry.reward r)%Q) 0%Q
                (omap (λ kv : string * Stake.t,
                         if StakingManager.earns poolId kv.2 then
                           Some (RewardEntry.mk (Stake.id kv.2)
                                   (Stake.stakerId kv.2)
                                   (StakingManager.reward_of now pool kv.2)
                                   (Z.of_N now))
                         else None) (stakes st)))
             (omap (λ kv : string * Stake.t,
                      if StakingManager.earns poolId kv.2 then
                        Some (RewardEntry.mk (Stake.id kv.2)
                                (Stake.stakerId kv.2)
                                (StakingManager.reward_of now pool kv.2)
                                (Z.of_N now))
                      else None) (stakes st))),
     mkStaking
       ((λ kv : string * Stake.t,
           (kv.1, if StakingManager.earns poolId kv.2
                  then paid now pool kv.2 else kv.2)) <$> stakes st)
       (pools st) (rewards st)).
Proof.
  intros Hp. unfold StakingManager.distributeRewards. rewrite Hp.
  f_equal. f_equal. apply list_fmap_ext. intros i [k s] _. simpl.
  by destruct (StakingManager.earns poolId s).
Qed.

(** Every call keeps the stake under a key and makes at most one of the
    assignments of [stake_touch] to it. *)
Lemma staking_exec_touch (now : N) (c : staking_call) (st : staking)
    (k : string) (s : Stake.t) :
  alist_get k (stakes st) = Some s →
  ∃ s', alist_get k (stakes (staking_exec now c st).2) = Some s'
        ∧ stake_touch s s'.
Proof.
  intros Hk.
  assert (Hkeep : ∃ s', alist_get k (stakes st) = Some s' ∧ stake_touch s s')
    by (exists s; split; [exact Hk|constructor]).
  assert (Hset : ∀ k0 s0 s0', alist_get k0 (stakes st) = Some s0 →
            stake_touch s0 s0' →
            ∃ s', alist_get k (alist_set k0 s0' (stakes st)) = Some s'
                  ∧ stake_touch s s').
  { intros k0 s0 s0' Hk0 Ht. destruct (decide (k0 = k)) as [->|Hne].
    - rewrite alist_get_set_eq. exists s0'. split; [reflexivity|]. congruence.
    - rewrite alist_get_set_ne by exact Hne. exact Hkeep. }
  destruct c as [rnd d|rnd p sid a|p|p sid a|rnd p sid]; simpl.
  - exact Hkeep.
  - unfold StakingManager.stake.
    destruct (pools st !! p) as [pool|]; simpl; [|exact Hkeep].
    destruct (negb _); simpl; [exact Hkeep|].
    destruct (a <? Pool.minStake pool); simpl; [exact Hkeep|].
    destruct (StakingManager.pool_full pool); simpl; [exact Hkeep|].
    destruct (alist_get (StakingManager.stakeKey p sid) (stakes st))
      as [s0|] eqn:Hk0; simpl.
    + apply (Hset _ s0); [exact Hk0|constructor].
    + destruct (toISOString _); simpl; [|exact Hkeep].
      rewrite alist_get_set_ne; [exact Hkeep|]. congruence.
  - destruct (pools st !! p) as [pool|] eqn:Hp.
    + rewrite (distribute_stakes now p st pool Hp). simpl.
      rewrite (alist_get_fmap
                 (λ kv, if StakingManager.earns p kv.2
                        then paid now pool kv.2 else kv.2)).
      rewrite Hk. simpl.
      destruct (StakingManager.earns p s) eqn:He.
      * eexists. split; [reflexivity|]. apply stake_paid.
        apply andb_true_iff in He as [_ He]. by apply bool_decide_eq_true in He.
      * eexists. split; [reflexivity|constructor].
    + unfold StakingManager.distributeRewards. rewrite Hp. exact Hkeep.
  - unfold StakingManager.unstake.
    destruct (alist_get (StakingManager.stakeKey p sid) (stakes st))
      as [s0|] eqn:Hk0; simpl; [|exact Hkeep].
    destruct (Z.of_N now <? Stake.unlockAt s0); simpl; [exact Hkeep|].
    destruct (Stake.amount s0 <? a); simpl; [exact Hkeep|].
    destruct (pools st !! p) as [pool|]; simpl.
    + destruct (Stake.amount s0 - a =? 0); simpl.
      * apply (Hset _ s0); [exact Hk0|].
        apply (stake_reduce s0 a withdrawn). by right.
      * apply (Hset _ s0); [exact Hk0|].
        apply (stake_reduce s0 a (Stake.status s0)). by left.
    + apply (Hset _ s0); [exact Hk0|].
      apply (stake_reduce s0 a (Stake.status s0)). by left.
  - unfold StakingManager.claimRewards.
    destruct (alist_get (StakingManager.stakeKey p sid) (stakes st))
      as [s0|] eqn:Hk0; simpl; [|exact Hkeep].
    destruct (Qeq_bool _ _); simpl; [exact Hkeep|].
    apply (Hset _ s0); [exact Hk0|constructor].
Qed.

Lemma staking_run_touch (R : Stake.t → Stake.t → Prop) :
  (∀ s, R s s) →
  (∀ a b c, R a b → stake_touch b c → R a c) →
  ∀ trace st k s,
    alist_get k (stakes st) = Some s →
    ∃ s', alist_get k (stakes (staking_run trace st)) = Some s' ∧ R s s'.
Proof.
  intros Hrefl Hext trace.
  cut (∀ st k s0 s, R s0 s → alist_get k (stakes st) = Some s →
         ∃ s', alist_get k (stakes (staking_run trace st)) = Some s'
               ∧ R s0 s').
  { intros H st k s Hk. by apply (H st k s s). }
  induction trace as [|[now c] rest IH]; intros st k s0 s HR Hk; simpl.
  - eauto.
  - destruct (staking_exec_touch now c st k s Hk) as (s1 & Hk1 & Ht).
    apply (IH _ k s0 s1); [|exact Hk1]. by apply (Hext s0 s s1).
Qed.

Lemma stake_touch_same (s s' : Stake.t) : stake_touch s s' → same_stake s s'.
Proof. destruct 1; repeat split. Qed.

(** ** The lock *)

(** X26: a new stake is locked for the pool's lock period, counted from the
    moment it is made: until then every [unstake] of it throws 'Tokens are
    locked' and changes nothing, whatever was called in between. Adding to the
    stake later does not move the unlock time. *)
Theorem stake_locked_until (now0 now : N) (rnd poolId stakerId : string)
    (amount0 amount : Z) (st : staking) (pool : Pool.t) (s0 : Stake.t)
    (trace : list (N * staking_call)) :
  pools st !! poolId = Some pool →
  alist_get (StakingManager.stakeKey poolId stakerId) (stakes st) = None →
  (StakingManager.stake now0 rnd poolId stakerId amount0 st).1 = Done s0 →
  Z.of_N now < Z.of_N now0 + Pool.lockPeriod pool →
  let st' :=
    staking_run trace
      (StakingManager.stake now0 rnd poolId stakerId amount0 st).2 in
  StakingManager.unstake now poolId stakerId amount st'
  = (Failed TokensLocked, st').
Proof.
  intros Hp Hnone Hdone Hlt st'.
  assert (Hs0 : alist_get (StakingManager.stakeKey poolId stakerId)
                  (stakes (StakingManager.stake now0 rnd poolId stakerId
                             amount0 st).2) = Some s0
                ∧ Stake.unlockAt s0 = Z.of_N now0 + Pool.lockPeriod pool).
  { revert Hdone. unfold StakingManager.stake. rewrite Hp.
    destruct (negb _); simpl; [discriminate|].
    destruct (amount0 <? Pool.minStake pool); simpl; [discriminate|].
    destruct (StakingManager.pool_full pool); simpl; [discriminate|].
    rewrite Hnone. unfold toISOString.
    destruct (_ <=? MAX_TIME); simpl; [|discriminate].
    intros [= <-]. rewrite alist_get_set_eq. done. }
  destruct Hs0 as [Hs0 Hunlock].
  destruct (staking_run_touch same_stake) with (trace := trace)
    (st := (StakingManager.stake now0 rnd poolId stakerId amount0 st).2)
    (k := StakingManager.stakeKey poolId stakerId) (s := s0)
    as (s' & Hs' & Hsame).
  - intros s. repeat split.
  - intros a b c Hab Hbc. apply stake_touch_same in Hbc.
    unfold same_stake in *. destruct Hab as (?&?&?&?&?).
    destruct Hbc as (?&?&?&?&?). repeat split; congruence.
  - exact Hs0.
  - fold st' in Hs'. unfold StakingManager.unstake. rewrite Hs'.
    destruct Hsame as (_&_&_&_&Hu). rewrite Hu, Hunlock.
    by rewrite (proj2 (Z.ltb_lt _ _) Hlt).
Qed.

(** ** Withdrawn stakes *)

Lemma stake_touch_withdrawn (s s' : Stake.t) :
  stake_touch s s' → stays_withdrawn s s'.
Proof.
  intros Ht Hw.
  destruct Ht as [s|s a t|s now pool Hl|s a status Hst|s]; simpl.
  - auto.
  - auto.
  - congruence.
  - split; [|by left]. destruct Hst; congruence.
  - split; [exact Hw|by right].
Qed.

(** X27: once a stake is withdrawn it stays withdrawn for good: staking again
    under the same pool and staker adds to its amount but does not lock it
    again, so [distributeRewards] never pays it and its rewards can only stay
    as they were or be claimed. *)
Theorem withdrawn_never_earns (trace : list (N * staking_call)) (st : staking)
    (k : string) (s : Stake.t) :
  alist_get k (stakes st) = Some s →
  Stake.status s = withdrawn →
  ∃ s', alist_get k (stakes (staking_run trace st)) = Some s'
        ∧ Stake.status s' = withdrawn
        ∧ (Stake.rewardsEarned s' = Stake.rewardsEarned s
           ∨ Stake.rewardsEarned s' = 0%Q).
Proof.
  intros Hk Hw.
  destruct (staking_run_touch stays_withdrawn) with (trace := trace)
    (st := st) (k := k) (s := s) as (s' & Hs' & HR).
  - intros a Ha. auto.
  - intros a b c Hab Hbc Ha. destruct (Hab Ha) as [Hb Hrb].
    destruct (stake_touch_withdrawn b c Hbc Hb) as [Hc Hrc].
    split; [exact Hc|]. destruct Hrc as [Hrc|Hrc]; [|by right].
    rewrite Hrc. exact Hrb.
  - exact Hk.
  - exists s'. split; [exact Hs'|]. by apply HR.
Qed.

(** ** Rewards *)


(** X29: rewards are claimed once: a claim that returns has set the stake's
    rewards to 0 and stored the claimed amount, so the next claim of the same
    stake throws 'No rewards to claim' and changes nothing. *)
Theorem rewards_claimed_once (now now' : N) (rnd rnd' poolId stakerId : string)
    (st : staking) (r : ClaimReceipt.t) :
  (StakingManager.claimRewards now rnd poolId stakerId st).1 = Done r →
  let st' := (StakingManager.claimRewards now rnd poolId stakerId st).2 in
  (∃ s, alist_get (StakingManager.stakeKey poolId stakerId) (stakes st)
        = Some s
        ∧ ClaimReceipt.claimed r = Stake.rewardsEarned s
        ∧ Reward.amount
            <$> (rewards st' !! (stakerId +:+ "-" +:+ pretty now))
          = Some (Stake.rewardsEarned s))
  ∧ StakingManager.claimRewards now' rnd' poolId stakerId st'
    = (Failed NoRewards, st').
Proof.
  unfold StakingManager.claimRewards.
  destruct (alist_get (StakingManager.stakeKey poolId stakerId) (stakes st))
    as [s|] eqn:Hk; simpl; [|discriminate].
  destruct (Qeq_bool (Stake.rewardsEarned s) 0); simpl; [discriminate|].
  intros [= <-]. split.
  - exists s. split; [reflexivity|]. split; [reflexivity|].
    by rewrite lookup_insert_eq.
  - by rewrite alist_get_set_eq.
Qed.

(** ** The pools' books *)







Lemma staked_in_ext (st st' : staking) (pid : string) :
  stakes st' = stakes st → staked_in st' pid = staked_in st pid.
Proof. unfold staked_in. by intros ->. Qed.






(** * The properties at concrete inputs *)

Lemma steps_open_to_approved : rtc step s_open s_approved.
Proof.
  eapply rtc_l; [|eapply rtc_l; [|apply rtc_refl]].
  - apply (step_exec 2000 (Vote motion_id "alice" "for") s_open). exact I.
  - apply (step_exec 3000 (FinalizeProposal motion_id) s_voted). exact I.
Qed.

Lemma terms_never_change_witness :
  ∃ p', proposals s_approved !! motion_id = Some p' ∧ same_terms p_open p'.
Proof.
  apply (terms_never_change s_open s_approved motion_id p_open).
  - apply steps_open_to_approved.
  - vm_compute. reflexivity.
Defined.

Lemma settled_never_changes_witness :
  proposals (exec 4000 (Vote motion_id "alice" "for") s_rejected).2
    !! motion_id
  = proposals s_rejected !! motion_id.
Proof.
  assert (H : ∃ p, proposals s_rejected !! motion_id = Some p ∧ settled p).
  { eexists. split; [vm_compute; reflexivity|]. left. reflexivity. }
  destruct H as (p & Hp & Hs). rewrite Hp.
  apply (settled_never_changes s_rejected _ motion_id p); [|exact Hp|exact Hs].
  apply rtc_once.
  apply (step_exec 4000 (Vote motion_id "alice" "for") s_rejected). exact I.
Defined.

Lemma ballots_frozen_after_voting_witness :
  ∃ p p',
    proposals s_approved !! motion_id = Some p
    ∧ proposals
        (exec after_delay (ExecuteProposal motion_id None) s_approved).2
        !! motion_id = Some p'
    ∧ Proposal.votes p' = Proposal.votes p
    ∧ Proposal.voters p' = Proposal.voters p.
Proof.
  assert (H : ∃ p, proposals s_approved !! motion_id = Some p
                   ∧ Proposal.status p ≠ active).
  { eexists. split; [vm_compute; reflexivity|]. discriminate. }
  destruct H as (p & Hp & Hs).
  destruct (ballots_frozen_after_voting s_approved
              (exec after_delay (ExecuteProposal motion_id None) s_approved).2
              motion_id p) as (p' & Hp' & _ & Hv & Hvs);
    [|exact Hp|exact Hs|].
  - apply rtc_once.
    apply (step_exec after_delay (ExecuteProposal motion_id None) s_approved).
    exact I.
  - exists p, p'. split; [exact Hp|]. split; [exact Hp'|].
    split; [exact Hv|exact Hvs].
Defined.

Lemma verdict_written_once_witness :
  ∃ p p',
    proposals s_approved !! motion_id = Some p
    ∧ proposals
        (exec after_delay (ExecuteProposal motion_id None) s_approved).2
        !! motion_id = Some p'
    ∧ Proposal.result p' = Proposal.result p
    ∧ Proposal.executionScheduledAt p' = Proposal.executionScheduledAt p.
Proof.
  assert (H : ∃ p, proposals s_approved !! motion_id = Some p ∧ finalized p).
  { eexists. split; [vm_compute; reflexivity|]. left. reflexivity. }
  destruct H as (p & Hp & Hf).
  destruct (verdict_written_once s_approved
              (exec after_delay (ExecuteProposal motion_id None) s_approved).2
              motion_id p) as (p' & Hp' & _ & Hr & Hs);
    [|exact Hp|exact Hf|].
  - apply rtc_once.
    apply (step_exec after_delay (ExecuteProposal motion_id None) s_approved).
    exact I.
  - exists p, p'. split; [exact Hp|]. split; [exact Hp'|].
    split; [exact Hr|exact Hs].
Defined.

Lemma one_vote_per_member_witness :
  vote 2500 motion_id "alice" "against" s_voted = (Throw AlreadyVoted, s_voted)
  ∧ vote 3500 motion_id "alice" "against" s_approved
    = (Throw VotingEndedForProposal, s_approved).
Proof.
  split.
  - destruct (one_vote_per_member 2000 2500 motion_id "alice" "for" "against"
                s_open s_voted) as [[H _]|[_ H]].
    + vm_compute. reflexivity.
    + apply rtc_refl.
    + exact H.
    + exfalso. apply H. vm_compute. reflexivity.
  - destruct (one_vote_per_member 2000 3500 motion_id "alice" "for" "against"
                s_open s_approved) as [[_ H]|[H _]].
    + vm_compute. reflexivity.
    + apply rtc_once.
      apply (step_exec 3000 (FinalizeProposal motion_id) s_voted). exact I.
    + exfalso. vm_compute in H. discriminate H.
    + exact H.
Defined.

Lemma executed_at_most_once_witness :
  let s' := (executeProposal after_delay motion_id (Some mint_context)
               s_approved).2 in
  executeProposal (after_delay + 1) motion_id (Some burn_context) s'
  = (Throw OnlyApprovedExecutable, s').
Proof.
  intros s'.
  destruct (executed_at_most_once after_delay (after_delay + 1) motion_id
              (Some mint_context) (Some burn_context) s_approved s')
    as (p & _ & _ & H).
  - vm_compute. reflexivity.
  - apply rtc_refl.
  - exact H.
Defined.

Lemma records_written_once_witness :
  votes s_approved !! voteKey motion_id "alice"
  = Some (VoteRecord.mk motion_id "alice" "for" 5 2000).
Proof.
  apply (records_written_once s_voted s_approved).
  - apply reachable_s_voted.
  - apply rtc_once.
    apply (step_exec 3000 (FinalizeProposal motion_id) s_voted). exact I.
  - vm_compute. reflexivity.
Defined.

Lemma voters_match_records_witness :
  ∃ p, proposals s_voted !! motion_id = Some p
       ∧ size (Proposal.voters p) = recordCount s_voted motion_id
       ∧ ("alice" ∈ Proposal.voters p
          ↔ ∃ r, votes s_voted !! voteKey motion_id "alice" = Some r
                 ∧ VoteRecord.proposalId r = motion_id
                 ∧ VoteRecord.voterId r = "alice").
Proof.
  assert (H : ∃ p, proposals s_voted !! motion_id = Some p).
  { eexists. vm_compute. reflexivity. }
  destruct H as (p & Hp). exists p. split; [exact Hp|].
  destruct (voters_match_records s_voted motion_id p reachable_s_voted Hp)
    as [Hiff Hsize].
  split; [exact Hsize|apply Hiff].
Defined.

Lemma only_registration_moves_power_witness :
  totalVotingPower s_voted = totalVotingPower s_open.
Proof.
  apply (only_registration_moves_power 2000 (Vote motion_id "alice" "for")
           s_open).
  intros d. discriminate.
Defined.



Lemma reserves_always_match_witness :
  ∃ st,
    StablecoinManager.getReserveStatus coin_id l_coin = (Ok st, l_coin)
    ∧ ReserveStatus.totalSupply st = 1300
    ∧ Reserves.amount (ReserveStatus.reserves st) = ReserveStatus.totalSupply st
    ∧ ReserveStatus.isFullyBacked st = true.
Proof.
  assert (H : ∃ st, StablecoinManager.getReserveStatus coin_id l_coin
                    = (Ok st, l_coin)
                    ∧ ReserveStatus.totalSupply st = 1300).
  { eexists. split; vm_compute; reflexivity. }
  destruct H as (st & Hst & Htotal). exists st.
  split; [exact Hst|]. split; [exact Htotal|].
  destruct (reserves_always_match coin_trace coin_id st l_coin Hst)
    as (_ & Hres & Hfull & _).
  split; [exact Hres|exact Hfull].
Defined.


Lemma transfer_moves_nothing_witness :
  stablecoins
    (StablecoinManager.transfer 40 "t1" coin_id "alice" "alice" (-7) l_coin).2
  = stablecoins l_coin.
Proof.
  destruct (transfer_moves_nothing 40 "t1" coin_id "alice" "alice" (-7) l_coin)
    as (tx & -> & _).
  - vm_compute. eexists. reflexivity.
  - reflexivity.
Defined.


Lemma supply_never_negative_witness :
  ∃ c, stablecoins l_coin !! coin_id = Some c
       ∧ 0 ≤ Stablecoin.circulatingSupply c.
Proof.
  assert (H : ∃ c, stablecoins l_coin !! coin_id = Some c).
  { eexists. vm_compute. reflexivity. }
  destruct H as (c & Hc). exists c. split; [exact Hc|].
  apply (supply_never_negative coin_trace coin_id c); [|exact Hc].
  repeat constructor; simpl; lia.
Defined.


Lemma rate_table_bounded_witness :
  (limiter_run limiter_trace ∅ []).1 !! "user-1" = Some [1000; 2000]
  ∧ (length [1000; 2000] ≤ maxRequests)%nat.
Proof.
  assert (H : (limiter_run limiter_trace ∅ []).1 !! "user-1"
              = Some [1000; 2000]) by (vm_compute; reflexivity).
  split; [exact H|].
  apply (rate_table_bounded limiter_trace "user-1" [1000; 2000] H).
Defined.

Lemma rate_limit_window_witness :
  (_checkRateLimit 3000 "user-1" (limiter_run limiter_trace ∅ []).1).1
  = Some RateLimitExceeded
  ↔ (maxRequests
     ≤ length (in_window 3000 "user-1" (limiter_run limiter_trace ∅ []).2))%nat.
Proof.
  apply (rate_limit_window limiter_trace 3000 "user-1").
  simpl. repeat split; lia.
Defined.

Lemma stake_locked_until_witness :
  let st := (StakingManager.stake 20 "s1" locked_pool_id "dave" 500
               st_locked_pool).2 in
  StakingManager.unstake 86400000 locked_pool_id "dave" 500
    (staking_run [(30%N, StakeTokens "s2" locked_pool_id "dave" 100)] st)
  = (Failed TokensLocked,
     staking_run [(30%N, StakeTokens "s2" locked_pool_id "dave" 100)] st).
Proof.
  intros st.
  eapply (stake_locked_until 20 86400000 "s1" locked_pool_id "dave" 500 500
            st_locked_pool).
  - vm_compute. reflexivity.
  - vm_compute. reflexivity.
  - vm_compute. reflexivity.
  - vm_compute. reflexivity.
Defined.

Lemma withdrawn_never_earns_witness :
  ∃ s',
    alist_get (StakingManager.stakeKey pool_id "carol")
      (stakes (staking_run
                 [ (31536000040%N, StakeTokens "s3" pool_id "carol" 700);
                   (63072000000%N, DistributeRewards pool_id) ]
                 st_withdrawn))
    = Some s'
    ∧ Stake.amount s' = 700
    ∧ Stake.status s' = withdrawn
    ∧ (Stake.rewardsEarned s' == 50)%Q.
Proof.
  assert (H : ∃ s, alist_get (StakingManager.stakeKey pool_id "carol")
                     (stakes st_withdrawn) = Some s
                   ∧ Stake.status s = withdrawn
                   ∧ (Stake.rewardsEarned s == 50)%Q).
  { eexists. split; [vm_compute; reflexivity|].
    split; [reflexivity|]. vm_compute. reflexivity. }
  destruct H as (s & Hs & Hw & Hr).
  destruct (withdrawn_never_earns
              [ (31536000040%N, StakeTokens "s3" pool_id "carol" 700);
                (63072000000%N, DistributeRewards pool_id) ]
              st_withdrawn _ s Hs Hw) as (s' & Hs' & Hw' & Hr').
  exists s'. split; [exact Hs'|].
  assert (Ha : Stake.amount <$> Some s' = Some 700).
  { rewrite <- Hs'. vm_compute. reflexivity. }
  injection Ha as Ha. split; [exact Ha|]. split; [exact Hw'|].
  destruct Hr' as [->| Hz]; [exact Hr|].
  exfalso.
  assert (Hq : Stake.rewardsEarned <$> Some s'
               = Stake.rewardsEarned <$> Some s).
  { rewrite <- Hs', <- Hs. vm_compute. reflexivity. }
  injection Hq as Hq. rewrite Hq in Hz. rewrite Hz in Hr. discriminate Hr.
Defined.


Lemma rewards_claimed_once_witness :
  let st' := (StakingManager.claimRewards 31536000025 "c1" pool_id "carol"
                st_paid).2 in
  StakingManager.claimRewards 31536000026 "c2" pool_id "carol" st'
  = (Failed NoRewards, st').
Proof.
  intros st'.
  edestruct (rewards_claimed_once 31536000025 31536000026 "c1" "c2" pool_id
               "carol" st_paid) as [_ H].
  - vm_compute. reflexivity.
  - exact H.
Defined.




Lemma createProposal_cases_witness :
  createProposal 1000 "k3x9" motion new_store
  = (Throw ProposerNotFound, new_store)
  ∧ ∃ p, (createProposal 1000 "k3x9" motion s_members).1 = Return p
         ∧ Proposal.status p = active
         ∧ Proposal.votingEndsAt p = 1000 + default_votingPeriod.
Proof.
  pose proof (createProposal_cases 1000 "k3x9" motion new_store) as Hnew.
  pose proof (createProposal_cases 1000 "k3x9" motion s_members) as Hreg.
  cbv zeta in Hnew, Hreg.
  destruct Hnew as (Hnone & _ & _). destruct Hreg as (_ & _ & Hok).
  split; [apply Hnone; reflexivity|].
  assert (H : ∃ m, members s_members !! ProposalData.proposerId motion
                   = Some m).
  { eexists. vm_compute. reflexivity. }
  destruct H as (m & Hm).
  exists (new_proposal 1000 "k3x9" motion m).
  rewrite (Hok m Hm); [|vm_compute; discriminate].
  split; [reflexivity|]. split; reflexivity.
Defined.

Lemma mint_cases_witness :
  StablecoinManager.mint 40 "m2" "SC-0-none" 100 signed l_coin
  = (Err StablecoinNotFound, l_coin)
  ∧ StablecoinManager.mint 40 "m2" coin_id 100 None l_coin
    = (Err UnauthorizedMint, l_coin)
  ∧ ∃ r, (StablecoinManager.mint 40 "m2" coin_id 100 signed l_coin).1 = Ok r
         ∧ MintReceipt.newSupply r = 1400.
Proof.
  destruct (mint_cases 40 "m2" "SC-0-none" 100 signed l_coin)
    as (Hnone & _ & _).
  destruct (mint_cases 40 "m2" coin_id 100 None l_coin) as (_ & Hunauth & _).
  destruct (mint_cases 40 "m2" coin_id 100 signed l_coin) as (_ & _ & Hok).
  split; [apply Hnone; vm_compute; reflexivity|].
  split; [apply Hunauth; [eexists; vm_compute; reflexivity|reflexivity]|].
  assert (H : ∃ c, stablecoins l_coin !! coin_id = Some c
                   ∧ Stablecoin.totalSupply c = 1300).
  { eexists. split; vm_compute; reflexivity. }
  destruct H as (c & Hc & Htot).
  destruct (Hok c ["treasury"; "auditor"] Hc eq_refl) as (tx & Heq & _);
    [discriminate|].
  eexists. rewrite Heq. simpl. split; [reflexivity|].
  simpl. rewrite Htot. reflexivity.
Defined.
